(** * Block-STM parallel executor (core/blockstm): a shallow embedding

    The development follows [core/blockstm/executor.go] (the worker body and
    the coordinator loop of [ExecuteParallel]) and the transaction
    input/output table ([TxnInput], [TxnOutput], [hasNewWrite],
    [TxnInputOutput]).

    - Go [int] is a 64-bit two's-complement integer: it is a [Z] here, and
      every addition and subtraction of the source goes through [GoInt.add]
      and [GoInt.sub], which wrap around.
    - Go slices are lists; an index out of range panics, so the code that
      indexes slices lives in a state monad with a [Panic] outcome.
    - Go maps are [gmap]s; reading an absent key yields the zero value.
    - Every call that mutates something outside the coordinator's locals
      (status managers, multi-version map, channels, the input/output
      table) is recorded in a trace of [Event]s next to its effect on the
      state, so that "is called" and "before" can be stated.
    - The multi-version hash map, [ValidateVersion] and the status manager
      are declared in files that are not part of the sources at hand; they
      are modelled from the written specification and marked as such. *)

From stdpp Require Import gmap list fin_maps sorting strings.
From Stdlib Require Import ZArith Lia.

Local Open Scope Z_scope.

(** ** Go's [int] *)

Module GoInt.

Definition min_int : Z := - 2 ^ 63.
Definition max_int : Z := 2 ^ 63 - 1.

Definition wrap (z : Z) : Z := (z + 2 ^ 63) mod 2 ^ 64 - 2 ^ 63.

Definition add (a b : Z) : Z := wrap (a + b).
Definition sub (a b : Z) : Z := wrap (a - b).

Definition in_range (z : Z) : Prop := min_int <= z <= max_int.

Lemma wrap_small z : in_range z -> wrap z = z.
Proof.
  unfold in_range, min_int, max_int, wrap. intros Hz.
  rewrite Z.mod_small by lia. lia.
Qed.

Lemma add_small a b : in_range (a + b) -> add a b = a + b.
Proof. apply wrap_small. Qed.

Lemma sub_small a b : in_range (a - b) -> sub a b = a - b.
Proof. apply wrap_small. Qed.

Lemma wrap_in_range z : in_range (wrap z).
Proof.
  unfold in_range, min_int, max_int, wrap.
  pose proof (Z.mod_pos_bound (z + 2 ^ 63) (2 ^ 64)). lia.
Qed.

End GoInt.

(** A slice index: Go panics unless [0 <= i < len]. *)
Definition index {A} (l : list A) (i : Z) : option A :=
  if decide (0 <= i) then l !! Z.to_nat i else None.

Definition store {A} (l : list A) (i : Z) (x : A) : option (list A) :=
  if decide (0 <= i < Z.of_nat (length l)) then Some (<[Z.to_nat i := x]> l)
  else None.

Lemma index_Some {A} (l : list A) i :
  0 <= i < Z.of_nat (length l) -> exists x, index l i = Some x.
Proof.
  intros Hi. unfold index. rewrite decide_True by lia.
  apply lookup_lt_is_Some_2. lia.
Qed.

Lemma index_None {A} (l : list A) i :
  ~ 0 <= i < Z.of_nat (length l) -> index l i = None.
Proof.
  intros Hi. unfold index. case_decide; [|done].
  apply lookup_ge_None_2. lia.
Qed.

Lemma index_range {A} (l : list A) i x :
  index l i = Some x -> 0 <= i < Z.of_nat (length l).
Proof.
  unfold index. case_decide as Hi; [|done]. intros Hl%lookup_lt_Some. lia.
Qed.

Lemma store_Some {A} (l : list A) i x :
  0 <= i < Z.of_nat (length l) -> store l i x = Some (<[Z.to_nat i := x]> l).
Proof. intros Hi. unfold store. by rewrite decide_True. Qed.

Lemma store_None {A} (l : list A) i x :
  ~ 0 <= i < Z.of_nat (length l) -> store l i x = None.
Proof. intros Hi. unfold store. by rewrite decide_False. Qed.

Lemma index_store_eq {A} (l l' : list A) i x :
  store l i x = Some l' -> index l' i = Some x.
Proof.
  unfold store, index. case_decide; [|done]. intros [= <-].
  rewrite decide_True by lia. apply list_lookup_insert_eq. lia.
Qed.

Lemma index_store_ne {A} (l l' : list A) i j x :
  store l i x = Some l' -> i <> j -> index l' j = index l j.
Proof.
  unfold store, index. case_decide; [|done]. intros [= <-] Hne.
  case_decide; [|done]. apply list_lookup_insert_ne. lia.
Qed.

Lemma store_length {A} (l l' : list A) i x :
  store l i x = Some l' -> length l' = length l.
Proof.
  unfold store. case_decide; [|done]. intros [= <-]. apply length_insert.
Qed.

(** ** Versions, descriptors and the input/output table (txio) *)

Record Version := mkVersion { TxnIndex : Z; Incarnation : Z }.

Global Instance Version_eq_dec : EqDecision Version.
Proof. solve_decision. Defined.

Definition ReadKindMap : Z := 0.
Definition ReadKindStorage : Z := 1.

Section Txio.

(** [Key] is an opaque comparable identity, [Val] is Go's [interface{}]. *)
Context {Key : Type} `{Countable Key} {Val : Type}.

Record ReadDescriptor := mkRead { RPath : Key; Kind : Z; RV : Version }.

Record WriteDescriptor := mkWrite { Path : Key; V : Version; WVal : Val }.

Definition TxnInput := list ReadDescriptor.
Definition TxnOutput := list WriteDescriptor.

(** The map [cmpMap] built by the loop [cmpMap[w.Path] = true]. *)
Definition pathMap (start : gmap Key bool) (ws : list WriteDescriptor)
  : gmap Key bool :=
  foldl (fun m w => <[Path w := true]> m) start ws.

(** Reading a Go [map[Key]bool]: the zero value [false] when absent. *)
Definition mapbool (m : gmap Key bool) (k : Key) : bool :=
  default false (m !! k).

(** hasNewWrite: returns true if the current set has a new write compared
    to the input *)
Definition hasNewWrite (txo : TxnOutput) (cmpSet : list WriteDescriptor)
  : bool :=
  if decide (length txo = 0%nat) then false
  else if decide (length cmpSet = 0%nat \/ (length cmpSet < length txo)%nat)
  then true
  else
    match cmpSet with
    | [] => true
    | c0 :: rest =>
        let cmpMap := pathMap {[ Path c0 := true ]} rest in
        existsb (fun v => negb (mapbool cmpMap (Path v))) txo
    end.

Record TxnInputOutput := mkTxIO {
  inputs : list TxnInput;
  outputs : list TxnOutput;
  allOutputs : list TxnOutput
}.

Definition ReadSet (io : TxnInputOutput) (txnIdx : Z) : option TxnInput :=
  index (inputs io) txnIdx.

Definition WriteSet (io : TxnInputOutput) (txnIdx : Z) : option TxnOutput :=
  index (outputs io) txnIdx.

Definition AllWriteSet (io : TxnInputOutput) (txnIdx : Z) : option TxnOutput :=
  index (allOutputs io) txnIdx.

(** [make([]T, numTx)]: [numTx] nil slices. *)
Definition MakeTxnInputOutput (numTx : nat) : TxnInputOutput :=
  {| inputs := replicate numTx [];
     outputs := replicate numTx [];
     allOutputs := replicate numTx [] |}.

Definition recordRead (io : TxnInputOutput) (txId : Z) (input : TxnInput)
  : option TxnInputOutput :=
  l ← store (inputs io) txId input;
  Some {| inputs := l; outputs := outputs io; allOutputs := allOutputs io |}.

Definition recordWrite (io : TxnInputOutput) (txId : Z) (output : TxnOutput)
  : option TxnInputOutput :=
  l ← store (outputs io) txId output;
  Some {| inputs := inputs io; outputs := l; allOutputs := allOutputs io |}.

Definition recordAllWrite (io : TxnInputOutput) (txId : Z) (output : TxnOutput)
  : option TxnInputOutput :=
  l ← store (allOutputs io) txId output;
  Some {| inputs := inputs io; outputs := outputs io; allOutputs := l |}.

(** *** Facts about [pathMap] and [hasNewWrite] *)

Lemma pathMap_lookup start ws k :
  mapbool (pathMap start ws) k = true <->
  mapbool start k = true \/ k ∈ (Path <$> ws).
Proof.
  revert start. induction ws as [|w ws IH]; intros start; simpl.
  - split; [by left|]. intros [?|Hin]; [done|]. by apply elem_of_nil in Hin.
  - rewrite IH. unfold mapbool. rewrite lookup_insert.
    case_decide as Hk; simpl.
    + subst k. split; [intros _; right; by left|intros _; by left].
    + rewrite elem_of_cons. split.
      * intros [?|?]; [by left|right; by right].
      * intros [?|[?|?]]; [by left|congruence|by right].
Qed.

Lemma pathMap_cons_lookup c0 rest k :
  mapbool (pathMap {[ Path c0 := true ]} rest) k = true <->
  k ∈ (Path <$> (c0 :: rest)).
Proof.
  rewrite pathMap_lookup. unfold mapbool. rewrite lookup_singleton.
  rewrite fmap_cons, elem_of_cons. case_decide as Hk; simpl.
  - subst k. split; intros _; by left.
  - split; [intros [?|?]; [done|by right]|intros [?|?]; [congruence|by right]].
Qed.

(** The scan over [txo] finds a path that is not in [cmpSet]. *)
Lemma scan_spec c0 rest (txo : TxnOutput) :
  existsb (fun v => negb (mapbool (pathMap {[ Path c0 := true ]} rest) (Path v))) txo
    = true <->
  exists k, k ∈ (Path <$> txo) /\ k ∉ (Path <$> (c0 :: rest)).
Proof.
  rewrite existsb_exists. split.
  - intros (v & Hv & Hneg). exists (Path v). split.
    + apply list_elem_of_fmap. exists v. split; [done|]. by apply list_elem_of_In.
    + rewrite <- pathMap_cons_lookup. by destruct (mapbool _ _).
  - intros (k & Hk & Hnk). apply list_elem_of_fmap in Hk as (v & -> & Hv).
    exists v. split; [by apply list_elem_of_In|].
    rewrite <- pathMap_cons_lookup in Hnk. by destruct (mapbool _ _).
Qed.

(** What [hasNewWrite] computes, for arbitrary lists: the length test of
    the source comes first. *)
Lemma hasNewWrite_char (txo : TxnOutput) (cmpSet : list WriteDescriptor) :
  hasNewWrite txo cmpSet = true <->
  txo <> [] /\
  ((length cmpSet < length txo)%nat \/
   exists k, k ∈ (Path <$> txo) /\ k ∉ (Path <$> cmpSet)).
Proof.
  unfold hasNewWrite.
  destruct txo as [|t txo].
  { simpl. split; [done|]. by intros [? _]. }
  rewrite decide_False by (simpl; lia).
  destruct cmpSet as [|c0 rest].
  { rewrite decide_True by (left; done).
    split; [|done]. intros _. split; [done|]. left. simpl. lia. }
  case_decide as Hlen.
  - split; [|done]. intros _. split; [done|].
    destruct Hlen as [Hlen|Hlen]; [done|]. by left.
  - rewrite scan_spec. split.
    + intros Hex. split; [done|]. by right.
    + intros [_ [Hgt|Hex]]; [|done]. exfalso. apply Hlen. by right.
Qed.

(** A write path of [txo] absent from [cmpSet] always makes
    [hasNewWrite] answer true. *)
Lemma hasNewWrite_absent (txo : TxnOutput) (cmpSet : list WriteDescriptor) k :
  k ∈ (Path <$> txo) -> k ∉ (Path <$> cmpSet) -> hasNewWrite txo cmpSet = true.
Proof.
  intros Hin Hnin. apply hasNewWrite_char. split.
  - intros ->. by apply elem_of_nil in Hin.
  - right. by exists k.
Qed.

(** C2, as the code has it. For a [txo] whose paths are pairwise distinct,
    [hasNewWrite txo cmpSet] is true exactly when the paths of [txo] are
    not all among the paths of [cmpSet]. (The source first compares the
    lengths of the two slices, so a [txo] that repeats a path can be
    longer than [cmpSet] without writing anything new.) *)
Theorem hasNewWrite_iff_not_subset (txo : TxnOutput) (cmpSet : list WriteDescriptor) :
  NoDup (Path <$> txo) ->
  hasNewWrite txo cmpSet = true <->
  ~ (forall k, k ∈ (Path <$> txo) -> k ∈ (Path <$> cmpSet)).
Proof.
  intros Hnodup. rewrite hasNewWrite_char. split.
  - intros [Hne [Hlen|(k & Hk & Hnk)]] Hsub.
    + pose proof (NoDup_submseteq _ _ Hnodup Hsub) as Hle.
      apply submseteq_length in Hle. rewrite !length_fmap in Hle. lia.
    + by apply Hnk, Hsub.
  - intros Hnsub.
    destruct (decide (Forall (fun k => k ∈ (Path <$> cmpSet)) (Path <$> txo)))
      as [Hall|Hnall].
    + exfalso. apply Hnsub. intros k Hk. by eapply Forall_forall in Hall.
    + apply not_Forall_Exists in Hnall; [|apply _].
      apply Exists_exists in Hnall as (k & Hk & Hnk).
      split.
      * intros ->. by apply elem_of_nil in Hk.
      * right. by exists k.
Qed.

(** *** More on [hasNewWrite] and on the table *)

(** X1. What [hasNewWrite] answers on arbitrary slices: true exactly when [txo]
    is not empty and either [txo] is the longer slice or one of its paths
    is not a path of [cmpSet]. *)
Theorem hasNewWrite_behaviour (txo : TxnOutput) (cmpSet : list WriteDescriptor) :
  hasNewWrite txo cmpSet = true <->
  txo <> [] /\
  ((length cmpSet < length txo)%nat \/
   exists k, k ∈ (Path <$> txo) /\ k ∉ (Path <$> cmpSet)).
Proof. apply hasNewWrite_char. Qed.

(** X2. A write set has no new write compared to itself. *)
Theorem hasNewWrite_self (txo : TxnOutput) : hasNewWrite txo txo = false.
Proof.
  destruct (hasNewWrite txo txo) eqn:Hn; [|done]. exfalso.
  apply hasNewWrite_char in Hn as [_ [Hlen|(k & Hk & Hnk)]]; [lia|done].
Qed.

(** X3. The answer does not depend on the order of either slice (the write
    lists of a task may come from the iteration of a Go map). *)
Theorem hasNewWrite_order_insensitive (txo txo' : TxnOutput)
    (cmpSet cmpSet' : list WriteDescriptor) :
  txo ≡ₚ txo' -> cmpSet ≡ₚ cmpSet' ->
  hasNewWrite txo cmpSet = hasNewWrite txo' cmpSet'.
Proof.
  intros Ht Hc.
  assert (Hiff : hasNewWrite txo cmpSet = true <-> hasNewWrite txo' cmpSet' = true).
  { rewrite !hasNewWrite_char.
    assert (Hnil : txo <> [] <-> txo' <> []).
    { split; intros Hne ->.
      - apply Hne. by apply Permutation_nil_r.
      - apply Hne. by apply Permutation_nil_r. }
    rewrite Hnil, (Permutation_length Ht), (Permutation_length Hc).
    assert (Hex : (exists k, k ∈ (Path <$> txo) /\ k ∉ (Path <$> cmpSet)) <->
                  (exists k, k ∈ (Path <$> txo') /\ k ∉ (Path <$> cmpSet'))).
    { split; intros (k & Hk & Hnk); exists k.
      - by rewrite <- Ht, <- Hc.
      - by rewrite Ht, Hc. }
    by rewrite Hex. }
  destruct (hasNewWrite txo cmpSet), (hasNewWrite txo' cmpSet'); try done.
  - by destruct Hiff as [-> _].
  - by destruct Hiff as [_ ->].
Qed.


(** X5. What [recordRead] stores is what [ReadSet] returns for that index; the
    read sets of the other indices, and all write sets, are untouched. *)
Theorem recordRead_ReadSet (io io' : TxnInputOutput) (txId : Z) (input : TxnInput) :
  recordRead io txId input = Some io' ->
  ReadSet io' txId = Some input /\
  (forall j, j <> txId -> ReadSet io' j = ReadSet io j) /\
  (forall j, WriteSet io' j = WriteSet io j) /\
  (forall j, AllWriteSet io' j = AllWriteSet io j).
Proof.
  unfold recordRead, ReadSet, WriteSet, AllWriteSet.
  destruct (store (inputs io) txId input) as [l|] eqn:Hst; [|done].
  simpl. intros [= <-]. simpl. split; [by eapply index_store_eq|].
  split; [|done]. intros j Hj. eapply index_store_ne; [exact Hst|]. congruence.
Qed.

(** X6. What [recordWrite] stores is what [WriteSet] returns for that index;
    the write sets of the other indices, all read sets and all full write
    sets are untouched. *)
Theorem recordWrite_WriteSet (io io' : TxnInputOutput) (txId : Z) (output : TxnOutput) :
  recordWrite io txId output = Some io' ->
  WriteSet io' txId = Some output /\
  (forall j, j <> txId -> WriteSet io' j = WriteSet io j) /\
  (forall j, ReadSet io' j = ReadSet io j) /\
  (forall j, AllWriteSet io' j = AllWriteSet io j).
Proof.
  unfold recordWrite, ReadSet, WriteSet, AllWriteSet.
  destruct (store (outputs io) txId output) as [l|] eqn:Hst; [|done].
  simpl. intros [= <-]. simpl. split; [by eapply index_store_eq|].
  split; [|done]. intros j Hj. eapply index_store_ne; [exact Hst|]. congruence.
Qed.

(** X7. What [recordAllWrite] stores is what [AllWriteSet] returns for that
    index; the full write sets of the other indices, all read sets and all
    write sets are untouched. *)
Theorem recordAllWrite_AllWriteSet (io io' : TxnInputOutput) (txId : Z)
    (output : TxnOutput) :
  recordAllWrite io txId output = Some io' ->
  AllWriteSet io' txId = Some output /\
  (forall j, j <> txId -> AllWriteSet io' j = AllWriteSet io j) /\
  (forall j, ReadSet io' j = ReadSet io j) /\
  (forall j, WriteSet io' j = WriteSet io j).
Proof.
  unfold recordAllWrite, ReadSet, WriteSet, AllWriteSet.
  destruct (store (allOutputs io) txId output) as [l|] eqn:Hst; [|done].
  simpl. intros [= <-]. simpl. split; [by eapply index_store_eq|].
  split; [|done]. intros j Hj. eapply index_store_ne; [exact Hst|]. congruence.
Qed.

(** X8. A table made for [numTx] transactions holds the nil read set and the
    nil write sets at every index below [numTx], and none elsewhere. *)
Theorem MakeTxnInputOutput_sets (numTx : nat) (i : Z) :
  ReadSet (MakeTxnInputOutput numTx) i
    = (if decide (0 <= i < Z.of_nat numTx) then Some [] else None) /\
  WriteSet (MakeTxnInputOutput numTx) i
    = (if decide (0 <= i < Z.of_nat numTx) then Some [] else None) /\
  AllWriteSet (MakeTxnInputOutput numTx) i
    = (if decide (0 <= i < Z.of_nat numTx) then Some [] else None).
Proof.
  assert (Hrep : forall A (x : A),
            index (replicate numTx x) i
            = if decide (0 <= i < Z.of_nat numTx) then Some x else None).
  { intros A x. unfold index. case_decide as H0; case_decide as H1; try lia.
    - apply lookup_replicate_2. lia.
    - apply lookup_ge_None_2. rewrite length_replicate. lia.
    - done. }
  unfold ReadSet, WriteSet, AllWriteSet, MakeTxnInputOutput. simpl.
  by rewrite !Hrep.
Qed.

End Txio.

Arguments ReadDescriptor : clear implicits.
Arguments WriteDescriptor : clear implicits.
Arguments TxnInput : clear implicits.
Arguments TxnOutput : clear implicits.
Arguments TxnInputOutput : clear implicits.

(** ** The status manager *)

Module Status.

(** Modelled from the spec: the status manager (its source file, with
    [makeStatusManager] and the methods used by the executor, is not
    among the sources). Section 4.2 of the specification describes a
    per-index state machine with a ready queue ordered by ascending
    index, the indices dispatched to a worker, the indices whose
    execution is recorded, and the dependency edges blocker -> dependent.
    [blockCount] is the observable of the specification: the number of
    outstanding blockers of an index, and -1 for a complete index. *)
Record StatusManager := mkSM {
  pending : list Z;
  inProgress : list Z;
  complete : list Z;
  dependency : list (Z * Z)
}.

(** Insertion in an ascending list without duplicates. *)
Fixpoint insertInList (l : list Z) (v : Z) : list Z :=
  match l with
  | [] => [v]
  | x :: l' =>
      if decide (v < x) then v :: l
      else if decide (v = x) then l
      else x :: insertInList l' v
  end.

Definition removeFromList (l : list Z) (v : Z) : list Z :=
  filter (fun x => x <> v) l.

(** Modelled from the spec: [makeStatusManager(n)] is only known from its
    two uses in the executor: the execution manager starts with every
    index of the batch in the ready queue (the bootstrap takes pending
    indices right after), the validation manager is made with 0. *)
Definition makeStatusManager (numTasks : nat) : StatusManager :=
  {| pending := Z.of_nat <$> seq 0 numTasks;
     inProgress := [];
     complete := [];
     dependency := [] |}.

(** Modelled from the spec: "pushPending(i): Pending <- (any
    non-InProgress state)". *)
Definition pushPending (i : Z) (m : StatusManager) : StatusManager :=
  {| pending := insertInList (pending m) i;
     inProgress := inProgress m;
     complete := complete m;
     dependency := dependency m |}.

(** Modelled from the spec: "takeNextPending() -> i | -1: pops the
    smallest Pending index into InProgress". *)
Definition takeNextPending (m : StatusManager) : Z * StatusManager :=
  match pending m with
  | [] => (-1, m)
  | x :: rest =>
      (x, {| pending := rest;
             inProgress := insertInList (inProgress m) x;
             complete := complete m;
             dependency := dependency m |})
  end.

(** Modelled from the spec: "markComplete(i): InProgress -> Complete". *)
Definition markComplete (i : Z) (m : StatusManager) : StatusManager :=
  {| pending := pending m;
     inProgress := removeFromList (inProgress m) i;
     complete := insertInList (complete m) i;
     dependency := dependency m |}.

(** Modelled from the spec: "clearInProgress(i): InProgress -> (neither
    Pending nor Complete)". *)
Definition clearInProgress (i : Z) (m : StatusManager) : StatusManager :=
  {| pending := pending m;
     inProgress := removeFromList (inProgress m) i;
     complete := complete m;
     dependency := dependency m |}.

(** Modelled from the spec: "clearComplete(i): Complete -> (some other
    state)". *)
Definition clearComplete (i : Z) (m : StatusManager) : StatusManager :=
  {| pending := pending m;
     inProgress := inProgress m;
     complete := removeFromList (complete m) i;
     dependency := dependency m |}.

(** Modelled from the spec: "clearPending(i): remove i from pending
    queue". *)
Definition clearPending (i : Z) (m : StatusManager) : StatusManager :=
  {| pending := removeFromList (pending m) i;
     inProgress := inProgress m;
     complete := complete m;
     dependency := dependency m |}.

(** Modelled from the spec: "checkPending(i) -> bool: whether i is in
    pending". *)
Definition checkPending (i : Z) (m : StatusManager) : bool :=
  bool_decide (i ∈ pending m).

Definition checkComplete (i : Z) (m : StatusManager) : bool :=
  bool_decide (i ∈ complete m).

Definition blockers (i : Z) (m : StatusManager) : list Z :=
  fst <$> filter (fun e => snd e = i) (dependency m).

Definition dependents (i : Z) (m : StatusManager) : list Z :=
  snd <$> filter (fun e => fst e = i) (dependency m).

(** Modelled from the spec: "blockCount[i]: current number of outstanding
    blockers for i; -1 when i is complete". *)
Definition blockCount (m : StatusManager) (i : Z) : Z :=
  if checkComplete i m then -1 else Z.of_nat (length (blockers i m)).

(** Modelled from the spec: "addDependencies(blocker, i): record edge
    blocker -> i; if blocker is not yet Complete, transitions i to
    Blocked (return true); otherwise return false". An edge is
    outstanding, so none is recorded for a blocker that is complete. *)
Definition addDependencies (blocker dependent : Z) (m : StatusManager)
  : bool * StatusManager :=
  if checkComplete blocker m then (false, m)
  else
    (true,
     {| pending := pending m;
        inProgress := inProgress m;
        complete := complete m;
        dependency :=
          if bool_decide ((blocker, dependent) ∈ dependency m)
          then dependency m
          else dependency m ++ [(blocker, dependent)] |}).

(** Modelled from the spec: "removeDependency(i): treat i as
    now-complete; for every j blocked by i, decrement its block count;
    when a j's block count reaches zero, push j Pending". *)
Definition release (m : StatusManager) (j : Z) : StatusManager :=
  if decide (blockers j m = []) then pushPending j m else m.

Definition removeDependency (i : Z) (m : StatusManager) : StatusManager :=
  let js := dependents i m in
  let m' := {| pending := pending m;
               inProgress := inProgress m;
               complete := complete m;
               dependency := filter (fun e => fst e <> i) (dependency m) |} in
  foldl release m' js.

(** Modelled from the spec: "minPending() -> smallest Pending index, or
    -1". *)
Definition minPending (m : StatusManager) : Z :=
  match pending m with
  | [] => -1
  | x :: _ => x
  end.

(** The end of the run [k, k+1, ...] at the head of an ascending list;
    [k - 1] when the list does not start with [k]. *)
Fixpoint runFrom (k : Z) (l : list Z) : Z :=
  match l with
  | [] => k - 1
  | x :: l' => if decide (x = k) then runFrom (k + 1) l' else k - 1
  end.

(** Modelled from the spec: "maxAllComplete() -> the largest k such that
    every 0..k is Complete" (-1 when 0 is not complete). *)
Definition maxAllComplete (m : StatusManager) : Z :=
  runFrom 0 (complete m).

(** Modelled from the spec: "countComplete() -> number of Complete
    indices". *)
Definition countComplete (m : StatusManager) : Z :=
  Z.of_nat (length (complete m)).

(** Modelled from the spec: "getRevalidationRange(from) ->
    [from..maxComplete] among Complete indices", "the set of Complete
    indices >= some lower bound". *)
Definition getRevalidationRange (from : Z) (m : StatusManager) : list Z :=
  filter (fun i => from <= i) (complete m).

(** Modelled from the spec: "pushPendingSet(ixs): batch pushPending". *)
Definition pushPendingSet (ixs : list Z) (m : StatusManager) : StatusManager :=
  foldl (fun m i => pushPending i m) m ixs.

(** *** Queues stay ascending *)

Definition ascending (l : list Z) : Prop := StronglySorted Z.lt l.

Lemma insertInList_elem l v x : x ∈ insertInList l v <-> x = v \/ x ∈ l.
Proof.
  induction l as [|y l IH]; simpl.
  - rewrite list_elem_of_singleton. split; [by left|]. intros [?|Hx]; [done|].
    by apply elem_of_nil in Hx.
  - repeat case_decide; rewrite ?elem_of_cons, ?IH, ?elem_of_cons; intuition lia.
Qed.

Lemma insertInList_ascending l v : ascending l -> ascending (insertInList l v).
Proof.
  unfold ascending. induction 1 as [|y l Hs IH Hall]; simpl.
  - repeat constructor.
  - repeat case_decide.
    + constructor; [by constructor|]. constructor; [done|].
      eapply Forall_impl; [exact Hall|]. simpl. intros. lia.
    + by constructor.
    + constructor; [done|]. apply Forall_forall. intros x Hx.
      apply insertInList_elem in Hx as [->|Hx]; [lia|].
      by eapply Forall_forall in Hall.
Qed.

Lemma removeFromList_elem l v x : x ∈ removeFromList l v <-> x <> v /\ x ∈ l.
Proof. unfold removeFromList. by rewrite list_elem_of_filter. Qed.

Lemma removeFromList_ascending l v : ascending l -> ascending (removeFromList l v).
Proof.
  unfold ascending, removeFromList. induction 1 as [|y l Hs IH Hall]; simpl.
  - constructor.
  - rewrite filter_cons. case_decide; [|done]. constructor; [done|].
    apply Forall_forall. intros x [_ Hx]%list_elem_of_filter.
    by eapply Forall_forall in Hall.
Qed.

Lemma ascending_head_min x l y : ascending (x :: l) -> y ∈ x :: l -> x <= y.
Proof.
  intros Hs Hy. apply StronglySorted_inv in Hs as [_ Hall].
  apply elem_of_cons in Hy as [->|Hy]; [lia|].
  eapply Forall_forall in Hall; [|done]. lia.
Qed.

Lemma pushPendingSet_pending ixs m x :
  x ∈ pending (pushPendingSet ixs m) <-> x ∈ ixs \/ x ∈ pending m.
Proof.
  unfold pushPendingSet. revert m. induction ixs as [|i ixs IH]; intros m; simpl.
  - split; [by right|]. intros [Hx|?]; [|done]. by apply elem_of_nil in Hx.
  - rewrite IH. simpl. rewrite insertInList_elem, elem_of_cons. tauto.
Qed.

Lemma pushPendingSet_ascending ixs m :
  ascending (pending m) -> ascending (pending (pushPendingSet ixs m)).
Proof.
  unfold pushPendingSet. revert m. induction ixs as [|i ixs IH]; intros m Hm; simpl.
  - done.
  - apply IH. simpl. by apply insertInList_ascending.
Qed.

Lemma pushPendingSet_others ixs m :
  inProgress (pushPendingSet ixs m) = inProgress m /\
  complete (pushPendingSet ixs m) = complete m /\
  dependency (pushPendingSet ixs m) = dependency m.
Proof.
  unfold pushPendingSet. revert m. induction ixs as [|i ixs IH]; intros m; simpl.
  - done.
  - destruct (IH (pushPending i m)) as (-> & -> & ->). done.
Qed.

End Status.

(** ** Facts about the queues of the status manager *)

Lemma ascending_NoDup (l : list Z) : Status.ascending l -> NoDup l.
Proof.
  unfold Status.ascending. induction 1 as [|x l Hs IH Hall]; [constructor|].
  apply NoDup_cons. split; [|done].
  intros Hx. eapply Forall_forall in Hall; [|exact Hx]. lia.
Qed.

Lemma ascending_tail (x : Z) (l : list Z) : Status.ascending (x :: l) -> Status.ascending l.
Proof. intros Hs. by apply StronglySorted_inv in Hs as [? _]. Qed.

Lemma insertInList_Permutation (l : list Z) (v : Z) :
  v ∉ l -> Status.insertInList l v ≡ₚ v :: l.
Proof.
  induction l as [|x l IH]; intros Hv; simpl; [done|].
  apply not_elem_of_cons in Hv as [Hne Hv].
  repeat case_decide; [done|done|].
  rewrite IH by done. apply Permutation_swap.
Qed.

Lemma removeFromList_absent (l : list Z) (v : Z) :
  v ∉ l -> Status.removeFromList l v = l.
Proof.
  unfold Status.removeFromList. induction l as [|x l IH]; intros Hv; [done|].
  apply not_elem_of_cons in Hv as [Hne Hv].
  rewrite filter_cons, decide_True by done. by rewrite IH.
Qed.

Lemma removeFromList_Permutation (l : list Z) (v : Z) :
  NoDup l -> v ∈ l -> l ≡ₚ v :: Status.removeFromList l v.
Proof.
  induction 1 as [|x l Hx Hnd IH]; intros Hv.
  - by apply elem_of_nil in Hv.
  - unfold Status.removeFromList. rewrite filter_cons.
    apply elem_of_cons in Hv as [->|Hv].
    + rewrite decide_False by (intros Hne; by apply Hne).
      constructor. fold (Status.removeFromList l x).
      by rewrite removeFromList_absent.
    + rewrite decide_True by (intros ->; done).
      fold (Status.removeFromList l v).
      rewrite (IH Hv) at 1. apply Permutation_swap.
Qed.

(** A duplicate-free list of indices below [n] has at most [n] elements,
    and is the whole range when it is ascending and has [n] of them. *)
Lemma indices_length (l : list Z) (n : nat) :
  NoDup l -> Forall (fun x => 0 <= x < Z.of_nat n) l -> (length l <= n)%nat.
Proof.
  intros Hnd Hall.
  assert (Hsub : l ⊆+ (Z.of_nat <$> seq 0 n)).
  { apply NoDup_submseteq; [done|]. intros x Hx.
    eapply Forall_forall in Hall; [|exact Hx].
    apply list_elem_of_fmap. exists (Z.to_nat x). split; [lia|].
    apply elem_of_seq. lia. }
  apply submseteq_length in Hsub. by rewrite length_fmap, length_seq in Hsub.
Qed.

Lemma ascending_from (l : list Z) (k : Z) (n : nat) :
  Status.ascending l ->
  Forall (fun x => k <= x < k + Z.of_nat n) l ->
  length l = n ->
  l = (fun i => k + Z.of_nat i) <$> seq 0 n.
Proof.
  revert k n. induction l as [|x l IH]; intros k n Hs Hall Hlen.
  - by destruct n.
  - destruct n as [|n]; [done|]. simpl in Hlen. injection Hlen as Hlen.
    apply Forall_cons in Hall as [Hx Hall].
    pose proof (ascending_tail _ _ Hs) as Hs'.
    apply StronglySorted_inv in Hs as [_ Hlt].
    assert (Hx' : x = k).
    { destruct (decide (x = k)) as [|Hne]; [done|]. exfalso.
      assert (Hle : (length l <= n - 1)%nat); [|destruct n; simpl in *; lia].
      assert (Hsub : l ⊆+ ((fun i => x + 1 + Z.of_nat i) <$> seq 0 (n - 1))).
      { apply NoDup_submseteq; [by apply ascending_NoDup|]. intros y Hy.
        eapply Forall_forall in Hall as Hy1; [|exact Hy].
        eapply Forall_forall in Hlt as Hy2; [|exact Hy].
        apply list_elem_of_fmap. exists (Z.to_nat (y - x - 1)). split; [lia|].
        apply elem_of_seq. lia. }
      apply submseteq_length in Hsub. by rewrite length_fmap, length_seq in Hsub. }
    subst x. simpl. f_equal; [lia|].
    rewrite (IH (k + 1) n Hs'); [| |done].
    + rewrite <- fmap_S_seq, <- list_fmap_compose. apply list_fmap_ext.
      intros i y _. simpl. lia.
    + apply Forall_forall. intros y Hy.
      eapply Forall_forall in Hall as Hy1; [|exact Hy].
      eapply Forall_forall in Hlt as Hy2; [|exact Hy]. lia.
Qed.

Lemma runFrom_range (k : Z) (n : nat) :
  Status.runFrom k ((fun i => k + Z.of_nat i) <$> seq 0 n) = k + Z.of_nat n - 1.
Proof.
  revert k. induction n as [|n IH]; intros k; simpl; [lia|].
  rewrite decide_True by lia.
  rewrite <- fmap_S_seq, <- list_fmap_compose.
  erewrite list_fmap_ext; [rewrite (IH (k + 1)); lia|].
  intros i y _. simpl. lia.
Qed.

(** When every index of the batch is complete, [maxAllComplete] is the
    last index. *)
Lemma maxAllComplete_full (m : Status.StatusManager) (n : nat) :
  Status.ascending (Status.complete m) ->
  Forall (fun x => 0 <= x < Z.of_nat n) (Status.complete m) ->
  length (Status.complete m) = n ->
  Status.maxAllComplete m = Z.of_nat n - 1.
Proof.
  intros Hs Hall Hlen. unfold Status.maxAllComplete.
  rewrite (ascending_from _ 0 n Hs); [|by eapply Forall_impl; [exact Hall|]; simpl; intros; lia|done].
  rewrite runFrom_range. lia.
Qed.

(** *** [removeDependency] *)

Lemma release_others (m : Status.StatusManager) (j : Z) :
  Status.inProgress (Status.release m j) = Status.inProgress m /\
  Status.complete (Status.release m j) = Status.complete m /\
  Status.dependency (Status.release m j) = Status.dependency m.
Proof. unfold Status.release. by case_decide. Qed.

Lemma releases_spec (js : list Z) (m : Status.StatusManager) :
  let m' := foldl Status.release m js in
  Status.inProgress m' = Status.inProgress m /\
  Status.complete m' = Status.complete m /\
  Status.dependency m' = Status.dependency m /\
  (Status.ascending (Status.pending m) -> Status.ascending (Status.pending m')) /\
  (forall x, x ∈ Status.pending m' <->
             x ∈ Status.pending m \/ (x ∈ js /\ Status.blockers x m = [])).
Proof.
  revert m. induction js as [|j js IH]; intros m; simpl.
  - repeat split; try done.
    + by left.
    + intros [?|[Hx _]]; [done|]. by apply elem_of_nil in Hx.
  - destruct (IH (Status.release m j)) as (Hip & Hc & Hd & Hasc & Hp).
    destruct (release_others m j) as (Hip1 & Hc1 & Hd1).
    rewrite Hip, Hc, Hd, Hip1, Hc1, Hd1.
    split; [done|]. split; [done|]. split; [done|]. split.
    + intros Hm. apply Hasc. unfold Status.release. case_decide; [|done].
      simpl. by apply Status.insertInList_ascending.
    + intros x. rewrite Hp.
      assert (Hb : Status.blockers x (Status.release m j) = Status.blockers x m).
      { unfold Status.blockers. by rewrite Hd1. }
      rewrite Hb. unfold Status.release. rewrite elem_of_cons.
      case_decide as Hj; simpl.
      * rewrite Status.insertInList_elem. split.
        -- intros [[->|?]|[? ?]]; [right; split; [by left|done]|by left|].
           right. split; [by right|done].
        -- intros [?|[[->|?] ?]]; [left; by right|left; by left|].
           right. done.
      * split.
        -- intros [?|[? ?]]; [by left|]. right. split; [by right|done].
        -- intros [?|[[->|?] ?]]; [by left|done|]. right. done.
Qed.

Lemma removeDependency_spec (i : Z) (m : Status.StatusManager) :
  let m' := Status.removeDependency i m in
  Status.inProgress m' = Status.inProgress m /\
  Status.complete m' = Status.complete m /\
  Status.dependency m' = filter (fun e => fst e <> i) (Status.dependency m) /\
  (Status.ascending (Status.pending m) -> Status.ascending (Status.pending m')) /\
  (forall x, x ∈ Status.pending m' <->
             x ∈ Status.pending m \/
             ((i, x) ∈ Status.dependency m /\
              forall b, (b, x) ∈ Status.dependency m -> b = i)).
Proof.
  unfold Status.removeDependency.
  set (m0 := Status.mkSM (Status.pending m) (Status.inProgress m) (Status.complete m)
               (filter (fun e => fst e <> i) (Status.dependency m))).
  destruct (releases_spec (Status.dependents i m) m0) as (Hip & Hc & Hd & Hasc & Hp).
  simpl. rewrite Hip, Hc, Hd. simpl.
  split; [done|]. split; [done|]. split; [done|]. split; [exact Hasc|].
  intros x. rewrite Hp. simpl.
  assert (Hdep : x ∈ Status.dependents i m <-> (i, x) ∈ Status.dependency m).
  { unfold Status.dependents. rewrite list_elem_of_fmap. split.
    - intros ([b d] & -> & [Hb Hin]%list_elem_of_filter). simpl in *. by subst b.
    - intros Hin. exists (i, x). split; [done|]. by apply list_elem_of_filter. }
  assert (Hbl : Status.blockers x m0 = [] <->
                forall b, (b, x) ∈ Status.dependency m -> b = i).
  { unfold Status.blockers, m0. simpl. split.
    - intros Hnil b Hb. destruct (decide (b = i)) as [|Hne]; [done|]. exfalso.
      assert (Hin : b ∈ (fst <$> filter (fun e => snd e = x)
                           (filter (fun e => fst e <> i) (Status.dependency m)))).
      { apply list_elem_of_fmap. exists (b, x). split; [done|].
        apply list_elem_of_filter. split; [done|].
        apply list_elem_of_filter. split; [done|done]. }
      rewrite Hnil in Hin. by apply elem_of_nil in Hin.
    - intros Hall.
      destruct (fst <$> filter (fun e => snd e = x)
                  (filter (fun e => fst e <> i) (Status.dependency m)))
        as [|b l] eqn:Hl; [done|]. exfalso.
      assert (Hin : b ∈ b :: l) by by left.
      rewrite <- Hl in Hin. apply list_elem_of_fmap in Hin as ([b' d] & -> & Hin).
      apply list_elem_of_filter in Hin as [Hd' Hin].
      apply list_elem_of_filter in Hin as [Hb' Hin]. simpl in *. subst d.
      by apply Hb', Hall. }
  rewrite Hdep, Hbl. done.
Qed.

(** *** Taking several pending indices *)

(** [n] calls of [takeNextPending]. *)
Definition takeMany (n : nat) (m : Status.StatusManager) : Status.StatusManager :=
  Nat.iter n (fun m => snd (Status.takeNextPending m)) m.

Lemma takeMany_S (n : nat) (m : Status.StatusManager) :
  takeMany (S n) m = takeMany n (snd (Status.takeNextPending m)).
Proof. unfold takeMany. by rewrite Nat.iter_succ_r. Qed.

Lemma takeMany_pending (n : nat) (m : Status.StatusManager) :
  Status.pending (takeMany n m) = drop n (Status.pending m).
Proof.
  revert m. induction n as [|n IH]; intros m; [done|].
  rewrite takeMany_S, IH. unfold Status.takeNextPending.
  destruct (Status.pending m) as [|x rest] eqn:Hp; simpl.
  - rewrite Hp. by rewrite drop_nil.
  - done.
Qed.

(** ** The multi-version hash map *)

(** Modelled from the spec: a cell of the multi-version map (the map's
    source file is not among the sources): "A Cell is either
    Written(Incarnation, Val) or Estimate(LastIncarnation)". *)
Inductive Cell (Val : Type) :=
| Written (incarnation : Z) (val : Val)
| Estimate (lastIncarnation : Z).

Arguments Written {Val} _ _.
Arguments Estimate {Val} _.

(** Modelled from the spec: the result of [Read], "None", "Done(j, inc,
    val)" or "Dependency(j)". *)
Inductive MVReadResult (Val : Type) :=
| MVReadResultNone
| MVReadResultDone (depIdx incarnation : Z) (val : Val)
| MVReadResultDependency (depIdx : Z).

Arguments MVReadResultNone {Val}.
Arguments MVReadResultDone {Val} _ _ _.
Arguments MVReadResultDependency {Val} _.

(** Modelled from the spec: "MVHashMap: a map Key -> OrderedMap<TxnIndex ->
    Cell>". *)
Abbreviation MVHashMap Key Val := (gmap Key (gmap Z (Cell Val))).

Section MVHashMap.

Context {Key : Type} `{Countable Key} {Val : Type}.

Local Abbreviation WD := (WriteDescriptor Key Val).
Local Abbreviation RD := (ReadDescriptor Key).

Definition MakeMVHashMap : MVHashMap Key Val := ∅.

Definition cellsOf (m : MVHashMap Key Val) (k : Key) : gmap Z (Cell Val) :=
  default ∅ (m !! k).

(** Modelled from the spec: "Write(k, V={ti, inc}, val): inserts or
    replaces the cell at (k, ti) with Written(inc, val)". *)
Definition MVHashMap_Write (k : Key) (v : Version) (val : Val)
    (m : MVHashMap Key Val) : MVHashMap Key Val :=
  <[k := <[TxnIndex v := Written (Incarnation v) val]> (cellsOf m k)]> m.

(** The entry with the largest index strictly below [ti]. *)
Definition predecessor (ti : Z) (cells : gmap Z (Cell Val))
  : option (Z * Cell Val) :=
  map_fold
    (fun j c acc =>
       if decide (j < ti) then
         match acc with
         | Some (j', _) => if decide (j' < j) then Some (j, c) else acc
         | None => Some (j, c)
         end
       else acc)
    None cells.

(** Modelled from the spec: "Read(k, ti) -> Result: returns the entry
    under k with the largest stored TxnIndex j < ti". *)
Definition MVHashMap_Read (k : Key) (ti : Z) (m : MVHashMap Key Val)
  : MVReadResult Val :=
  match predecessor ti (cellsOf m k) with
  | None => MVReadResultNone
  | Some (j, Written inc val) => MVReadResultDone j inc val
  | Some (j, Estimate _) => MVReadResultDependency j
  end.

Definition toEstimate (c : Cell Val) : Cell Val :=
  match c with
  | Written inc _ => Estimate inc
  | Estimate inc => Estimate inc
  end.

(** Modelled from the spec: "MarkEstimate(k, ti): converts the cell at
    (k, ti), if any, into Estimate preserving its last incarnation". *)
Definition MVHashMap_MarkEstimate (k : Key) (ti : Z) (m : MVHashMap Key Val)
  : MVHashMap Key Val :=
  alter (alter toEstimate ti) k m.

(** Modelled from the spec: "Delete(k, ti): removes the cell at (k, ti)
    if present". *)
Definition MVHashMap_Delete (k : Key) (ti : Z) (m : MVHashMap Key Val)
  : MVHashMap Key Val :=
  alter (delete ti) k m.

(** Modelled from the spec: "FlushMVWriteSet(writes): for each write
    descriptor, apply Write". *)
Definition MVHashMap_FlushMVWriteSet (writes : list WD) (m : MVHashMap Key Val)
  : MVHashMap Key Val :=
  foldl (fun m w => MVHashMap_Write (Path w) (V w) (WVal w) m) m writes.

(** Modelled from the spec: one read of the recorded read set, section
    4.3: a Dependency is invalid; a Map read is valid iff the reread is
    Done with the recorded version; a Storage read is valid iff the
    reread is None and no Complete index below [ti] has the path in its
    write set. *)
Definition completeWriter (ti : Z) (io : TxnInputOutput Key Val)
    (execTasks : Status.StatusManager) (k : Key) : bool :=
  existsb
    (fun j => bool_decide (j < ti) &&
              bool_decide (k ∈ (Path <$> default [] (WriteSet io j))))
    (Status.complete execTasks).

Definition validRead (ti : Z) (io : TxnInputOutput Key Val)
    (m : MVHashMap Key Val) (execTasks : Status.StatusManager) (r : RD) : bool :=
  match MVHashMap_Read (RPath r) ti m with
  | MVReadResultDependency _ => false
  | MVReadResultDone j inc _ =>
      if decide (Kind r = ReadKindMap) then bool_decide (RV r = mkVersion j inc)
      else if decide (Kind r = ReadKindStorage) then false
      else true
  | MVReadResultNone =>
      if decide (Kind r = ReadKindMap) then false
      else if decide (Kind r = ReadKindStorage)
      then negb (completeWriter ti io execTasks (RPath r))
      else true
  end.

(** Modelled from the spec: [ValidateVersion], "Return false if any r
    fails; true otherwise". The read set is [inputs[ti]], a slice index
    that panics out of range ([None]). *)
Definition ValidateVersion (ti : Z) (io : TxnInputOutput Key Val)
    (m : MVHashMap Key Val) (execTasks : Status.StatusManager) : option bool :=
  R ← ReadSet io ti;
  Some (forallb (validRead ti io m execTasks) R).

End MVHashMap.

(** ** Errors, results and the task interface *)

(** Go's [error] values as the executor tells them apart: the type
    assertion [res.err.(ErrExecAbortError)] succeeds on the first
    constructor only. *)
Inductive error :=
| ErrExecAbortError (Dependency : Z)
| ErrOther (msg : string).

Definition isExecAbort (e : error) : option Z :=
  match e with
  | ErrExecAbortError d => Some d
  | ErrOther _ => None
  end.

Record ExecResult (Key Val : Type) := mkExecResult {
  err : option error;
  ver : Version;
  txIn : TxnInput Key;
  txOut : TxnOutput Key Val;
  txAllOut : TxnOutput Key Val
}.

Arguments mkExecResult {Key Val} _ _ _ _ _.
Arguments err {Key Val} _.
Arguments ver {Key Val} _.
Arguments txIn {Key Val} _.
Arguments txOut {Key Val} _.
Arguments txAllOut {Key Val} _.

(** The interface [ExecTask]. A task is a mutable object: [Execute] runs
    on the task's state [T] and leaves the read and write lists in it.
    [Execute] sees the multi-version map as it is when the call is made. *)
Class ExecTask (Key Val Address T : Type) `{Countable Key} := {
  Execute : T -> MVHashMap Key Val -> Z -> T * option error;
  MVReadList : T -> list (ReadDescriptor Key);
  MVWriteList : T -> list (WriteDescriptor Key Val);
  MVFullWriteList : T -> list (WriteDescriptor Key Val);
  Sender : T -> Address
}.

(** [ExecVersionView]: the field [et] is a reference to a task object, here
    its position in the store of task objects; the field [mvh] points to
    the one map of the run, which is a component of the state below. *)
Record ExecVersionView (Address : Type) := mkView {
  ev_ver : Version;
  ev_et : Z;
  ev_sender : Address
}.

Arguments mkView {Address} _ _ _.
Arguments ev_ver {Address} _.
Arguments ev_et {Address} _.
Arguments ev_sender {Address} _.

Definition numGoProcs : nat := 8.
Definition numSpeculativeProcs : nat := 16.

(** ** Calls that are traced *)

Inductive Mgr := ExecTasks | ValidateTasks.

Inductive Chan := ChTasks | ChSpeculativeTasks | ChResults | ChSpeculativeResults.

Inductive StatusCall :=
| PushPending (i : Z)
| PushPendingSet (ixs : list Z)
| TakeNextPending
| MarkComplete (i : Z)
| ClearInProgress (i : Z)
| ClearComplete (i : Z)
| ClearPending (i : Z)
| AddDependencies (blocker dependent : Z)
| RemoveDependency (i : Z).

Inductive Event (Key Val Address : Type) :=
| EvMakeChan (c : Chan) (capacity : nat)
| EvMakeMVHashMap
| EvGo (procNum : nat)
| EvStatus (m : Mgr) (c : StatusCall)
| EvDelete (k : Key) (ti : Z)
| EvMarkEstimate (k : Key) (ti : Z)
| EvFlushMVWriteSet (ws : list (WriteDescriptor Key Val))
| EvRecordRead (ti : Z) (input : TxnInput Key)
| EvRecordWrite (ti : Z) (output : TxnOutput Key Val)
| EvRecordAllWrite (ti : Z) (output : TxnOutput Key Val)
| EvExecute (et : Z) (incarnation : Z)
| EvSendTask (c : Chan) (job : ExecVersionView Address)
| EvRecvTask (c : Chan) (job : ExecVersionView Address)
| EvSendResult (c : Chan) (res : ExecResult Key Val)
| EvRecvResult (c : Chan) (res : ExecResult Key Val)
| EvLogSummary (execs success aborts validations failures : Z)
| EvClose (c : Chan).

Arguments EvMakeChan {Key Val Address} _ _.
Arguments EvMakeMVHashMap {Key Val Address}.
Arguments EvGo {Key Val Address} _.
Arguments EvStatus {Key Val Address} _ _.
Arguments EvDelete {Key Val Address} _ _.
Arguments EvMarkEstimate {Key Val Address} _ _.
Arguments EvFlushMVWriteSet {Key Val Address} _.
Arguments EvRecordRead {Key Val Address} _ _.
Arguments EvRecordWrite {Key Val Address} _ _.
Arguments EvRecordAllWrite {Key Val Address} _ _.
Arguments EvExecute {Key Val Address} _ _.
Arguments EvSendTask {Key Val Address} _ _.
Arguments EvRecvTask {Key Val Address} _ _.
Arguments EvSendResult {Key Val Address} _ _.
Arguments EvRecvResult {Key Val Address} _ _.
Arguments EvLogSummary {Key Val Address} _ _ _ _ _.
Arguments EvClose {Key Val Address} _.

(** The diagnostic counters and per-index tallies of [ExecuteParallel];
    they only feed the summary log line. *)
Record Diag := mkDiag {
  cntExec : Z;
  cntSuccess : Z;
  cntAbort : Z;
  cntTotalValidations : Z;
  cntValidationFail : Z;
  diagExecSuccess : list Z;
  diagExecAbort : list Z
}.

(** ** The executor *)

Section Executor.

Context {Key : Type} `{Countable Key} {Val : Type}.
Context {Address : Type} `{Countable Address}.
Context {T : Type} `{!ExecTask Key Val Address T}.

Local Abbreviation WD := (WriteDescriptor Key Val).
Local Abbreviation RD := (ReadDescriptor Key).
Local Abbreviation View := (ExecVersionView Address).
Local Abbreviation Result := (ExecResult Key Val).
Local Abbreviation Ev := (Event Key Val Address).

(** Everything [ExecuteParallel] and its workers read and write: the task
    objects, the shared map, the four channels (as queues), the
    coordinator's variables, the named result [err] ([returnErr]) and the
    trace of calls. Sends never block here: the channels are made with
    capacity [len(tasks)] and an index has at most one job or result in
    flight. *)
Record State := mkState {
  tasks : list T;
  mvh : MVHashMap Key Val;
  chTasks : list View;
  chSpeculativeTasks : list View;
  chResults : list Result;
  chSpeculativeResults : list Result;
  execTasks : Status.StatusManager;
  validateTasks : Status.StatusManager;
  lastTxIO : TxnInputOutput Key Val;
  txIncarnations : list Z;
  estimateDeps : gmap Z (list Z);
  diag : Diag;
  returnErr : option error;
  trace : list Ev
}.

Definition with_tasks (x : list T) (s : State) : State :=
  mkState x (mvh s) (chTasks s) (chSpeculativeTasks s) (chResults s)
    (chSpeculativeResults s) (execTasks s) (validateTasks s) (lastTxIO s)
    (txIncarnations s) (estimateDeps s) (diag s) (returnErr s) (trace s).

Definition with_mvh (x : MVHashMap Key Val) (s : State) : State :=
  mkState (tasks s) x (chTasks s) (chSpeculativeTasks s) (chResults s)
    (chSpeculativeResults s) (execTasks s) (validateTasks s) (lastTxIO s)
    (txIncarnations s) (estimateDeps s) (diag s) (returnErr s) (trace s).

Definition with_chTasks (x : list View) (s : State) : State :=
  mkState (tasks s) (mvh s) x (chSpeculativeTasks s) (chResults s)
    (chSpeculativeResults s) (execTasks s) (validateTasks s) (lastTxIO s)
    (txIncarnations s) (estimateDeps s) (diag s) (returnErr s) (trace s).

Definition with_chSpeculativeTasks (x : list View) (s : State) : State :=
  mkState (tasks s) (mvh s) (chTasks s) x (chResults s)
    (chSpeculativeResults s) (execTasks s) (validateTasks s) (lastTxIO s)
    (txIncarnations s) (estimateDeps s) (diag s) (returnErr s) (trace s).

Definition with_chResults (x : list Result) (s : State) : State :=
  mkState (tasks s) (mvh s) (chTasks s) (chSpeculativeTasks s) x
    (chSpeculativeResults s) (execTasks s) (validateTasks s) (lastTxIO s)
    (txIncarnations s) (estimateDeps s) (diag s) (returnErr s) (trace s).

Definition with_chSpeculativeResults (x : list Result) (s : State) : State :=
  mkState (tasks s) (mvh s) (chTasks s) (chSpeculativeTasks s) (chResults s)
    x (execTasks s) (validateTasks s) (lastTxIO s)
    (txIncarnations s) (estimateDeps s) (diag s) (returnErr s) (trace s).

Definition with_execTasks (x : Status.StatusManager) (s : State) : State :=
  mkState (tasks s) (mvh s) (chTasks s) (chSpeculativeTasks s) (chResults s)
    (chSpeculativeResults s) x (validateTasks s) (lastTxIO s)
    (txIncarnations s) (estimateDeps s) (diag s) (returnErr s) (trace s).

Definition with_validateTasks (x : Status.StatusManager) (s : State) : State :=
  mkState (tasks s) (mvh s) (chTasks s) (chSpeculativeTasks s) (chResults s)
    (chSpeculativeResults s) (execTasks s) x (lastTxIO s)
    (txIncarnations s) (estimateDeps s) (diag s) (returnErr s) (trace s).

Definition with_lastTxIO (x : TxnInputOutput Key Val) (s : State) : State :=
  mkState (tasks s) (mvh s) (chTasks s) (chSpeculativeTasks s) (chResults s)
    (chSpeculativeResults s) (execTasks s) (validateTasks s) x
    (txIncarnations s) (estimateDeps s) (diag s) (returnErr s) (trace s).

Definition with_txIncarnations (x : list Z) (s : State) : State :=
  mkState (tasks s) (mvh s) (chTasks s) (chSpeculativeTasks s) (chResults s)
    (chSpeculativeResults s) (execTasks s) (validateTasks s) (lastTxIO s)
    x (estimateDeps s) (diag s) (returnErr s) (trace s).

Definition with_estimateDeps (x : gmap Z (list Z)) (s : State) : State :=
  mkState (tasks s) (mvh s) (chTasks s) (chSpeculativeTasks s) (chResults s)
    (chSpeculativeResults s) (execTasks s) (validateTasks s) (lastTxIO s)
    (txIncarnations s) x (diag s) (returnErr s) (trace s).

Definition with_diag (x : Diag) (s : State) : State :=
  mkState (tasks s) (mvh s) (chTasks s) (chSpeculativeTasks s) (chResults s)
    (chSpeculativeResults s) (execTasks s) (validateTasks s) (lastTxIO s)
    (txIncarnations s) (estimateDeps s) x (returnErr s) (trace s).

Definition with_returnErr (x : option error) (s : State) : State :=
  mkState (tasks s) (mvh s) (chTasks s) (chSpeculativeTasks s) (chResults s)
    (chSpeculativeResults s) (execTasks s) (validateTasks s) (lastTxIO s)
    (txIncarnations s) (estimateDeps s) (diag s) x (trace s).

Definition with_trace (x : list Ev) (s : State) : State :=
  mkState (tasks s) (mvh s) (chTasks s) (chSpeculativeTasks s) (chResults s)
    (chSpeculativeResults s) (execTasks s) (validateTasks s) (lastTxIO s)
    (txIncarnations s) (estimateDeps s) (diag s) (returnErr s) x.

(** *** The state monad with panics *)

Inductive Res (A : Type) :=
| Ok (a : A) (s : State)
| Panic.

Arguments Ok {A} _ _.
Arguments Panic {A}.

Definition M (A : Type) : Type := State -> Res A.

Definition ret {A} (a : A) : M A := fun s => Ok a s.

Definition bind {A B} (m : M A) (k : A -> M B) : M B :=
  fun s => match m s with
           | Ok a s' => k a s'
           | Panic => Panic
           end.

Notation "'let*' x := m 'in' k" := (bind m (fun x => k))
  (at level 10, x name, m at level 100, k at level 200, only parsing).
Notation "'do' m 'then' k" := (bind m (fun _ => k))
  (at level 10, m at level 100, k at level 200, only parsing).

Definition gets {A} (f : State -> A) : M A := fun s => Ok (f s) s.

Definition modify (f : State -> State) : M unit := fun s => Ok tt (f s).

Definition panic {A} : M A := fun _ => Panic.

(** A partial operation of Go (a slice index): panics on [None]. *)
Definition lift {A} (o : option A) : M A :=
  fun s => match o with
           | Some a => Ok a s
           | None => Panic
           end.

Definition emit (e : Ev) : M unit :=
  modify (fun s => with_trace (trace s ++ [e]) s).

Fixpoint forM_ {A} (l : list A) (f : A -> M unit) : M unit :=
  match l with
  | [] => ret tt
  | x :: l' => do f x then forM_ l' f
  end.

Definition when (b : bool) (m : M unit) : M unit :=
  if b then m else ret tt.

(** *** Calls on the two status managers *)

Definition manager (mu : Mgr) (s : State) : Status.StatusManager :=
  match mu with
  | ExecTasks => execTasks s
  | ValidateTasks => validateTasks s
  end.

Definition with_manager (mu : Mgr) (m : Status.StatusManager) (s : State) : State :=
  match mu with
  | ExecTasks => with_execTasks m s
  | ValidateTasks => with_validateTasks m s
  end.

Definition statusCall (mu : Mgr) (c : StatusCall)
    (f : Status.StatusManager -> Status.StatusManager) : M unit :=
  do emit (EvStatus mu c) then
  modify (fun s => with_manager mu (f (manager mu s)) s).

Definition pushPending (mu : Mgr) (i : Z) : M unit :=
  statusCall mu (PushPending i) (Status.pushPending i).

Definition pushPendingSet (mu : Mgr) (ixs : list Z) : M unit :=
  statusCall mu (PushPendingSet ixs) (Status.pushPendingSet ixs).

Definition markComplete (mu : Mgr) (i : Z) : M unit :=
  statusCall mu (MarkComplete i) (Status.markComplete i).

Definition clearInProgress (mu : Mgr) (i : Z) : M unit :=
  statusCall mu (ClearInProgress i) (Status.clearInProgress i).

Definition clearComplete (mu : Mgr) (i : Z) : M unit :=
  statusCall mu (ClearComplete i) (Status.clearComplete i).

Definition clearPending (mu : Mgr) (i : Z) : M unit :=
  statusCall mu (ClearPending i) (Status.clearPending i).

Definition removeDependency (mu : Mgr) (i : Z) : M unit :=
  statusCall mu (RemoveDependency i) (Status.removeDependency i).

Definition takeNextPending (mu : Mgr) : M Z :=
  do emit (EvStatus mu TakeNextPending) then
  let* m := gets (manager mu) in
  do modify (with_manager mu (snd (Status.takeNextPending m))) then
  ret (fst (Status.takeNextPending m)).

Definition addDependencies (mu : Mgr) (blocker dependent : Z) : M bool :=
  do emit (EvStatus mu (AddDependencies blocker dependent)) then
  let* m := gets (manager mu) in
  do modify (with_manager mu (snd (Status.addDependencies blocker dependent m))) then
  ret (fst (Status.addDependencies blocker dependent m)).

(** *** Calls on the shared map and on the input/output table *)

Definition mvhDelete (k : Key) (ti : Z) : M unit :=
  do emit (EvDelete k ti) then
  modify (fun s => with_mvh (MVHashMap_Delete k ti (mvh s)) s).

Definition mvhMarkEstimate (k : Key) (ti : Z) : M unit :=
  do emit (EvMarkEstimate k ti) then
  modify (fun s => with_mvh (MVHashMap_MarkEstimate k ti (mvh s)) s).

Definition mvhFlushMVWriteSet (ws : list WD) : M unit :=
  do emit (EvFlushMVWriteSet ws) then
  modify (fun s => with_mvh (MVHashMap_FlushMVWriteSet ws (mvh s)) s).

Definition txioRecordRead (ti : Z) (input : TxnInput Key) : M unit :=
  let* io := gets lastTxIO in
  let* io' := lift (recordRead io ti input) in
  do emit (EvRecordRead ti input) then
  modify (with_lastTxIO io').

Definition txioRecordWrite (ti : Z) (output : TxnOutput Key Val) : M unit :=
  let* io := gets lastTxIO in
  let* io' := lift (recordWrite io ti output) in
  do emit (EvRecordWrite ti output) then
  modify (with_lastTxIO io').

Definition txioRecordAllWrite (ti : Z) (output : TxnOutput Key Val) : M unit :=
  let* io := gets lastTxIO in
  let* io' := lift (recordAllWrite io ti output) in
  do emit (EvRecordAllWrite ti output) then
  modify (with_lastTxIO io').

Definition txioAllWriteSet (ti : Z) : M (TxnOutput Key Val) :=
  let* io := gets lastTxIO in
  lift (AllWriteSet io ti).

(** *** Counters and slices of integers *)

(** [l[i]++] on a slice of [int]. *)
Definition incrAt (l : list Z) (i : Z) : option (list Z) :=
  x ← index l i; store l i (GoInt.add x 1).

Definition bumpIncarnation (ti : Z) : M unit :=
  let* l := gets txIncarnations in
  let* l' := lift (incrAt l ti) in
  modify (with_txIncarnations l').

Definition onDiag (f : Diag -> Diag) : M unit :=
  modify (fun s => with_diag (f (diag s)) s).

Definition incCntExec (d : Diag) : Diag :=
  mkDiag (GoInt.add (cntExec d) 1) (cntSuccess d) (cntAbort d)
    (cntTotalValidations d) (cntValidationFail d) (diagExecSuccess d) (diagExecAbort d).

Definition incCntSuccess (d : Diag) : Diag :=
  mkDiag (cntExec d) (GoInt.add (cntSuccess d) 1) (cntAbort d)
    (cntTotalValidations d) (cntValidationFail d) (diagExecSuccess d) (diagExecAbort d).

Definition incCntAbort (d : Diag) : Diag :=
  mkDiag (cntExec d) (cntSuccess d) (GoInt.add (cntAbort d) 1)
    (cntTotalValidations d) (cntValidationFail d) (diagExecSuccess d) (diagExecAbort d).

Definition incCntTotalValidations (d : Diag) : Diag :=
  mkDiag (cntExec d) (cntSuccess d) (cntAbort d)
    (GoInt.add (cntTotalValidations d) 1) (cntValidationFail d)
    (diagExecSuccess d) (diagExecAbort d).

Definition incCntValidationFail (d : Diag) : Diag :=
  mkDiag (cntExec d) (cntSuccess d) (cntAbort d)
    (cntTotalValidations d) (GoInt.add (cntValidationFail d) 1)
    (diagExecSuccess d) (diagExecAbort d).

Definition bumpDiagExecSuccess (ti : Z) : M unit :=
  let* d := gets diag in
  let* l := lift (incrAt (diagExecSuccess d) ti) in
  onDiag (fun d => mkDiag (cntExec d) (cntSuccess d) (cntAbort d)
                     (cntTotalValidations d) (cntValidationFail d) l (diagExecAbort d)).

Definition bumpDiagExecAbort (ti : Z) : M unit :=
  let* d := gets diag in
  let* l := lift (incrAt (diagExecAbort d) ti) in
  onDiag (fun d => mkDiag (cntExec d) (cntSuccess d) (cntAbort d)
                     (cntTotalValidations d) (cntValidationFail d) (diagExecSuccess d) l).

(** [estimateDeps[ti]]: a map read, the nil slice when absent. *)
Definition estimatesOf (s : State) (ti : Z) : list Z :=
  default [] (estimateDeps s !! ti).

Definition setEstimates (ti : Z) (l : list Z) : M unit :=
  modify (fun s => with_estimateDeps (<[ti := l]> (estimateDeps s)) s).

(** *** Channels *)

Definition taskChan (c : Chan) (s : State) : list View :=
  match c with
  | ChTasks => chTasks s
  | _ => chSpeculativeTasks s
  end.

Definition with_taskChan (c : Chan) (q : list View) (s : State) : State :=
  match c with
  | ChTasks => with_chTasks q s
  | _ => with_chSpeculativeTasks q s
  end.

Definition resultChan (c : Chan) (s : State) : list Result :=
  match c with
  | ChResults => chResults s
  | _ => chSpeculativeResults s
  end.

Definition with_resultChan (c : Chan) (q : list Result) (s : State) : State :=
  match c with
  | ChResults => with_chResults q s
  | _ => with_chSpeculativeResults q s
  end.

(** [c <- job] *)
Definition sendTask (c : Chan) (job : View) : M unit :=
  do emit (EvSendTask c job) then
  modify (fun s => with_taskChan c (taskChan c s ++ [job]) s).

(** [c <- res] *)
Definition sendResult (c : Chan) (res : Result) : M unit :=
  do emit (EvSendResult c res) then
  modify (fun s => with_resultChan c (resultChan c s ++ [res]) s).

(** *** The worker: [ExecVersionView.Execute] and the body of [doWork] *)

(** [func (ev *ExecVersionView) Execute() (er ExecResult)] *)
Definition ExecVersionView_Execute (ev : View) : M Result :=
  let* ts := gets tasks in
  let* t := lift (index ts (ev_et ev)) in
  let* m := gets mvh in
  do emit (EvExecute (ev_et ev) (Incarnation (ev_ver ev))) then
  let '(t', e) := Execute t m (Incarnation (ev_ver ev)) in
  let* ts' := lift (store ts (ev_et ev) t') in
  do modify (with_tasks ts') then
  match e with
  | Some _ => ret (mkExecResult e (ev_ver ev) [] [] [])
  | None =>
      ret (mkExecResult None (ev_ver ev)
             (MVReadList t') (MVWriteList t') (MVFullWriteList t'))
  end.

(** After [res := task.Execute()]: the flush, when there is no error. *)
Definition doWork_flush (res : Result) : M unit :=
  match err res with
  | None => mvhFlushMVWriteSet (txAllOut res)
  | Some _ => ret tt
  end.

(** The body of [for task := range taskCh] for one received [task]. *)
Definition doWork_body (resultCh : Chan) (task : View) : M unit :=
  let* res := ExecVersionView_Execute task in
  do doWork_flush res then
  sendResult resultCh res.

(** The channels of worker [procNum]. *)
Definition workerTaskChan (procNum : nat) : Chan :=
  if decide (procNum < numSpeculativeProcs)%nat then ChSpeculativeTasks else ChTasks.

Definition workerResultChan (procNum : nat) : Chan :=
  if decide (procNum < numSpeculativeProcs)%nat then ChSpeculativeResults else ChResults.

(** *** The coordinator: handling one result *)

(** The job built at the three dispatch sites:
    [ExecVersionView{ver: Version{tx, inc}, et: tasks[tx], mvh: mvh,
    sender: tasks[tx].Sender()}]. *)
Definition makeView (tx inc : Z) : M View :=
  let* ts := gets tasks in
  let* t := lift (index ts tx) in
  ret (mkView (mkVersion tx inc) tx (Sender t)).

(** The loop [for _, v := range prevWrite] that deletes what is no longer
    written. *)
Definition deleteStale (ti : Z) (cmpMap : gmap Key bool) (prevWrite : list WD)
  : M unit :=
  forM_ prevWrite
    (fun v => match cmpMap !! Path v with
              | Some _ => ret tt
              | None => mvhDelete (Path v) ti
              end).

(** The branch [res.err == nil]. *)
Definition handleSuccess (res : Result) : M unit :=
  let ti := TxnIndex (ver res) in
  do txioRecordRead ti (txIn res) then
  do (if decide (Incarnation (ver res) = 0) then
        do txioRecordWrite ti (txOut res) then
        txioRecordAllWrite ti (txAllOut res)
      else
        let* prev := txioAllWriteSet ti in
        do (if hasNewWrite (txAllOut res) prev then
              let* range :=
                gets (fun s => Status.getRevalidationRange (GoInt.add ti 1) (execTasks s)) in
              pushPendingSet ValidateTasks range
            else ret tt) then
        let* prevWrite := txioAllWriteSet ti in
        let cmpMap := pathMap ∅ (txAllOut res) in
        do deleteStale ti cmpMap prevWrite then
        do txioRecordWrite ti (txOut res) then
        txioRecordAllWrite ti (txAllOut res)) then
  do pushPending ValidateTasks ti then
  do markComplete ExecTasks ti then
  do bumpDiagExecSuccess ti then
  do onDiag incCntSuccess then
  removeDependency ExecTasks ti.

(** The loop [for l > 0 && estimateDeps[ti][l-1] > dep]; the argument [l]
    is the loop variable [l]. *)
Fixpoint dropEstimates (l : nat) (ti dep : Z) : M unit :=
  match l with
  | O => ret tt
  | S l' =>
      let* deps := gets (fun s => estimatesOf s ti) in
      let* e := lift (deps !! l') in
      if decide (e > dep) then
        do removeDependency ExecTasks e then
        do setEstimates ti (take l' deps) then
        dropEstimates l' ti dep
      else ret tt
  end.

(** The choice of [addedDependencies] in the abort branch. *)
Definition reshapeDependencies (ti dep : Z) : M bool :=
  if decide (dep >= 0) then
    let* deps := gets (fun s => estimatesOf s ti) in
    do dropEstimates (length deps) ti dep then
    addDependencies ExecTasks dep ti
  else
    let* bc := gets (fun s => Status.blockCount (execTasks s) ti) in
    if decide (bc >= 0) then
      let* deps := gets (fun s => estimatesOf s ti) in
      let estimate := default 0 (last deps) in
      let* added := addDependencies ExecTasks estimate ti in
      let newEstimate := GoInt.add estimate 1 in
      let newEstimate :=
        if decide (newEstimate >= ti) then GoInt.sub ti 1 else newEstimate in
      do setEstimates ti (deps ++ [newEstimate]) then
      ret added
    else ret false.

(** The end of the abort branch, from [execTasks.clearInProgress]. *)
Definition requeueAborted (ti : Z) (addedDependencies : bool) : M unit :=
  do clearInProgress ExecTasks ti then
  do (if negb addedDependencies then pushPending ExecTasks ti else ret tt) then
  do bumpIncarnation ti then
  do bumpDiagExecAbort ti then
  onDiag incCntAbort.

(** The branch [execErr, ok := res.err.(ErrExecAbortError); ok]. *)
Definition handleAbort (res : Result) (dep : Z) : M unit :=
  let ti := TxnIndex (ver res) in
  let* addedDependencies := reshapeDependencies ti dep in
  requeueAborted ti addedDependencies.

(** *** The coordinator: validations *)

(** The loop [for validateTasks.minPending() <= maxComplete &&
    validateTasks.minPending() >= 0]; it takes one pending index per turn,
    so the length of the pending queue bounds its turns ([n]). *)
Fixpoint drainValidations (n : nat) (maxComplete : Z) (toValidate : list Z)
  : M (list Z) :=
  match n with
  | O => ret toValidate
  | S n' =>
      let* mp := gets (fun s => Status.minPending (validateTasks s)) in
      if decide (mp <= maxComplete /\ mp >= 0) then
        let* tx := takeNextPending ValidateTasks in
        drainValidations n' maxComplete (toValidate ++ [tx])
      else ret toValidate
  end.

Definition validateVersion (tx : Z) : M bool :=
  let* s := gets (fun s => s) in
  lift (ValidateVersion tx (lastTxIO s) (mvh s) (execTasks s)).

(** The body of [for i := 0; i < len(toValidate); i++]. *)
Definition validateTx (tx : Z) : M unit :=
  do onDiag incCntTotalValidations then
  let* valid := validateVersion tx in
  if valid then markComplete ValidateTasks tx
  else
    do onDiag incCntValidationFail then
    do bumpDiagExecAbort tx then
    let* ws := txioAllWriteSet tx in
    do forM_ ws (fun v => mvhMarkEstimate (Path v) tx) then
    let* range :=
      gets (fun s => Status.getRevalidationRange (GoInt.add tx 1) (execTasks s)) in
    do pushPendingSet ValidateTasks range then
    do clearInProgress ValidateTasks tx then
    let* isPending := gets (fun s => Status.checkPending tx (execTasks s)) in
    if isPending then ret tt
    else
      let* bc := gets (fun s => Status.blockCount (execTasks s) tx) in
      if decide (bc = -1) then
        do pushPending ExecTasks tx then
        do clearComplete ExecTasks tx then
        bumpIncarnation tx
      else ret tt.

Definition doValidations : M unit :=
  let* maxComplete := gets (fun s => Status.maxAllComplete (execTasks s)) in
  let* n := gets (fun s => length (Status.pending (validateTasks s))) in
  let* toValidate := drainValidations n maxComplete [] in
  forM_ toValidate validateTx.

(** *** The coordinator: dispatch *)

(** [nextTx := execTasks.takeNextPending(); if nextTx != -1 { ... }] *)
Definition dispatchNext (c : Chan) : M unit :=
  let* nextTx := takeNextPending ExecTasks in
  if decide (nextTx <> -1) then
    do onDiag incCntExec then
    let* incs := gets txIncarnations in
    let* inc := lift (index incs nextTx) in
    let* job := makeView nextTx inc in
    sendTask c job
  else ret tt.

(** The loop [for execTasks.minPending() != -1]; one pending index is
    taken per turn ([n] bounds the turns). *)
Fixpoint drainPending (n : nat) : M unit :=
  match n with
  | O => ret tt
  | S n' =>
      let* mp := gets (fun s => Status.minPending (execTasks s)) in
      if decide (mp <> -1) then
        do dispatchNext ChSpeculativeTasks then
        drainPending n'
      else ret tt
  end.

Definition dispatch : M unit :=
  let* maxValidated := gets (fun s => Status.maxAllComplete (validateTasks s)) in
  let* mp := gets (fun s => Status.minPending (execTasks s)) in
  do (if decide (mp <> -1 /\ mp <= GoInt.add maxValidated 20)
      then dispatchNext ChTasks else ret tt) then
  let* n := gets (fun s => length (Status.pending (execTasks s))) in
  drainPending n.

(** *** One turn of the coordinator loop, after a result was received *)

Inductive LoopCtl := Continue | Break.

Definition logSummary : M unit :=
  let* d := gets diag in
  emit (EvLogSummary (cntExec d) (cntSuccess d) (cntAbort d)
          (cntTotalValidations d) (cntValidationFail d)).

Definition checkDone : M LoopCtl :=
  let* s := gets (fun s => s) in
  if decide (Status.countComplete (validateTasks s) = Z.of_nat (length (tasks s)) /\
             Status.countComplete (execTasks s) = Z.of_nat (length (tasks s)))
  then do logSummary then ret Break
  else ret Continue.

Definition afterResult : M LoopCtl :=
  do doValidations then
  do dispatch then
  checkDone.

Definition iteration (res : Result) : M LoopCtl :=
  match err res with
  | None => do handleSuccess res then afterResult
  | Some e =>
      match isExecAbort e with
      | Some dep => do handleAbort res dep then afterResult
      | None => do modify (with_returnErr (Some e)) then ret Break
      end
  end.

(** *** Set-up of [ExecuteParallel] *)

(** The zero values of the variables before [ExecuteParallel] assigns
    them. *)
Definition initState (ts : list T) : State :=
  mkState ts ∅ [] [] [] [] (Status.makeStatusManager 0) (Status.makeStatusManager 0)
    (MakeTxnInputOutput 0) [] ∅ (mkDiag 0 0 0 0 0 [] []) None [].

(** The loop [for i, t := range tasks] over the senders; [i] is the index
    of the head of [ts]. *)
Fixpoint senderLoop (i : Z) (ts : list T) (prevSenderTx : gmap Address Z) : M unit :=
  match ts with
  | [] => ret tt
  | t :: rest =>
      do (match prevSenderTx !! Sender t with
          | Some tx =>
              let* _ := addDependencies ExecTasks tx i in
              clearPending ExecTasks i
          | None => ret tt
          end) then
      senderLoop (i + 1) rest (<[Sender t := i]> prevSenderTx)
  end.

(** The loop [for x := 0; x < numSpeculativeProcs; x++]; [n] counts the
    turns that remain. *)
Fixpoint bootstrap (n : nat) : M unit :=
  match n with
  | O => ret tt
  | S n' =>
      let* tx := takeNextPending ExecTasks in
      do (if decide (tx <> -1) then
            do onDiag incCntExec then
            let* job := makeView tx 0 in
            sendTask ChSpeculativeTasks job
          else ret tt) then
      bootstrap n'
  end.

Definition makeEstimateDeps (n : nat) : gmap Z (list Z) :=
  foldl (fun m i => <[Z.of_nat i := []]> m) ∅ (seq 0 n).

(** [ExecuteParallel] from its first channel to the line before [for]. *)
Definition setup : M unit :=
  let* n := gets (fun s => length (tasks s)) in
  do emit (EvMakeChan ChTasks n) then
  do emit (EvMakeChan ChSpeculativeTasks n) then
  do emit (EvMakeChan ChResults n) then
  do emit (EvMakeChan ChSpeculativeResults n) then
  do emit EvMakeMVHashMap then
  do modify (with_mvh MakeMVHashMap) then
  do forM_ (seq 0 (numSpeculativeProcs + numGoProcs)) (fun i => emit (EvGo i)) then
  do modify (with_execTasks (Status.makeStatusManager n)) then
  do modify (with_validateTasks (Status.makeStatusManager 0)) then
  let* ts := gets tasks in
  do senderLoop 0 ts ∅ then
  do bootstrap numSpeculativeProcs then
  do modify (with_lastTxIO (MakeTxnInputOutput n)) then
  do modify (with_txIncarnations (replicate n 0)) then
  do onDiag (fun d => mkDiag (cntExec d) (cntSuccess d) (cntAbort d)
                        (cntTotalValidations d) (cntValidationFail d)
                        (replicate n 0) (replicate n 0)) then
  modify (with_estimateDeps (makeEstimateDeps n)).

(** The four [close] calls after the loop. *)
Definition closeAll : M unit :=
  do emit (EvClose ChTasks) then
  do emit (EvClose ChSpeculativeTasks) then
  do emit (EvClose ChResults) then
  emit (EvClose ChSpeculativeResults).

(** The head of the loop: a result from [chResults] if it has one, else
    from [chSpeculativeResults], else [continue]. *)
Definition coordinatorTurn : M LoopCtl :=
  let* s := gets (fun s => s) in
  match chResults s with
  | res :: rest =>
      do modify (with_chResults rest) then
      do emit (EvRecvResult ChResults res) then
      iteration res
  | [] =>
      match chSpeculativeResults s with
      | res :: rest =>
          do modify (with_chSpeculativeResults rest) then
          do emit (EvRecvResult ChSpeculativeResults res) then
          iteration res
      | [] => ret Continue
      end
  end.

(** *** The engine as a transition system

    A worker is between two jobs ([Idle]), has executed a job and not yet
    reached the flush ([Executed]), or is about to send ([Sending]). The
    coordinator's turn is one pass through the loop body. A schedule is
    a list of turns; a turn that cannot move (a worker waiting on an empty
    channel) leaves the system as it is. *)

Inductive Worker :=
| Idle
| Executed (res : Result)
| Sending (res : Result).

Definition workerTurn (procNum : nat) (w : Worker) : M Worker :=
  match w with
  | Idle =>
      let* q := gets (taskChan (workerTaskChan procNum)) in
      match q with
      | [] => ret Idle
      | task :: rest =>
          do modify (with_taskChan (workerTaskChan procNum) rest) then
          do emit (EvRecvTask (workerTaskChan procNum) task) then
          let* res := ExecVersionView_Execute task in
          ret (Executed res)
      end
  | Executed res =>
      do doWork_flush res then
      ret (Sending res)
  | Sending res =>
      do sendResult (workerResultChan procNum) res then
      ret Idle
  end.

Inductive System :=
| Running (s : State) (ws : list Worker)
| Returned (s : State)
| Crashed.

Inductive Turn :=
| Coordinator
| WorkerTurn (procNum : nat).

(** [ExecuteParallel] up to the loop: the early return on an empty batch,
    else the set-up and the workers. *)
Definition start (ts : list T) : System :=
  if decide (length ts = 0%nat)
  then Returned (with_lastTxIO (MakeTxnInputOutput (length ts)) (initState ts))
  else
    match setup (initState ts) with
    | Ok _ s => Running s (replicate (numSpeculativeProcs + numGoProcs) Idle)
    | Panic => Crashed
    end.

Definition step (sys : System) (t : Turn) : System :=
  match sys with
  | Running s ws =>
      match t with
      | Coordinator =>
          match coordinatorTurn s with
          | Ok Continue s' => Running s' ws
          | Ok Break s' =>
              match closeAll s' with
              | Ok _ s'' => Returned s''
              | Panic => Crashed
              end
          | Panic => Crashed
          end
      | WorkerTurn p =>
          match ws !! p with
          | Some w =>
              match workerTurn p w s with
              | Ok w' s' => Running s' (<[p := w']> ws)
              | Panic => Crashed
              end
          | None => sys
          end
      end
  | _ => sys
  end.

Definition run (sys : System) (sched : list Turn) : System :=
  foldl step sys sched.

(** [ExecuteParallel(tasks)] under a schedule of turns. *)
Definition ExecuteParallel (ts : list T) (sched : list Turn) : System :=
  run (start ts) sched.

(** The two results [(lastTxIO, err)] once [ExecuteParallel] has
    returned. *)
Definition returned (sys : System)
  : option (TxnInputOutput Key Val * option error) :=
  match sys with
  | Returned s => Some (lastTxIO s, returnErr s)
  | _ => None
  end.

(** *** Reasoning about monadic code *)

Lemma bind_Ok {A B} (m : M A) (k : A -> M B) s a s1 :
  m s = Ok a s1 -> bind m k s = k a s1.
Proof. unfold bind. by intros ->. Qed.

Lemma bind_Panic {A B} (m : M A) (k : A -> M B) s :
  m s = Panic -> bind m k s = Panic.
Proof. unfold bind. by intros ->. Qed.

Lemma bind_inv {A B} (m : M A) (k : A -> M B) s b s2 :
  bind m k s = Ok b s2 -> exists a s1, m s = Ok a s1 /\ k a s1 = Ok b s2.
Proof. unfold bind. destruct (m s) as [a s1|]; [|done]. intros Hk. by exists a, s1. Qed.

Lemma lift_Some {A} (o : option A) a s : o = Some a -> lift o s = Ok a s.
Proof. by intros ->. Qed.

(** Unfolds the plumbing of the monad and the accessors of the state, and
    nothing of the status manager or of the maps. *)
Ltac mstep :=
  cbv beta iota zeta delta
    [bind ret gets modify emit when statusCall pushPending pushPendingSet
     markComplete clearInProgress clearComplete clearPending removeDependency
     takeNextPending addDependencies
     mvhFlushMVWriteSet onDiag setEstimates sendTask sendResult
     manager with_manager taskChan with_taskChan resultChan with_resultChan
     with_tasks with_mvh with_chTasks with_chSpeculativeTasks with_chResults
     with_chSpeculativeResults with_execTasks with_validateTasks with_lastTxIO
     with_txIncarnations with_estimateDeps with_diag with_returnErr with_trace
     tasks mvh chTasks chSpeculativeTasks chResults chSpeculativeResults
     execTasks validateTasks lastTxIO txIncarnations estimateDeps diag
     returnErr trace estimatesOf].

Tactic Notation "mstep" "in" hyp(H) :=
  cbv beta iota zeta delta
    [bind ret gets modify emit when statusCall pushPending pushPendingSet
     markComplete clearInProgress clearComplete clearPending removeDependency
     takeNextPending addDependencies
     mvhFlushMVWriteSet onDiag setEstimates sendTask sendResult
     manager with_manager taskChan with_taskChan resultChan with_resultChan
     with_tasks with_mvh with_chTasks with_chSpeculativeTasks with_chResults
     with_chSpeculativeResults with_execTasks with_validateTasks with_lastTxIO
     with_txIncarnations with_estimateDeps with_diag with_returnErr with_trace
     tasks mvh chTasks chSpeculativeTasks chResults chSpeculativeResults
     execTasks validateTasks lastTxIO txIncarnations estimateDeps diag
     returnErr trace estimatesOf] in H.

(** *** The worker *)

(** C8. For every job a worker processes: [Execute] is called with the
    incarnation of the job; when it returns no error the full write list
    of the task is flushed into the shared map before the result is sent;
    when it returns an error nothing is flushed; in both cases the result
    is sent on the worker's result channel. *)
Theorem doWork_body_flushes_then_sends (resultCh : Chan) (task : View) (s : State) (t : T) :
  index (tasks s) (ev_et task) = Some t ->
  let inc := Incarnation (ev_ver task) in
  let t' := fst (Execute t (mvh s) inc) in
  let e := snd (Execute t (mvh s) inc) in
  exists res s',
    doWork_body resultCh task s = Ok tt s' /\
    ver res = ev_ver task /\
    err res = e /\
    resultChan resultCh s' = resultChan resultCh s ++ [res] /\
    (e = None ->
       txAllOut res = MVFullWriteList t' /\
       mvh s' = MVHashMap_FlushMVWriteSet (MVFullWriteList t') (mvh s) /\
       trace s' = trace s ++
         [EvExecute (ev_et task) inc;
          EvFlushMVWriteSet (MVFullWriteList t');
          EvSendResult resultCh res]) /\
    (e <> None ->
       mvh s' = mvh s /\
       trace s' = trace s ++
         [EvExecute (ev_et task) inc; EvSendResult resultCh res]).
Proof.
  intros Ht inc t' e.
  assert (Hst : store (tasks s) (ev_et task) t'
                = Some (<[Z.to_nat (ev_et task) := t']> (tasks s))).
  { apply store_Some. by eapply index_range. }
  unfold doWork_body, ExecVersionView_Execute.
  subst inc t' e. destruct s as [ts m c1 c2 c3 c4 et vt io incs est d re tr].
  cbn [tasks mvh trace] in *.
  destruct (Execute t m (Incarnation (ev_ver task))) as [t' e] eqn:Hex.
  simpl in Hst. simpl fst. simpl snd.
  destruct e as [e|].
  - eexists (mkExecResult (Some e) (ev_ver task) [] [] []), _.
    split.
    { mstep. rewrite Ht. simpl. rewrite Hex. mstep. rewrite Hst. simpl.
      unfold doWork_flush. simpl. mstep. reflexivity. }
    destruct resultCh; simpl; rewrite <- ?app_assoc; simpl; intuition congruence.
  - eexists (mkExecResult None (ev_ver task)
               (MVReadList t') (MVWriteList t') (MVFullWriteList t')), _.
    split.
    { mstep. rewrite Ht. simpl. rewrite Hex. mstep. rewrite Hst. simpl.
      unfold doWork_flush. simpl. mstep. reflexivity. }
    destruct resultCh; simpl; rewrite <- ?app_assoc; simpl; intuition congruence.
Qed.

(** *** The empty batch *)

Lemma run_Returned (s : State) (sched : list Turn) : run (Returned s) sched = Returned s.
Proof. induction sched as [|t sched IH]; [done|]. exact IH. Qed.

Lemma run_Crashed (sched : list Turn) : run Crashed sched = Crashed.
Proof. induction sched as [|t sched IH]; [done|]. exact IH. Qed.

(** C10. On the empty batch [ExecuteParallel] returns at once, whatever
    the schedule: a table whose three arrays have length 0, a nil error,
    and not a single traced call (no channel made, no worker started, no
    map made or touched). *)
Theorem ExecuteParallel_empty_batch (sched : list Turn) :
  exists s io,
    ExecuteParallel [] sched = Returned s /\
    returned (ExecuteParallel [] sched) = Some (io, None) /\
    length (inputs io) = 0%nat /\
    length (outputs io) = 0%nat /\
    length (allOutputs io) = 0%nat /\
    trace s = [] /\
    mvh s = ∅ /\
    chTasks s = [] /\ chSpeculativeTasks s = [] /\
    chResults s = [] /\ chSpeculativeResults s = [].
Proof.
  unfold ExecuteParallel, start. simpl. rewrite run_Returned.
  eexists _, _. split; [reflexivity|]. simpl. repeat split; reflexivity.
Qed.

(** *** Sizes of the per-index slices *)

(** The slices indexed by a transaction index all have the length of the
    batch, as [ExecuteParallel] allocates them. *)
Record sized (s : State) : Prop := mkSized {
  sized_len : Z.of_nat (length (tasks s)) <= GoInt.max_int;
  sized_inputs : length (inputs (lastTxIO s)) = length (tasks s);
  sized_outputs : length (outputs (lastTxIO s)) = length (tasks s);
  sized_allOutputs : length (allOutputs (lastTxIO s)) = length (tasks s);
  sized_txIncarnations : length (txIncarnations s) = length (tasks s);
  sized_diagExecSuccess : length (diagExecSuccess (diag s)) = length (tasks s);
  sized_diagExecAbort : length (diagExecAbort (diag s)) = length (tasks s)
}.

Definition validIndex (s : State) (ti : Z) : Prop :=
  0 <= ti < Z.of_nat (length (tasks s)).

Lemma incrAt_Some (l : list Z) (i : Z) :
  0 <= i < Z.of_nat (length l) ->
  exists x, index l i = Some x /\
            incrAt l i = Some (<[Z.to_nat i := GoInt.add x 1]> l).
Proof.
  intros Hi. destruct (index_Some l i Hi) as [x Hx]. exists x. split; [done|].
  unfold incrAt. rewrite Hx. simpl. by apply store_Some.
Qed.

(** *** The loops over write sets *)

Definition staleWrites (cmpMap : gmap Key bool) (prevWrite : list WD) : list WD :=
  filter (fun v => cmpMap !! Path v = None) prevWrite.

Lemma deleteStale_spec (ti : Z) (cmpMap : gmap Key bool) (prevWrite : list WD) (s : State) :
  deleteStale ti cmpMap prevWrite s =
  Ok tt (with_trace (trace s ++ ((fun v => EvDelete (Path v) ti) <$> staleWrites cmpMap prevWrite))
           (with_mvh (foldl (fun m v => MVHashMap_Delete (Path v) ti m) (mvh s)
                        (staleWrites cmpMap prevWrite)) s)).
Proof.
  unfold deleteStale, staleWrites. revert s.
  induction prevWrite as [|v prev IH]; intros s.
  - simpl. destruct s. mstep. by rewrite app_nil_r.
  - simpl forM_. rewrite filter_cons.
    destruct (cmpMap !! Path v) as [b|] eqn:Hv.
    + rewrite decide_False by done. unfold bind at 1. mstep. apply IH.
    + rewrite decide_True by done.
      erewrite bind_Ok; [|reflexivity]. rewrite IH.
      destruct s. unfold mvhDelete. mstep. simpl. by rewrite <- app_assoc.
Qed.

Lemma markEstimates_spec (tx : Z) (ws : list WD) (s : State) :
  forM_ ws (fun v => mvhMarkEstimate (Path v) tx) s =
  Ok tt (with_trace (trace s ++ ((fun v => EvMarkEstimate (Path v) tx) <$> ws))
           (with_mvh (foldl (fun m v => MVHashMap_MarkEstimate (Path v) tx m) (mvh s) ws) s)).
Proof.
  revert s. induction ws as [|v ws IH]; intros s.
  - simpl. destruct s. mstep. by rewrite app_nil_r.
  - simpl forM_. erewrite bind_Ok; [|reflexivity]. rewrite IH.
    destruct s. unfold mvhMarkEstimate. mstep. simpl. by rewrite <- app_assoc.
Qed.

Lemma pathMap_None (start : gmap Key bool) (ws : list WD) (k : Key) :
  pathMap start ws !! k = None <-> start !! k = None /\ k ∉ (Path <$> ws).
Proof.
  revert start. induction ws as [|w ws IH]; intros start; simpl.
  - split; [|by intros [? _]]. intros Hk. split; [done|]. apply not_elem_of_nil.
  - rewrite IH, lookup_insert_None, not_elem_of_cons. intuition congruence.
Qed.

Lemma staleWrites_absent (new prev : list WD) :
  staleWrites (pathMap ∅ new) prev = filter (fun v => Path v ∉ (Path <$> new)) prev.
Proof.
  unfold staleWrites. apply list_filter_iff. intros v.
  rewrite pathMap_None, lookup_empty. tauto.
Qed.

Lemma recordRead_Some (io : TxnInputOutput Key Val) ti x :
  0 <= ti < Z.of_nat (length (inputs io)) ->
  recordRead io ti x =
  Some (mkTxIO (<[Z.to_nat ti := x]> (inputs io)) (outputs io) (allOutputs io)).
Proof. intros Hi. unfold recordRead. by rewrite store_Some. Qed.

Lemma recordWrite_Some (io : TxnInputOutput Key Val) ti x :
  0 <= ti < Z.of_nat (length (outputs io)) ->
  recordWrite io ti x =
  Some (mkTxIO (inputs io) (<[Z.to_nat ti := x]> (outputs io)) (allOutputs io)).
Proof. intros Hi. unfold recordWrite. by rewrite store_Some. Qed.

Lemma recordAllWrite_Some (io : TxnInputOutput Key Val) ti x :
  0 <= ti < Z.of_nat (length (allOutputs io)) ->
  recordAllWrite io ti x =
  Some (mkTxIO (inputs io) (outputs io) (<[Z.to_nat ti := x]> (allOutputs io))).
Proof. intros Hi. unfold recordAllWrite. by rewrite store_Some. Qed.

Lemma index_insert_eq {A} (l : list A) (i : Z) (x : A) :
  0 <= i < Z.of_nat (length l) -> index (<[Z.to_nat i := x]> l) i = Some x.
Proof.
  intros Hi. unfold index. rewrite decide_True by lia.
  apply list_lookup_insert_eq. lia.
Qed.

(** *** A successful result *)

(** The calls between [recordRead] and the final [recordWrite] of a
    re-execution: the revalidation range when there is a new write, then
    one [Delete] per write of the previous incarnation whose path the new
    one does not write. *)
Definition reincarnationCalls (ti : Z) (new prev : list WD) (range : list Z) : list Ev :=
  (if hasNewWrite new prev then [EvStatus ValidateTasks (PushPendingSet range)] else []) ++
  ((fun v => EvDelete (Path v) ti) <$> filter (fun v => Path v ∉ (Path <$> new)) prev).

(** C3. A successful result for [(ti, inc)]: for [inc <> 0] the revalidation
    range from [ti+1] is pushed pending on the validation manager when
    the new full write set has a new write (which is the case as soon as
    one of its paths is absent from the recorded [allOutputs[ti]]); then
    [Delete(path, ti)] is called for every recorded write whose path the
    new full write set lacks; then [outputs[ti]] and [allOutputs[ti]] are
    overwritten. For any [inc], [ti] is then pushed pending for
    validation, marked complete for execution and [removeDependency(ti)]
    is applied, in this order. *)
Theorem handleSuccess_calls (res : Result) (s : State) :
  let ti := TxnIndex (ver res) in
  let inc := Incarnation (ver res) in
  let new := txAllOut res in
  sized s ->
  validIndex s ti ->
  exists prev s',
    AllWriteSet (lastTxIO s) ti = Some prev /\
    handleSuccess res s = Ok tt s' /\
    let range := Status.getRevalidationRange (GoInt.add ti 1) (execTasks s) in
    let stale := filter (fun v => Path v ∉ (Path <$> new)) prev in
    let pushed := bool_decide (inc <> 0) && hasNewWrite new prev in
    ((exists k, k ∈ (Path <$> new) /\ k ∉ (Path <$> prev)) -> hasNewWrite new prev = true) /\
    trace s' = trace s ++
      [EvRecordRead ti (txIn res)] ++
      (if decide (inc = 0) then [] else reincarnationCalls ti new prev range) ++
      [EvRecordWrite ti (txOut res);
       EvRecordAllWrite ti new;
       EvStatus ValidateTasks (PushPending ti);
       EvStatus ExecTasks (MarkComplete ti);
       EvStatus ExecTasks (RemoveDependency ti)] /\
    validateTasks s' =
      Status.pushPending ti
        (if pushed then Status.pushPendingSet range (validateTasks s)
         else validateTasks s) /\
    mvh s' =
      (if decide (inc = 0) then mvh s
       else foldl (fun m v => MVHashMap_Delete (Path v) ti m) (mvh s) stale) /\
    ReadSet (lastTxIO s') ti = Some (txIn res) /\
    WriteSet (lastTxIO s') ti = Some (txOut res) /\
    AllWriteSet (lastTxIO s') ti = Some new /\
    execTasks s' = Status.removeDependency ti (Status.markComplete ti (execTasks s)).
Proof.
  intros ti inc new [Hlen Hin Hout Hall Hinc Hds Hda] Hti. unfold validIndex in Hti.
  destruct (index_Some (allOutputs (lastTxIO s)) ti) as [prev Hprev]; [lia|].
  destruct (incrAt_Some (diagExecSuccess (diag s)) ti) as (x & Hx & Hincr); [lia|].
  exists prev. unfold handleSuccess. fold ti. fold inc. fold new.
  destruct s as [ts m c1 c2 c3 c4 et vt [ins outs alls] incs est d re tr].
  cbn [tasks mvh trace lastTxIO inputs outputs allOutputs diag txIncarnations
       execTasks validateTasks] in *.
  unfold txioRecordRead, txioRecordWrite, txioRecordAllWrite, txioAllWriteSet,
    bumpDiagExecSuccess, AllWriteSet.
  destruct (decide (inc = 0)) as [Hz|Hnz].
  - eexists. split; [exact Hprev|]. split.
    { mstep. rewrite recordRead_Some by (simpl; lia). simpl. mstep.
      rewrite recordWrite_Some by (simpl; lia). simpl. mstep.
      rewrite recordAllWrite_Some by (simpl; lia). simpl. mstep.
      rewrite Hincr. simpl. reflexivity. }
    cbn zeta. rewrite bool_decide_false by (intros ?; done). simpl.
    split; [intros (k & ? & ?); by eapply hasNewWrite_absent|].
    rewrite <- !app_assoc. simpl.
    unfold ReadSet, WriteSet, AllWriteSet. simpl.
    rewrite !index_insert_eq by lia. done.
  - assert (Habs : (exists k, k ∈ (Path <$> new) /\ k ∉ (Path <$> prev)) ->
                   hasNewWrite new prev = true).
    { intros (k & ? & ?). by eapply hasNewWrite_absent. }
    unfold reincarnationCalls. rewrite <- staleWrites_absent.
    destruct (hasNewWrite new prev) eqn:Hnew.
    + eexists. split; [exact Hprev|]. split.
      { mstep. rewrite recordRead_Some by (simpl; lia). simpl. mstep.
        cbn [allOutputs]. rewrite Hprev. simpl. fold new. rewrite Hnew.
        mstep. cbn [allOutputs]. rewrite Hprev. simpl.
        rewrite deleteStale_spec. mstep.
        rewrite recordWrite_Some by (simpl; lia). simpl. mstep.
        rewrite recordAllWrite_Some by (simpl; lia). simpl. mstep.
        rewrite Hincr. simpl. reflexivity. }
      cbn zeta. rewrite bool_decide_true by done.
      unfold ReadSet, WriteSet, AllWriteSet. simpl.
      rewrite <- ?app_assoc. simpl. rewrite ?index_insert_eq by lia.
      rewrite ?staleWrites_absent. done.
    + eexists. split; [exact Hprev|]. split.
      { mstep. rewrite recordRead_Some by (simpl; lia). simpl. mstep.
        cbn [allOutputs]. rewrite Hprev. simpl. fold new. rewrite Hnew.
        mstep. cbn [allOutputs]. rewrite Hprev. simpl.
        rewrite deleteStale_spec. mstep.
        rewrite recordWrite_Some by (simpl; lia). simpl. mstep.
        rewrite recordAllWrite_Some by (simpl; lia). simpl. mstep.
        rewrite Hincr. simpl. reflexivity. }
      cbn zeta. rewrite bool_decide_true by done.
      unfold ReadSet, WriteSet, AllWriteSet. simpl.
      rewrite <- ?app_assoc. simpl. rewrite ?index_insert_eq by lia.
      rewrite ?staleWrites_absent. done.
Qed.

(** *** An aborted execution *)

(** The elements the loop over [estimateDeps[ti]] pops, in the order in
    which it pops them; [rdeps] is the slice read from its end. *)
Fixpoint poppedEstimates (dep : Z) (rdeps : list Z) : list Z :=
  match rdeps with
  | [] => []
  | e :: rdeps' => if decide (e > dep) then e :: poppedEstimates dep rdeps' else []
  end.

Lemma poppedEstimates_snoc (dep e : Z) (deps : list Z) :
  poppedEstimates dep (reverse (deps ++ [e])) =
  if decide (e > dep) then e :: poppedEstimates dep (reverse deps) else [].
Proof. by rewrite reverse_snoc. Qed.

Lemma poppedEstimates_all (dep : Z) (rdeps : list Z) :
  Forall (fun e => e > dep) (poppedEstimates dep rdeps).
Proof.
  induction rdeps as [|e rdeps IH]; simpl; [constructor|].
  case_decide; by constructor.
Qed.

Definition removeAll (es : list Z) (m : Status.StatusManager) : Status.StatusManager :=
  foldl (fun m e => Status.removeDependency e m) m es.

(** The loop leaves in [estimateDeps[ti]] what precedes the popped
    elements, and touches nothing but the execution manager, the
    estimates of [ti] and the trace. *)
Lemma dropEstimates_spec (ti dep : Z) (deps : list Z) (s : State) :
  estimatesOf s ti = deps ->
  exists E kept,
    dropEstimates (length deps) ti dep s =
      Ok tt (with_trace (trace s ++ ((fun e => EvStatus ExecTasks (RemoveDependency e)) <$>
                                       poppedEstimates dep (reverse deps)))
               (with_estimateDeps E
                  (with_execTasks (removeAll (poppedEstimates dep (reverse deps)) (execTasks s)) s))) /\
    default [] (E !! ti) = kept /\
    deps = kept ++ reverse (poppedEstimates dep (reverse deps)) /\
    (forall e, last kept = Some e -> e <= dep) /\
    (forall j, j <> ti -> E !! j = estimateDeps s !! j).
Proof.
  revert s. induction deps as [|e deps IH] using rev_ind; intros s Hs.
  - exists (estimateDeps s), []. simpl. split; [|split; [exact Hs|done]].
    destruct s. mstep. by rewrite app_nil_r.
  - rewrite poppedEstimates_snoc. rewrite length_app. simpl length.
    replace (length deps + 1)%nat with (S (length deps)) by lia.
    simpl dropEstimates.
    assert (Hl : (deps ++ [e]) !! length deps = Some e).
    { rewrite lookup_app_r by lia. by rewrite Nat.sub_diag. }
    case_decide as He.
    + set (s1 := with_estimateDeps (<[ti := deps]> (estimateDeps s))
                   (with_trace (trace s ++ [EvStatus ExecTasks (RemoveDependency e)])
                      (with_execTasks (Status.removeDependency e (execTasks s)) s))).
      destruct (IH s1) as (E & kept & Hrun & HE & Hsplit & Hlast & Hframe).
      { unfold s1. destruct s. mstep. cbn. by rewrite lookup_insert_eq. }
      exists E, kept. split; [|split; [done|split; [|split; [done|]]]].
      * erewrite bind_Ok; [|reflexivity]. cbn beta.
        rewrite Hs. erewrite bind_Ok; [|by apply lift_Some].
        rewrite decide_True by done.
        erewrite bind_Ok; [|reflexivity].
        erewrite bind_Ok; [|reflexivity].
        rewrite take_app_length.
        transitivity (dropEstimates (length deps) ti dep s1).
        { reflexivity. }
        rewrite Hrun. unfold s1. destruct s. mstep. simpl.
        by rewrite <- app_assoc.
      * simpl. rewrite reverse_cons, app_assoc. by rewrite <- Hsplit.
      * intros j Hj. rewrite (Hframe j Hj). unfold s1. destruct s. mstep. cbn.
        by rewrite lookup_insert_ne.
    + exists (estimateDeps s), (deps ++ [e]). simpl.
      split; [|split; [exact Hs|split; [by rewrite app_nil_r|split; [|done]]]].
      * erewrite bind_Ok; [|reflexivity]. cbn beta.
        rewrite Hs. erewrite bind_Ok; [|by apply lift_Some].
        rewrite decide_False by done. destruct s. mstep. by rewrite app_nil_r.
      * intros e'. rewrite last_snoc. intros [= <-]. lia.
Qed.

Definition requeuedManager (ti : Z) (added : bool) (m : Status.StatusManager)
  : Status.StatusManager :=
  if added then Status.clearInProgress ti m
  else Status.pushPending ti (Status.clearInProgress ti m).

Definition requeueCalls (ti : Z) (added : bool) : list Ev :=
  EvStatus ExecTasks (ClearInProgress ti) ::
  (if added then [] else [EvStatus ExecTasks (PushPending ti)]).

Definition abortDiag (l : list Z) (d : Diag) : Diag :=
  incCntAbort (mkDiag (cntExec d) (cntSuccess d) (cntAbort d)
                 (cntTotalValidations d) (cntValidationFail d) (diagExecSuccess d) l).

Lemma requeueAborted_spec (ti : Z) (added : bool) (s : State) :
  0 <= ti < Z.of_nat (length (txIncarnations s)) ->
  0 <= ti < Z.of_nat (length (diagExecAbort (diag s))) ->
  exists x y,
    index (txIncarnations s) ti = Some x /\
    index (diagExecAbort (diag s)) ti = Some y /\
    requeueAborted ti added s =
      Ok tt (with_diag (abortDiag (<[Z.to_nat ti := GoInt.add y 1]> (diagExecAbort (diag s))) (diag s))
               (with_txIncarnations (<[Z.to_nat ti := GoInt.add x 1]> (txIncarnations s))
                  (with_trace (trace s ++ requeueCalls ti added)
                     (with_execTasks (requeuedManager ti added (execTasks s)) s)))).
Proof.
  intros Hi Hd.
  destruct (incrAt_Some _ _ Hi) as (x & Hx & Hix).
  destruct (incrAt_Some _ _ Hd) as (y & Hy & Hiy).
  exists x, y. split; [done|]. split; [done|].
  unfold requeueAborted, bumpIncarnation, bumpDiagExecAbort, requeuedManager, requeueCalls.
  destruct s as [ts m c1 c2 c3 c4 et vt io incs est d re tr].
  cbn [txIncarnations diag] in *.
  destruct added; mstep; simpl; rewrite Hix; simpl; mstep; rewrite Hiy; simpl;
    rewrite <- ?app_assoc; reflexivity.
Qed.

(** C4. An abort with a dependency [dep >= 0] on [ti]: the trailing
    elements of [estimateDeps[ti]] that are greater than [dep] are popped
    one by one from the end, with [removeDependency] on each; then
    [addDependencies(dep, ti)]; then [clearInProgress(ti)]; [ti] is pushed
    pending exactly when [addDependencies] returned false, which the
    status manager does exactly when [dep] is complete; and
    [txIncarnations[ti]] goes up by one. *)
Theorem handleAbort_known_dependency (res : Result) (dep : Z) (s : State) :
  let ti := TxnIndex (ver res) in
  let deps := estimatesOf s ti in
  let popped := poppedEstimates dep (reverse deps) in
  let released := removeAll popped (execTasks s) in
  let added := fst (Status.addDependencies dep ti released) in
  sized s ->
  validIndex s ti ->
  dep >= 0 ->
  exists s' x,
    handleAbort res dep s = Ok tt s' /\
    deps = estimatesOf s' ti ++ reverse popped /\
    Forall (fun e => e > dep) popped /\
    (forall e, last (estimatesOf s' ti) = Some e -> e <= dep) /\
    trace s' = trace s ++
      ((fun e => EvStatus ExecTasks (RemoveDependency e)) <$> popped) ++
      [EvStatus ExecTasks (AddDependencies dep ti);
       EvStatus ExecTasks (ClearInProgress ti)] ++
      (if added then [] else [EvStatus ExecTasks (PushPending ti)]) /\
    added = negb (Status.checkComplete dep released) /\
    execTasks s' =
      (let blocked := Status.clearInProgress ti (snd (Status.addDependencies dep ti released)) in
       if added then blocked else Status.pushPending ti blocked) /\
    index (txIncarnations s) ti = Some x /\
    index (txIncarnations s') ti = Some (GoInt.add x 1).
Proof.
  intros ti deps popped released added [Hlen Hin Hout Hall Hinc Hds Hda] Hti Hdep.
  unfold validIndex in Hti.
  destruct (dropEstimates_spec ti dep deps s eq_refl)
    as (E & kept & Hrun & HE & Hsplit & Hlast & Hframe).
  fold popped in Hrun, Hsplit. fold released in Hrun.
  set (s1 := with_trace (trace s ++ ((fun e => EvStatus ExecTasks (RemoveDependency e)) <$> popped))
               (with_estimateDeps E (with_execTasks released s))) in *.
  set (s2 := with_execTasks (snd (Status.addDependencies dep ti released))
               (with_trace (trace s1 ++ [EvStatus ExecTasks (AddDependencies dep ti)]) s1)).
  destruct (requeueAborted_spec ti added s2) as (x & y & Hx & Hy & Hreq).
  { unfold s2, s1. destruct s. mstep. cbn [txIncarnations] in Hinc. lia. }
  { unfold s2, s1. destruct s. mstep. cbn [diag] in Hda. lia. }
  assert (Hhandle : handleAbort res dep s =
                    requeueAborted ti added s2).
  { unfold handleAbort, reshapeDependencies. fold ti.
    rewrite decide_True by done.
    erewrite bind_Ok; [|].
    2:{ erewrite bind_Ok; [|reflexivity]. cbn beta. fold deps.
        erewrite bind_Ok; [|exact Hrun].
        unfold addDependencies. erewrite bind_Ok; [|reflexivity].
        erewrite bind_Ok; [|reflexivity]. cbn beta.
        erewrite bind_Ok; [|reflexivity]. reflexivity. }
    unfold s2, s1, added, released. destruct s. mstep. reflexivity. }
  eexists _, x. split; [rewrite Hhandle; exact Hreq|].
  assert (Hadded : added = negb (Status.checkComplete dep released)).
  { unfold added, Status.addDependencies. by destruct (Status.checkComplete dep released). }
  unfold s2, s1 in *. clear Hreq Hhandle Hrun. destruct s.
  cbn [txIncarnations diag tasks lastTxIO trace execTasks estimateDeps] in *.
  revert Hx Hy. mstep. intros Hx Hy. rewrite HE.
  split; [done|]. split; [apply poppedEstimates_all|]. split; [done|].
  split.
  { unfold requeueCalls. fold added. rewrite <- !app_assoc. simpl. done. }
  split; [done|]. split.
  { unfold requeuedManager. fold added. by destruct added. }
  split; [done|]. apply index_insert_eq. lia.
Qed.

(** The new estimate [min(estimate+1, ti-1)], as the source computes it. *)
Definition nextEstimate (estimate ti : Z) : Z :=
  if decide (GoInt.add estimate 1 >= ti) then GoInt.sub ti 1 else GoInt.add estimate 1.

Lemma nextEstimate_min (estimate ti : Z) :
  GoInt.in_range (estimate + 1) ->
  GoInt.in_range (ti - 1) ->
  nextEstimate estimate ti = Z.min (estimate + 1) (ti - 1).
Proof.
  intros He Ht. unfold nextEstimate.
  rewrite GoInt.add_small, GoInt.sub_small by done.
  case_decide; lia.
Qed.

(** C5. An abort without a known dependency ([dep < 0], as [-1]) on [ti].
    When [blockCount[ti] >= 0]: the estimate is the last element of
    [estimateDeps[ti]], or 0 for an empty list; [addDependencies(estimate,
    ti)] is called and [min(estimate+1, ti-1)] is appended to
    [estimateDeps[ti]]. When [blockCount[ti] < 0]: no dependency is added,
    and [ti] is pushed pending after [clearInProgress]. In both cases
    [txIncarnations[ti]] goes up by one. *)
Theorem handleAbort_unknown_dependency (res : Result) (dep : Z) (s : State) :
  let ti := TxnIndex (ver res) in
  let deps := estimatesOf s ti in
  let estimate := default 0 (last deps) in
  let bc := Status.blockCount (execTasks s) ti in
  let added := fst (Status.addDependencies estimate ti (execTasks s)) in
  sized s ->
  validIndex s ti ->
  dep < 0 ->
  GoInt.in_range (estimate + 1) ->
  exists s' x,
    handleAbort res dep s = Ok tt s' /\
    index (txIncarnations s) ti = Some x /\
    index (txIncarnations s') ti = Some (GoInt.add x 1) /\
    (bc >= 0 ->
       trace s' = trace s ++
         [EvStatus ExecTasks (AddDependencies estimate ti);
          EvStatus ExecTasks (ClearInProgress ti)] ++
         (if added then [] else [EvStatus ExecTasks (PushPending ti)]) /\
       estimatesOf s' ti = deps ++ [Z.min (estimate + 1) (ti - 1)] /\
       execTasks s' =
         (let blocked :=
            Status.clearInProgress ti (snd (Status.addDependencies estimate ti (execTasks s))) in
          if added then blocked else Status.pushPending ti blocked)) /\
    (bc < 0 ->
       trace s' = trace s ++
         [EvStatus ExecTasks (ClearInProgress ti);
          EvStatus ExecTasks (PushPending ti)] /\
       estimateDeps s' = estimateDeps s /\
       execTasks s' = Status.pushPending ti (Status.clearInProgress ti (execTasks s))).
Proof.
  intros ti deps estimate bc added [Hlen Hin Hout Hall Hinc Hds Hda] Hti Hdep Hest.
  unfold validIndex in Hti.
  assert (Hmin : nextEstimate estimate ti = Z.min (estimate + 1) (ti - 1)).
  { apply nextEstimate_min; [done|].
    unfold GoInt.in_range, GoInt.min_int in *. unfold GoInt.max_int in *. lia. }
  destruct (decide (bc >= 0)) as [Hbc|Hbc].
  - set (s1 := with_estimateDeps (<[ti := deps ++ [nextEstimate estimate ti]]> (estimateDeps s))
                 (with_execTasks (snd (Status.addDependencies estimate ti (execTasks s)))
                    (with_trace (trace s ++ [EvStatus ExecTasks (AddDependencies estimate ti)]) s))).
    destruct (requeueAborted_spec ti added s1) as (x & y & Hx & Hy & Hreq).
    { unfold s1. destruct s. mstep. cbn [txIncarnations] in Hinc. lia. }
    { unfold s1. destruct s. mstep. cbn [diag] in Hda. lia. }
    assert (Hhandle : handleAbort res dep s = requeueAborted ti added s1).
    { unfold handleAbort, reshapeDependencies. fold ti.
      rewrite decide_False by lia.
      erewrite bind_Ok; [|].
      2:{ erewrite bind_Ok; [|reflexivity]. cbn beta. fold bc.
          rewrite decide_True by done.
          erewrite bind_Ok; [|reflexivity]. cbn beta. fold deps. fold estimate.
          unfold addDependencies.
          erewrite bind_Ok; [|].
          2:{ erewrite bind_Ok; [|reflexivity].
              erewrite bind_Ok; [|reflexivity]. cbn beta.
              erewrite bind_Ok; [|reflexivity]. reflexivity. }
          cbn beta zeta. fold (nextEstimate estimate ti).
          erewrite bind_Ok; [|reflexivity]. reflexivity. }
      unfold s1, added. destruct s. mstep. reflexivity. }
    eexists _, x. split; [rewrite Hhandle; exact Hreq|].
    unfold s1 in *. clear Hreq Hhandle. destruct s.
    cbn [txIncarnations diag tasks lastTxIO trace execTasks estimateDeps] in *.
    revert Hx Hy. mstep. intros Hx Hy.
    split; [done|]. split; [apply index_insert_eq; lia|].
    split; [|intros ?; lia]. intros _.
    rewrite lookup_insert_eq. simpl. rewrite Hmin.
    unfold requeueCalls, requeuedManager. fold added. rewrite <- !app_assoc.
    destruct added; done.
  - destruct (requeueAborted_spec ti false s) as (x & y & Hx & Hy & Hreq);
      [lia|lia|].
    assert (Hhandle : handleAbort res dep s = requeueAborted ti false s).
    { unfold handleAbort, reshapeDependencies. fold ti.
      rewrite decide_False by lia.
      erewrite bind_Ok; [|].
      2:{ erewrite bind_Ok; [|reflexivity]. cbn beta. fold bc.
          rewrite decide_False by done. reflexivity. }
      reflexivity. }
    eexists _, x. split; [rewrite Hhandle; exact Hreq|].
    clear Hreq Hhandle. destruct s.
    cbn [txIncarnations diag tasks lastTxIO trace execTasks estimateDeps] in *.
    revert Hx Hy. mstep. intros Hx Hy.
    split; [done|]. split; [apply index_insert_eq; lia|].
    split; [intros ?; lia|]. intros _. done.
Qed.

(** *** Validations *)

(** The indices the drain loop takes: the head of the queue as long as it
    lies in [0, maxComplete]. *)
Fixpoint takeReady (maxComplete : Z) (queue : list Z) : list Z :=
  match queue with
  | [] => []
  | x :: queue' =>
      if decide (x <= maxComplete /\ x >= 0) then x :: takeReady maxComplete queue' else []
  end.

Lemma takeReady_bounds (maxComplete : Z) (queue : list Z) :
  Forall (fun i => 0 <= i <= maxComplete) (takeReady maxComplete queue).
Proof.
  induction queue as [|x queue IH]; simpl; [constructor|].
  case_decide; constructor; [lia|done].
Qed.

Lemma takeReady_length (maxComplete : Z) (queue : list Z) :
  (length (takeReady maxComplete queue) <= length queue)%nat.
Proof.
  induction queue as [|x queue IH]; simpl; [lia|]. case_decide; simpl; lia.
Qed.

(** The drain loop stops because its condition fails, never because the
    bound [n] on its turns is reached. *)
Lemma drainValidations_spec (n : nat) (maxComplete : Z) (acc : list Z) (s : State) :
  (length (Status.pending (validateTasks s)) <= n)%nat ->
  let ready := takeReady maxComplete (Status.pending (validateTasks s)) in
  drainValidations n maxComplete acc s =
  Ok (acc ++ ready)
     (with_validateTasks (takeMany (length ready) (validateTasks s))
        (with_trace (trace s ++ replicate (length ready) (EvStatus ValidateTasks TakeNextPending)) s)).
Proof.
  revert acc s. induction n as [|n IH]; intros acc s Hn ready.
  - destruct s as [ts m c1 c2 c3 c4 et vt io incs est d re tr].
    cbn [validateTasks] in *. subst ready.
    destruct (Status.pending vt) eqn:Hp; [|simpl in Hn; lia].
    simpl. mstep. rewrite !app_nil_r. reflexivity.
  - destruct s as [ts m c1 c2 c3 c4 et vt io incs est d re tr].
    cbn [validateTasks] in *. subst ready. simpl drainValidations.
    erewrite bind_Ok; [|reflexivity]. cbn beta. cbn [validateTasks].
    unfold Status.minPending.
    destruct (Status.pending vt) as [|x rest] eqn:Hp.
    + rewrite decide_False by lia. simpl. mstep. rewrite !app_nil_r. reflexivity.
    + simpl takeReady. case_decide as Hx.
      * unfold takeNextPending. 
        erewrite bind_Ok; [|].
        2:{ erewrite bind_Ok; [|reflexivity].
            erewrite bind_Ok; [|reflexivity]. cbn beta.
            erewrite bind_Ok; [|reflexivity]. reflexivity. }
        cbn beta. rewrite IH.
        2:{ mstep. unfold Status.takeNextPending. rewrite Hp. simpl.
            simpl in Hn. lia. }
        mstep. unfold Status.takeNextPending at 1 2 3. rewrite Hp.
        cbn [fst snd Status.pending]. simpl length. rewrite takeMany_S.
        unfold Status.takeNextPending at 2. rewrite Hp. cbn [snd].
        rewrite <- !app_assoc. reflexivity.
      * simpl. mstep. rewrite !app_nil_r. reflexivity.
Qed.

Lemma ValidateVersion_Some (tx : Z) (s : State) :
  0 <= tx < Z.of_nat (length (inputs (lastTxIO s))) ->
  exists valid, ValidateVersion tx (lastTxIO s) (mvh s) (execTasks s) = Some valid.
Proof.
  intros Htx. unfold ValidateVersion, ReadSet.
  destruct (index_Some _ _ Htx) as [R ->]. simpl. by eexists.
Qed.

(** Whether a failed validation sends [tx] back to the ready queue of the
    execution manager. *)
Definition reexecutes (tx : Z) (s : State) : bool :=
  negb (Status.checkPending tx (execTasks s)) &&
  bool_decide (Status.blockCount (execTasks s) tx = -1).

(** The state after a failed validation of [tx]. *)
Definition invalidated (tx : Z) (ws : list WD) (s : State) : State :=
  let range := Status.getRevalidationRange (GoInt.add tx 1) (execTasks s) in
  with_trace (trace s ++
                ((fun v => EvMarkEstimate (Path v) tx) <$> ws) ++
                [EvStatus ValidateTasks (PushPendingSet range);
                 EvStatus ValidateTasks (ClearInProgress tx)])
    (with_validateTasks
       (Status.clearInProgress tx (Status.pushPendingSet range (validateTasks s)))
       (with_mvh (foldl (fun m v => MVHashMap_MarkEstimate (Path v) tx m) (mvh s) ws) s)).

Lemma validateTx_spec (tx : Z) (s : State) :
  sized s ->
  validIndex s tx ->
  exists valid s',
    ValidateVersion tx (lastTxIO s) (mvh s) (execTasks s) = Some valid /\
    validateTx tx s = Ok tt s' /\
    (valid = true ->
       trace s' = trace s ++ [EvStatus ValidateTasks (MarkComplete tx)] /\
       validateTasks s' = Status.markComplete tx (validateTasks s) /\
       execTasks s' = execTasks s /\
       mvh s' = mvh s /\
       txIncarnations s' = txIncarnations s) /\
    (valid = false ->
       exists ws x,
         AllWriteSet (lastTxIO s) tx = Some ws /\
         index (txIncarnations s) tx = Some x /\
         let range := Status.getRevalidationRange (GoInt.add tx 1) (execTasks s) in
         mvh s' = foldl (fun m v => MVHashMap_MarkEstimate (Path v) tx m) (mvh s) ws /\
         validateTasks s' =
           Status.clearInProgress tx (Status.pushPendingSet range (validateTasks s)) /\
         trace s' = trace s ++
           ((fun v => EvMarkEstimate (Path v) tx) <$> ws) ++
           [EvStatus ValidateTasks (PushPendingSet range);
            EvStatus ValidateTasks (ClearInProgress tx)] ++
           (if reexecutes tx s
            then [EvStatus ExecTasks (PushPending tx);
                  EvStatus ExecTasks (ClearComplete tx)]
            else []) /\
         execTasks s' =
           (if reexecutes tx s
            then Status.clearComplete tx (Status.pushPending tx (execTasks s))
            else execTasks s) /\
         txIncarnations s' =
           (if reexecutes tx s
            then <[Z.to_nat tx := GoInt.add x 1]> (txIncarnations s)
            else txIncarnations s)).
Proof.
  intros [Hlen Hin Hout Hall Hinc Hds Hda] Htx. unfold validIndex in Htx.
  destruct (ValidateVersion_Some tx s) as [valid Hvalid]; [lia|].
  destruct (index_Some (allOutputs (lastTxIO s)) tx) as [ws Hws]; [lia|].
  destruct (incrAt_Some (diagExecAbort (diag s)) tx) as (y & Hy & Hiy); [lia|].
  destruct (incrAt_Some (txIncarnations s) tx) as (x & Hx & Hix); [lia|].
  exists valid.
  destruct s as [ts m c1 c2 c3 c4 et vt io incs est d re tr].
  cbn [tasks mvh trace lastTxIO diag txIncarnations execTasks validateTasks] in *.
  unfold validateTx, validateVersion, bumpDiagExecAbort, txioAllWriteSet,
    bumpIncarnation, AllWriteSet, reexecutes.
  cbn [execTasks].
  destruct valid.
  - eexists. split; [done|]. split.
    { mstep. rewrite Hvalid. simpl. reflexivity. }
    split; [|done]. intros _. cbn. done.
  - destruct (Status.checkPending tx et) eqn:Hpend;
      [|destruct (decide (Status.blockCount et tx = -1)) as [Hbc|Hbc]].
    + eexists. split; [done|]. split.
      { mstep. rewrite Hvalid. simpl. mstep. rewrite Hiy. simpl. rewrite Hws. simpl.
        rewrite markEstimates_spec. mstep. rewrite Hpend. reflexivity. }
      split; [done|]. intros _. exists ws, x.
      cbn. rewrite <- ?app_assoc, ?app_nil_r. done.
    + eexists. split; [done|]. split.
      { mstep. rewrite Hvalid. simpl. mstep. rewrite Hiy. simpl. rewrite Hws. simpl.
        rewrite markEstimates_spec. mstep. rewrite Hpend.
        rewrite decide_True by done. rewrite Hix. simpl. reflexivity. }
      split; [done|]. intros _. exists ws, x.
      rewrite bool_decide_true by done.
      cbn. rewrite <- !app_assoc. done.
    + eexists. split; [done|]. split.
      { mstep. rewrite Hvalid. simpl. mstep. rewrite Hiy. simpl. rewrite Hws. simpl.
        rewrite markEstimates_spec. mstep. rewrite Hpend.
        rewrite decide_False by done. reflexivity. }
      split; [done|]. intros _. exists ws, x.
      rewrite bool_decide_false by done.
      cbn. rewrite <- ?app_assoc, ?app_nil_r. done.
Qed.

(** C6. The validation pass drains from the pending queue of the
    validation manager the indices in [0, maxComplete], with [maxComplete]
    the [maxAllComplete] of the execution manager, and validates each. On
    a failed check of [tx]: every path of [allOutputs[tx]] is marked
    estimate, the revalidation range from [tx+1] is pushed pending for
    validation, the validation in-progress flag of [tx] is cleared, and
    [tx] is pushed pending for execution, with [clearComplete] and one
    more incarnation, exactly when it is not pending for execution and
    [blockCount[tx] = -1]. On a successful check [tx] is marked complete
    for validation. *)
Theorem doValidations_behaviour (s : State) :
  let maxComplete := Status.maxAllComplete (execTasks s) in
  let ready := takeReady maxComplete (Status.pending (validateTasks s)) in
  Forall (fun tx => 0 <= tx <= maxComplete) ready /\
  doValidations s =
    forM_ ready validateTx
      (with_validateTasks (takeMany (length ready) (validateTasks s))
         (with_trace (trace s ++ replicate (length ready) (EvStatus ValidateTasks TakeNextPending)) s)) /\
  forall (tx : Z) (s0 : State),
    sized s0 ->
    validIndex s0 tx ->
    exists valid s',
      ValidateVersion tx (lastTxIO s0) (mvh s0) (execTasks s0) = Some valid /\
      validateTx tx s0 = Ok tt s' /\
      (valid = true ->
         trace s' = trace s0 ++ [EvStatus ValidateTasks (MarkComplete tx)] /\
         validateTasks s' = Status.markComplete tx (validateTasks s0) /\
         execTasks s' = execTasks s0 /\
         mvh s' = mvh s0 /\
         txIncarnations s' = txIncarnations s0) /\
      (valid = false ->
         exists ws x,
           AllWriteSet (lastTxIO s0) tx = Some ws /\
           index (txIncarnations s0) tx = Some x /\
           let range := Status.getRevalidationRange (GoInt.add tx 1) (execTasks s0) in
           mvh s' = foldl (fun m v => MVHashMap_MarkEstimate (Path v) tx m) (mvh s0) ws /\
           validateTasks s' =
             Status.clearInProgress tx (Status.pushPendingSet range (validateTasks s0)) /\
           trace s' = trace s0 ++
             ((fun v => EvMarkEstimate (Path v) tx) <$> ws) ++
             [EvStatus ValidateTasks (PushPendingSet range);
              EvStatus ValidateTasks (ClearInProgress tx)] ++
             (if reexecutes tx s0
              then [EvStatus ExecTasks (PushPending tx);
                    EvStatus ExecTasks (ClearComplete tx)]
              else []) /\
           execTasks s' =
             (if reexecutes tx s0
              then Status.clearComplete tx (Status.pushPending tx (execTasks s0))
              else execTasks s0) /\
           txIncarnations s' =
             (if reexecutes tx s0
              then <[Z.to_nat tx := GoInt.add x 1]> (txIncarnations s0)
              else txIncarnations s0)).
Proof.
  intros maxComplete ready. split; [apply takeReady_bounds|]. split.
  - unfold doValidations.
    erewrite bind_Ok; [|reflexivity]. cbn beta.
    erewrite bind_Ok; [|reflexivity]. cbn beta.
    erewrite bind_Ok; [|by apply drainValidations_spec]. reflexivity.
  - intros tx s0 Hs0 Htx. exact (validateTx_spec tx s0 Hs0 Htx).
Qed.

(** *** Dispatch *)

(** The job the dispatch sites build for index [x]. *)
Definition viewOf (ts : list T) (incs : list Z) (x : Z) : option View :=
  inc ← index incs x;
  t ← index ts x;
  Some (mkView (mkVersion x inc) x (Sender t)).

Definition dispatchCalls (c : Chan) (job : View) : list Ev :=
  [EvStatus ExecTasks TakeNextPending; EvSendTask c job].

Lemma viewOf_Some (ts : list T) (incs : list Z) (x : Z) :
  0 <= x < Z.of_nat (length ts) ->
  length incs = length ts ->
  exists job, viewOf ts incs x = Some job /\ TxnIndex (ev_ver job) = x.
Proof.
  intros Hx Hl. unfold viewOf.
  destruct (index_Some incs x) as [inc ->]; [lia|].
  destruct (index_Some ts x) as [t ->]; [lia|].
  simpl. by eexists.
Qed.

Lemma dispatchNext_spec (c : Chan) (s : State) (x : Z) (rest : list Z) (job : View) :
  c = ChTasks \/ c = ChSpeculativeTasks ->
  Status.pending (execTasks s) = x :: rest ->
  x <> -1 ->
  viewOf (tasks s) (txIncarnations s) x = Some job ->
  dispatchNext c s =
  Ok tt (with_taskChan c (taskChan c s ++ [job])
           (with_trace (trace s ++ dispatchCalls c job)
              (with_diag (incCntExec (diag s))
                 (with_execTasks (snd (Status.takeNextPending (execTasks s))) s)))).
Proof.
  intros Hc Hp Hx Hjob. unfold dispatchNext, takeNextPending, makeView, dispatchCalls.
  destruct s as [ts m c1 c2 c3 c4 et vt io incs est d re tr].
  cbn [tasks txIncarnations execTasks] in *.
  unfold viewOf in Hjob.
  destruct (index incs x) as [inc|] eqn:Hinc; [|done].
  destruct (index ts x) as [t|] eqn:Ht; [|done].
  simpl in Hjob. injection Hjob as <-.
  mstep. unfold Status.takeNextPending. rewrite Hp. cbn [fst snd].
  rewrite decide_True by done. rewrite Hinc. simpl. rewrite Ht. simpl.
  destruct Hc as [-> | ->]; rewrite <- !app_assoc; reflexivity.
Qed.

(** The loop that empties the ready queue into [chSpeculativeTasks]. *)
Lemma drainPending_spec (n : nat) (s : State) (jobs : list View) :
  (length (Status.pending (execTasks s)) <= n)%nat ->
  Forall (fun x => x <> -1) (Status.pending (execTasks s)) ->
  mapM (viewOf (tasks s) (txIncarnations s)) (Status.pending (execTasks s)) = Some jobs ->
  drainPending n s =
  Ok tt (with_chSpeculativeTasks (chSpeculativeTasks s ++ jobs)
           (with_trace (trace s ++ (jobs ≫= dispatchCalls ChSpeculativeTasks))
              (with_diag (Nat.iter (length jobs) incCntExec (diag s))
                 (with_execTasks (takeMany (length jobs) (execTasks s)) s)))).
Proof.
  revert s jobs. induction n as [|n IH]; intros s jobs Hn Hne Hjobs.
  - destruct (Status.pending (execTasks s)) eqn:Hp; [|simpl in Hn; lia].
    simpl in Hjobs. injection Hjobs as <-.
    destruct s. simpl. mstep. rewrite !app_nil_r. reflexivity.
  - simpl drainPending. erewrite bind_Ok; [|reflexivity]. cbn beta.
    unfold Status.minPending.
    destruct (Status.pending (execTasks s)) as [|x rest] eqn:Hp.
    + simpl in Hjobs. injection Hjobs as <-. rewrite decide_False by lia.
      destruct s. simpl. mstep. rewrite !app_nil_r. reflexivity.
    + apply Forall_cons in Hne as [Hx Hne].
      simpl in Hjobs.
      destruct (viewOf (tasks s) (txIncarnations s) x) as [job|] eqn:Hjob; [|done].
      simpl in Hjobs.
      destruct (mapM (viewOf (tasks s) (txIncarnations s)) rest) as [jobs'|] eqn:Hrest;
        [|done].
      simpl in Hjobs. injection Hjobs as <-.
      rewrite decide_True by done.
      erewrite bind_Ok;
        [|by apply (dispatchNext_spec ChSpeculativeTasks s x rest job); auto].
      rewrite IH with (jobs := jobs').
      * destruct s as [ts m c1 c2 c3 c4 et vt io incs est d re tr].
        cbn [execTasks] in Hp.
        mstep. simpl length. rewrite takeMany_S, Nat.iter_succ_r.
        rewrite <- !app_assoc. reflexivity.
      * destruct s. cbn [execTasks] in Hp. mstep.
        unfold Status.takeNextPending. rewrite Hp. simpl. simpl in Hn. lia.
      * destruct s. cbn [execTasks] in Hp. mstep.
        unfold Status.takeNextPending. rewrite Hp. simpl. done.
      * destruct s. cbn [execTasks tasks txIncarnations] in *. mstep.
        unfold Status.takeNextPending. rewrite Hp. simpl. done.
Qed.

(** The cap that the dispatch is said to put on speculation: every job
    sent to [chSpeculativeTasks] by one dispatch lies within the
    look-ahead of 20 from the validated prefix. *)
Definition speculationCapped (s s' : State) : Prop :=
  forall job,
    job ∈ drop (length (chSpeculativeTasks s)) (chSpeculativeTasks s') ->
    TxnIndex (ev_ver job) <= Status.maxAllComplete (validateTasks s) + 20.

(** C7, as the code has it. With [maxValidated] the [maxAllComplete] of the
    validation manager: when the ready queue of the execution manager is
    not empty and its smallest index is at most [maxValidated + 20], that
    one index is sent to [chTasks], and otherwise nothing is; afterwards
    every index left in the ready queue is sent to [chSpeculativeTasks],
    in ascending order and whatever its distance from the validated
    prefix; the ready queue is empty at the end. *)
Theorem dispatch_policy (s : State) :
  let queue := Status.pending (execTasks s) in
  let maxValidated := Status.maxAllComplete (validateTasks s) in
  let near := bool_decide (Status.minPending (execTasks s) <> -1 /\
                           Status.minPending (execTasks s) <= GoInt.add maxValidated 20) in
  let direct := if near then take 1 queue else [] in
  let speculative := if near then drop 1 queue else queue in
  sized s ->
  Forall (validIndex s) queue ->
  exists jobsD jobsS s',
    mapM (viewOf (tasks s) (txIncarnations s)) direct = Some jobsD /\
    mapM (viewOf (tasks s) (txIncarnations s)) speculative = Some jobsS /\
    dispatch s = Ok tt s' /\
    (near = true -> length jobsD = 1%nat) /\
    (near = false -> jobsD = []) /\
    chTasks s' = chTasks s ++ jobsD /\
    chSpeculativeTasks s' = chSpeculativeTasks s ++ jobsS /\
    (TxnIndex ∘ ev_ver <$> jobsD) ++ (TxnIndex ∘ ev_ver <$> jobsS) = queue /\
    trace s' = trace s ++ (jobsD ≫= dispatchCalls ChTasks) ++
                          (jobsS ≫= dispatchCalls ChSpeculativeTasks) /\
    Status.pending (execTasks s') = [] /\
    execTasks s' = takeMany (length queue) (execTasks s) /\
    validateTasks s' = validateTasks s.
Proof.
  intros queue maxValidated near direct speculative Hsized Hvalid.
  assert (Hviews : forall l, Forall (validIndex s) l ->
            exists jobs, mapM (viewOf (tasks s) (txIncarnations s)) l = Some jobs /\
                         (TxnIndex ∘ ev_ver <$> jobs) = l).
  { induction 1 as [|x l Hx Hl IH]; [by exists []|].
    destruct IH as (jobs & Hjobs & Hidx).
    destruct (viewOf_Some (tasks s) (txIncarnations s) x Hx) as (job & Hjob & Hjx).
    { apply Hsized. }
    exists (job :: jobs). split.
    - simpl. rewrite Hjob. simpl. by rewrite Hjobs.
    - rewrite fmap_cons, Hidx. simpl. by rewrite Hjx. }
  assert (Hne : Forall (fun x => x <> -1) queue).
  { eapply Forall_impl; [exact Hvalid|]. unfold validIndex. simpl. intros. lia. }
  unfold dispatch. fold maxValidated.
  subst near direct speculative. unfold Status.minPending. fold queue.
  destruct queue as [|x rest] eqn:Hq.
  - rewrite bool_decide_false by (intros [? _]; done).
    exists [], []. eexists. split; [done|]. split; [done|]. split.
    { erewrite bind_Ok; [|reflexivity]. cbn beta.
      erewrite bind_Ok; [|reflexivity]. cbn beta.
      unfold Status.minPending. fold queue. rewrite Hq.
      rewrite decide_False by (intros [? _]; done).
      erewrite bind_Ok; [|reflexivity].
      erewrite bind_Ok; [|reflexivity]. cbn beta. fold queue. rewrite Hq.
      reflexivity. }
    destruct s. cbn [execTasks] in queue, Hq. subst queue. mstep. simpl.
    rewrite ?app_nil_r. rewrite Hq. done.
  - apply Forall_cons in Hvalid as [Hx Hrest].
    apply Forall_cons in Hne as [Hx1 Hne].
    destruct (Hviews [x]) as (jobsX & HjobsX & HidxX);
      [constructor; [exact Hx|constructor]|].
    destruct (Hviews rest Hrest) as (jobsR & HjobsR & HidxR).
    simpl in HjobsX.
    destruct (viewOf (tasks s) (txIncarnations s) x) as [job|] eqn:Hjob; [|done].
    simpl in HjobsX. injection HjobsX as <-.
    case_bool_decide as Hnear.
    + exists [job], jobsR. eexists. simpl take. simpl drop. rewrite drop_0.
      split; [simpl; by rewrite Hjob|]. split; [done|]. split.
      { erewrite bind_Ok; [|reflexivity]. cbn beta.
        erewrite bind_Ok; [|reflexivity]. cbn beta.
        unfold Status.minPending. fold queue. rewrite Hq.
        rewrite decide_True by done.
        erewrite bind_Ok; [|by apply (dispatchNext_spec ChTasks s x rest job); auto].
        erewrite bind_Ok; [|reflexivity]. cbn beta.
        apply drainPending_spec with (jobs := jobsR).
        - destruct s. cbn [execTasks] in queue, Hq. subst queue. mstep.
          unfold Status.takeNextPending. rewrite Hq. simpl. lia.
        - destruct s. cbn [execTasks] in queue, Hq. subst queue. mstep.
          unfold Status.takeNextPending. rewrite Hq. simpl. done.
        - destruct s. cbn [execTasks tasks txIncarnations] in *. subst queue. mstep.
          unfold Status.takeNextPending. rewrite Hq. simpl. done. }
      split; [done|]. split; [done|].
      assert (Hlen : length jobsR = length rest).
      { by rewrite <- HidxR, length_fmap. }
      destruct s as [ts m c1 c2 c3 c4 et vt io incs est d re tr].
      cbn [execTasks] in queue, Hq. subst queue. mstep.
      rewrite takeMany_pending. cbn [Status.pending].
      unfold Status.takeNextPending at 1. rewrite Hq. cbn [snd Status.pending].
      rewrite Hlen, drop_all. simpl length. rewrite takeMany_S.
      simpl in HidxX. injection HidxX as HidxX. simpl.
      rewrite HidxX, HidxR, <- !app_assoc. done.
    + destruct (Hviews (x :: rest)) as (jobsA & HjobsA & HidxA); [by constructor|].
      exists [], jobsA. eexists.
      split; [done|]. split; [done|]. split.
      { erewrite bind_Ok; [|reflexivity]. cbn beta.
        erewrite bind_Ok; [|reflexivity]. cbn beta.
        unfold Status.minPending. fold queue. rewrite Hq.
        rewrite decide_False by done.
        erewrite bind_Ok; [|reflexivity].
        erewrite bind_Ok; [|reflexivity]. cbn beta.
        apply drainPending_spec with (jobs := jobsA).
        - fold queue. rewrite Hq. done.
        - fold queue. rewrite Hq. by constructor.
        - fold queue. rewrite Hq. done. }
      split; [done|]. split; [done|].
      assert (Hlen : length jobsA = length (x :: rest)).
      { by rewrite <- HidxA, length_fmap. }
      destruct s as [ts m c1 c2 c3 c4 et vt io incs est d re tr].
      cbn [execTasks] in queue, Hq. subst queue. mstep.
      rewrite takeMany_pending. rewrite Hq, Hlen, drop_all.
      simpl app. rewrite HidxA, ?app_nil_r. done.
Qed.

(** *** Properties of the state kept by a computation *)

Definition preserves {A} (P : State -> Prop) (m : M A) : Prop :=
  forall s a s', P s -> m s = Ok a s' -> P s'.

Lemma preserves_ret {A} (P : State -> Prop) (a : A) : preserves P (ret a).
Proof. intros s a' s' HP [= _ <-]. exact HP. Qed.

Lemma preserves_gets {A} (P : State -> Prop) (f : State -> A) : preserves P (gets f).
Proof. intros s a' s' HP [= _ <-]. exact HP. Qed.

Lemma preserves_lift {A} (P : State -> Prop) (o : option A) : preserves P (lift o).
Proof. intros s a' s' HP. unfold lift. destruct o; [|done]. intros [= _ <-]. exact HP. Qed.

Lemma preserves_panic {A} (P : State -> Prop) : preserves P (@panic A).
Proof. intros s a' s' HP. done. Qed.

Lemma preserves_bind {A B} (P : State -> Prop) (m : M A) (k : A -> M B) :
  preserves P m -> (forall a, preserves P (k a)) -> preserves P (bind m k).
Proof.
  intros Hm Hk s b s' HP Hrun.
  apply bind_inv in Hrun as (a & s1 & Hm1 & Hk1).
  eapply Hk; [|exact Hk1]. eapply Hm; [exact HP|exact Hm1].
Qed.

Lemma preserves_modify (P : State -> Prop) (f : State -> State) :
  (forall s, P s -> P (f s)) -> preserves P (modify f).
Proof. intros Hf s a' s' HP [= _ <-]. by apply Hf. Qed.

Lemma preserves_forM_ {A} (P : State -> Prop) (l : list A) (f : A -> M unit) :
  (forall x, preserves P (f x)) -> preserves P (forM_ l f).
Proof.
  intros Hf. induction l as [|x l IH]; simpl.
  - apply preserves_ret.
  - apply preserves_bind; [apply Hf|intros _; exact IH].
Qed.

(** The structure of a computation, down to its [modify] and [emit]
    leaves. *)
Ltac preserves_structure :=
  repeat first
    [ apply preserves_ret
    | apply preserves_gets
    | apply preserves_lift
    | apply preserves_panic
    | apply preserves_bind; [|intros ?]
    | apply preserves_forM_; intros ?
    | match goal with
      | |- preserves _ (if ?b then _ else _) => destruct b
      | |- preserves _ (match ?x with _ => _ end) => destruct x
      end ].

(** The events that are not the receipt of a result by the coordinator. *)
Definition isReceipt (e : Ev) : bool :=
  match e with
  | EvRecvResult _ _ => true
  | _ => false
  end.

Definition emitBlind (P : State -> Prop) : Prop :=
  forall e s, isReceipt e = false -> P s -> P (with_trace (trace s ++ [e]) s).

(** A property of the state is kept by a piece of the executor as soon as
    it is kept by the writes that piece performs. Each assumption below is
    about one kind of write; a lemma depends on those its code needs. *)
Section Stable.

Variable P : State -> Prop.

Hypothesis S_emit : emitBlind P.
Hypothesis S_mvh : forall x s, P s -> P (with_mvh x s).
Hypothesis S_chTasks : forall x s, P s -> P (with_chTasks x s).
Hypothesis S_chSpeculativeTasks : forall x s, P s -> P (with_chSpeculativeTasks x s).
Hypothesis S_validateTasks : forall x s, P s -> P (with_validateTasks x s).
Hypothesis S_lastTxIO : forall x s, P s -> P (with_lastTxIO x s).
Hypothesis S_txIncarnations : forall x s, P s -> P (with_txIncarnations x s).
Hypothesis S_estimateDeps : forall x s, P s -> P (with_estimateDeps x s).
Hypothesis S_diag : forall x s, P s -> P (with_diag x s).
Hypothesis S_tasks : forall x s, P s -> P (with_tasks x s).
Hypothesis S_chResults : forall x s, P s -> P (with_chResults x s).
Hypothesis S_chSpeculativeResults : forall x s, P s -> P (with_chSpeculativeResults x s).

(** The calls on the execution manager. *)
Hypothesis S_push : forall i s,
  P s -> P (with_execTasks (Status.pushPending i (execTasks s)) s).
Hypothesis S_mark : forall i s,
  P s -> P (with_execTasks (Status.markComplete i (execTasks s)) s).
Hypothesis S_clearInProgress : forall i s,
  P s -> P (with_execTasks (Status.clearInProgress i (execTasks s)) s).
Hypothesis S_clearComplete : forall i s,
  P s -> P (with_execTasks (Status.clearComplete i (execTasks s)) s).
Hypothesis S_clearPending : forall i s,
  P s -> P (with_execTasks (Status.clearPending i (execTasks s)) s).
Hypothesis S_remove : forall i s,
  P s -> P (with_execTasks (Status.removeDependency i (execTasks s)) s).
Hypothesis S_take : forall s,
  P s -> P (with_execTasks (snd (Status.takeNextPending (execTasks s))) s).
Hypothesis S_add : forall b d s,
  P s -> P (with_execTasks (snd (Status.addDependencies b d (execTasks s))) s).
Hypothesis S_make : forall n s,
  P s -> P (with_execTasks (Status.makeStatusManager n) s).

Lemma stable_emit (e : Ev) : isReceipt e = false -> preserves P (emit e).
Proof. intros He. apply preserves_modify. intros s HP. by apply S_emit. Qed.

Lemma stable_takeNextPending_exec : preserves P (takeNextPending ExecTasks).
Proof.
  intros s a s' HP Hrun. unfold takeNextPending in Hrun.
  apply bind_inv in Hrun as (u & s1 & H1 & Hrun). injection H1 as _ <-.
  apply bind_inv in Hrun as (m & s2 & H2 & Hrun). injection H2 as <- <-.
  apply bind_inv in Hrun as (u' & s3 & H3 & Hrun). injection H3 as _ <-.
  injection Hrun as _ <-.
  apply (S_take (with_trace (trace s ++ [EvStatus ExecTasks TakeNextPending]) s)).
  by apply S_emit.
Qed.

Lemma stable_takeNextPending_validate : preserves P (takeNextPending ValidateTasks).
Proof.
  intros s a s' HP Hrun. unfold takeNextPending in Hrun.
  apply bind_inv in Hrun as (u & s1 & H1 & Hrun). injection H1 as _ <-.
  apply bind_inv in Hrun as (m & s2 & H2 & Hrun). injection H2 as <- <-.
  apply bind_inv in Hrun as (u' & s3 & H3 & Hrun). injection H3 as _ <-.
  injection Hrun as _ <-.
  apply S_validateTasks. by apply S_emit.
Qed.

Lemma stable_addDependencies_exec b d : preserves P (addDependencies ExecTasks b d).
Proof.
  intros s a s' HP Hrun. unfold addDependencies in Hrun.
  apply bind_inv in Hrun as (u & s1 & H1 & Hrun). injection H1 as _ <-.
  apply bind_inv in Hrun as (m & s2 & H2 & Hrun). injection H2 as <- <-.
  apply bind_inv in Hrun as (u' & s3 & H3 & Hrun). injection H3 as _ <-.
  injection Hrun as _ <-.
  apply (S_add b d (with_trace (trace s ++ [EvStatus ExecTasks (AddDependencies b d)]) s)).
  by apply S_emit.
Qed.

(** One write. *)
Ltac stable_write :=
  apply preserves_modify;
  let s := fresh "s" in
  let HP := fresh "HP" in
  intros s HP;
  first
    [ exact (S_mvh _ s HP)
    | exact (S_chTasks _ s HP)
    | exact (S_chSpeculativeTasks _ s HP)
    | exact (S_validateTasks _ s HP)
    | exact (S_lastTxIO _ s HP)
    | exact (S_txIncarnations _ s HP)
    | exact (S_estimateDeps _ s HP)
    | exact (S_diag _ s HP)
    | exact (S_tasks _ s HP)
    | exact (S_chResults _ s HP)
    | exact (S_chSpeculativeResults _ s HP)
    | exact (S_push _ s HP)
    | exact (S_mark _ s HP)
    | exact (S_clearInProgress _ s HP)
    | exact (S_clearComplete _ s HP)
    | exact (S_clearPending _ s HP)
    | exact (S_remove _ s HP)
    | exact (S_make _ s HP) ].

(** The structure of a computation, then its leaves. *)
Ltac stable :=
  repeat first
    [ apply stable_takeNextPending_exec
    | apply stable_takeNextPending_validate
    | apply stable_addDependencies_exec
    | apply preserves_ret
    | apply preserves_gets
    | apply preserves_lift
    | apply preserves_panic
    | apply preserves_bind; [|intros ?]
    | apply preserves_forM_; intros ?
    | match goal with
      | |- preserves _ (if ?b then _ else _) => destruct b
      | |- preserves _ (match ?x with _ => _ end) => destruct x
      end
    | apply stable_emit; reflexivity
    | stable_write ].

Lemma stable_handleSuccess res : preserves P (handleSuccess res).
Proof. unfold handleSuccess. stable. Qed.

Lemma stable_dropEstimates l ti dep : preserves P (dropEstimates l ti dep).
Proof.
  induction l as [|l IH]; simpl; [apply preserves_ret|].
  stable. exact IH.
Qed.

Lemma stable_drainValidations n mc acc : preserves P (drainValidations n mc acc).
Proof.
  revert acc. induction n as [|n IH]; intros acc; simpl; [apply preserves_ret|].
  stable. apply IH.
Qed.

Lemma stable_drainPending n : preserves P (drainPending n).
Proof.
  induction n as [|n IH]; simpl; [apply preserves_ret|].
  stable. exact IH.
Qed.

Lemma stable_senderLoop i ts prev : preserves P (senderLoop i ts prev).
Proof.
  revert i prev. induction ts as [|t ts IH]; intros i prev; simpl;
    [apply preserves_ret|].
  stable. apply IH.
Qed.

Lemma stable_bootstrap n : preserves P (bootstrap n).
Proof.
  induction n as [|n IH]; simpl; [apply preserves_ret|].
  stable. exact IH.
Qed.

Ltac stable_loops :=
  stable;
  first [ apply stable_dropEstimates
        | apply stable_drainValidations
        | apply stable_drainPending
        | apply stable_senderLoop
        | apply stable_bootstrap ].

Lemma stable_handleAbort res dep : preserves P (handleAbort res dep).
Proof. unfold handleAbort, reshapeDependencies. stable_loops. Qed.

Lemma stable_doValidations : preserves P doValidations.
Proof. unfold doValidations. stable_loops. Qed.

Lemma stable_dispatch : preserves P dispatch.
Proof. unfold dispatch. stable_loops. Qed.

Lemma stable_checkDone : preserves P checkDone.
Proof. unfold checkDone, logSummary. stable. Qed.

Lemma stable_afterResult : preserves P afterResult.
Proof.
  unfold afterResult.
  apply preserves_bind; [apply stable_doValidations|intros _].
  apply preserves_bind; [apply stable_dispatch|intros _].
  apply stable_checkDone.
Qed.

Lemma stable_setup : preserves P setup.
Proof. unfold setup. stable_loops. Qed.

Lemma stable_closeAll : preserves P closeAll.
Proof. unfold closeAll. stable. Qed.

Lemma stable_ExecVersionView_Execute ev : preserves P (ExecVersionView_Execute ev).
Proof. unfold ExecVersionView_Execute. stable. Qed.

Lemma stable_workerTurn p w : preserves P (workerTurn p w).
Proof.
  unfold workerTurn, doWork_flush, sendResult, workerTaskChan, workerResultChan.
  destruct w; [|stable|].
  - case_decide; stable.
  - case_decide; stable.
Qed.

End Stable.

(** A property that reads none of the components the executor writes,
    apart from the trace and the named result [err]. *)
Definition coordinatorBlind (P : State -> Prop) : Prop :=
  (forall x s, P s -> P (with_tasks x s)) /\
  (forall x s, P s -> P (with_mvh x s)) /\
  (forall x s, P s -> P (with_chTasks x s)) /\
  (forall x s, P s -> P (with_chSpeculativeTasks x s)) /\
  (forall x s, P s -> P (with_chResults x s)) /\
  (forall x s, P s -> P (with_chSpeculativeResults x s)) /\
  (forall x s, P s -> P (with_execTasks x s)) /\
  (forall x s, P s -> P (with_validateTasks x s)) /\
  (forall x s, P s -> P (with_lastTxIO x s)) /\
  (forall x s, P s -> P (with_txIncarnations x s)) /\
  (forall x s, P s -> P (with_estimateDeps x s)) /\
  (forall x s, P s -> P (with_diag x s)).

Section Blind.

Variable P : State -> Prop.
Hypothesis Hblind : coordinatorBlind P.
Hypothesis Hemit : emitBlind P.

Ltac blind_side := first [exact Hemit | intros; by apply Hblind].

Lemma blind_handleSuccess res : preserves P (handleSuccess res).
Proof. apply stable_handleSuccess; blind_side. Qed.

Lemma blind_handleAbort res dep : preserves P (handleAbort res dep).
Proof. apply stable_handleAbort; blind_side. Qed.

Lemma blind_afterResult : preserves P afterResult.
Proof. apply stable_afterResult; blind_side. Qed.

Lemma blind_setup : preserves P setup.
Proof. apply stable_setup; blind_side. Qed.

Lemma blind_closeAll : preserves P closeAll.
Proof. apply stable_closeAll; blind_side. Qed.

Lemma blind_workerTurn p w : preserves P (workerTurn p w).
Proof. apply stable_workerTurn; blind_side. Qed.

End Blind.

(** *** The error returned by [ExecuteParallel] *)

(** The results the coordinator has taken from its two result channels,
    oldest first. *)
Definition received (tr : list Ev) : list Result :=
  omap (fun e => match e with
                 | EvRecvResult _ r => Some r
                 | _ => None
                 end) tr.

(** A result whose error is not an [ErrExecAbortError]. *)
Definition isFatal (r : Result) : bool :=
  match err r with
  | Some e => match isExecAbort e with
              | Some _ => false
              | None => true
              end
  | None => false
  end.

(** The error of the first fatal result among those received. *)
Definition firstFatal (tr : list Ev) : option error :=
  r ← find isFatal (received tr); err r.

Lemma received_app (tr1 tr2 : list Ev) :
  received (tr1 ++ tr2) = received tr1 ++ received tr2.
Proof. unfold received. apply omap_app. Qed.

Lemma received_quiet (tr : list Ev) (e : Ev) :
  isReceipt e = false -> received (tr ++ [e]) = received tr.
Proof.
  intros He. rewrite received_app. destruct e; try done; by rewrite app_nil_r.
Qed.

Lemma find_app_None {A} (f : A -> bool) (l1 l2 : list A) :
  find f l1 = None -> find f (l1 ++ l2) = find f l2.
Proof.
  induction l1 as [|x l1 IH]; [done|]. simpl. destruct (f x); [done|]. exact IH.
Qed.

(** What is known of the received results and of the named result [err]. *)
Definition errState (R : list Result) (E : option error) (s : State) : Prop :=
  received (trace s) = R /\ returnErr s = E.

Lemma errState_blind R E : coordinatorBlind (errState R E).
Proof.
  unfold coordinatorBlind. repeat apply conj; intros x s [HR HE];
    (split; [exact HR|exact HE]).
Qed.

Lemma errState_emit R E : emitBlind (errState R E).
Proof.
  intros e s He [HR HE]. split; [|by destruct s].
  destruct s. simpl in *. by rewrite received_quiet.
Qed.

(** The invariant of the run: while the loop runs, no fatal result has
    been received and [err] is nil; once [ExecuteParallel] has returned,
    [err] is the error of the first fatal result received. *)
Definition errInvariant (sys : System) : Prop :=
  match sys with
  | Running s _ => find isFatal (received (trace s)) = None /\ returnErr s = None
  | Returned s => returnErr s = firstFatal (trace s)
  | Crashed => True
  end.

Lemma iteration_err (res : Result) (R : list Result) (s : State) (ctl : LoopCtl) (s' : State) :
  errState R None s ->
  iteration res s = Ok ctl s' ->
  if isFatal res
  then ctl = Break /\ errState R (err res) s'
  else errState R None s'.
Proof.
  intros Hs Hrun. unfold iteration, isFatal in *.
  destruct (err res) as [e|] eqn:He.
  - destruct (isExecAbort e) as [dep|].
    + apply bind_inv in Hrun as (u & s1 & H1 & H2).
      eapply blind_afterResult; [apply errState_blind|apply errState_emit| |exact H2].
      eapply blind_handleAbort; [apply errState_blind|apply errState_emit| |exact H1].
      exact Hs.
    + injection Hrun as <- <-. split; [done|]. destruct Hs as [HR _].
      split; by destruct s.
  - apply bind_inv in Hrun as (u & s1 & H1 & H2).
    eapply blind_afterResult; [apply errState_blind|apply errState_emit| |exact H2].
    eapply blind_handleSuccess; [apply errState_blind|apply errState_emit| |exact H1].
    exact Hs.
Qed.

Lemma firstFatal_snoc (R : list Result) (res : Result) :
  find isFatal R = None ->
  find isFatal (R ++ [res]) = if isFatal res then Some res else None.
Proof. intros HR. rewrite find_app_None by done. simpl. by destruct (isFatal res). Qed.

Lemma receive_err (c : Chan) (res : Result) (s : State) (f : State -> State)
    (ctl : LoopCtl) (s' : State) :
  find isFatal (received (trace s)) = None ->
  returnErr s = None ->
  (forall s0, trace (f s0) = trace s0 /\ returnErr (f s0) = returnErr s0) ->
  (do modify f then do emit (EvRecvResult c res) then iteration res) s = Ok ctl s' ->
  if isFatal res
  then ctl = Break /\ returnErr s' = err res /\
       find isFatal (received (trace s')) = Some res
  else find isFatal (received (trace s')) = None /\ returnErr s' = None.
Proof.
  intros HR HE Hf Hrun.
  apply bind_inv in Hrun as (u1 & s1 & H1 & Hrun). injection H1 as _ <-.
  apply bind_inv in Hrun as (u2 & s2 & H2 & Hrun). injection H2 as _ <-.
  destruct (Hf s) as [Hft Hfe].
  assert (Hs2 : errState (received (trace s) ++ [res]) None
                  (with_trace (trace (f s) ++ [EvRecvResult c res]) (f s))).
  { split.
    - destruct (f s). simpl in *. rewrite received_app, Hft. simpl. done.
    - destruct (f s). simpl in *. congruence. }
  pose proof (iteration_err res _ _ ctl s' Hs2 Hrun) as Hit.
  pose proof (firstFatal_snoc _ res HR) as Hsnoc.
  destruct (isFatal res).
  - destruct Hit as (-> & HR' & HE'). rewrite HR'. done.
  - destruct Hit as [HR' HE']. rewrite HR'. done.
Qed.

Lemma step_errInvariant (sys : System) (t : Turn) :
  errInvariant sys -> errInvariant (step sys t).
Proof.
  destruct sys as [s ws| |]; [|done|done].
  intros [HR HE]. destruct t as [|p]; unfold step.
  - destruct (coordinatorTurn s) as [ctl s'|] eqn:Hturn; [|by destruct s].
    unfold coordinatorTurn in Hturn.
    apply bind_inv in Hturn as (s0 & s1 & H0' & Hturn). injection H0' as <- <-.
    assert (Hcase :
      (exists c res f,
         (forall s0, trace (f s0) = trace s0 /\ returnErr (f s0) = returnErr s0) /\
         (do modify f then do emit (EvRecvResult c res) then iteration res) s = Ok ctl s') \/
      (ctl = Continue /\ s' = s)).
    { destruct (chResults s) as [|res rest].
      - destruct (chSpeculativeResults s) as [|res rest].
        + right. by injection Hturn as <- <-.
        + left. exists ChSpeculativeResults, res, (with_chSpeculativeResults rest).
          split; [by intros []|done].
      - left. exists ChResults, res, (with_chResults rest).
        split; [by intros []|done]. }
    destruct Hcase as [(c & res & f & Hf & Hrun)|[-> ->]]; [|done].
    pose proof (receive_err c res s f ctl s' HR HE Hf Hrun) as Hrecv.
    destruct (isFatal res) eqn:Hfatal.
    + destruct Hrecv as (-> & HE' & HR').
      destruct (closeAll s') as [u s''|] eqn:Hclose; [|done].
      unfold errInvariant, firstFatal.
      assert (Hs'' : errState (received (trace s')) (returnErr s') s'').
      { eapply (blind_closeAll (errState (received (trace s')) (returnErr s')));
          [..|exact Hclose];
          first [by split|apply errState_blind|apply errState_emit]. }
      destruct Hs'' as [-> ->]. rewrite HR'. simpl. done.
    + destruct Hrecv as [HR' HE']. destruct ctl; [done|].
      destruct (closeAll s') as [u s''|] eqn:Hclose; [|done].
      unfold errInvariant, firstFatal.
      assert (Hs'' : errState (received (trace s')) (returnErr s') s'').
      { eapply (blind_closeAll (errState (received (trace s')) (returnErr s')));
          [..|exact Hclose];
          first [by split|apply errState_blind|apply errState_emit]. }
      destruct Hs'' as [-> ->]. rewrite HR'. simpl. done.
  - destruct (ws !! p) as [w|]; [|done].
    destruct (workerTurn p w s) as [w' s'|] eqn:Hturn; [|done].
    unfold errInvariant.
    assert (Hs' : errState (received (trace s)) None s').
    { eapply (blind_workerTurn (errState (received (trace s)) None));
        [..|exact Hturn];
        first [by split|apply errState_blind|apply errState_emit]. }
    destruct Hs' as [-> ->]. done.
Qed.

Lemma start_errInvariant (ts : list T) : errInvariant (start ts).
Proof.
  unfold start. case_decide; [done|].
  destruct (setup (initState ts)) as [u s|] eqn:Hsetup; [|done]. simpl.
  assert (Hs : errState [] None s).
  { eapply (blind_setup (errState [] None));
      [..|exact Hsetup];
      first [by split|apply errState_blind|apply errState_emit]. }
  destruct Hs as [-> ->]. done.
Qed.

Lemma run_errInvariant (sys : System) (sched : list Turn) :
  errInvariant sys -> errInvariant (run sys sched).
Proof.
  revert sys. induction sched as [|t sched IH]; intros sys Hsys; [done|].
  simpl. apply IH. by apply step_errInvariant.
Qed.

(** C9. When [ExecuteParallel] returns, its error is the error of the
    first received result whose error is not an [ErrExecAbortError], and
    nil when no such result was received: the error is non-nil exactly
    when such a result was received, and it is never an
    [ErrExecAbortError]. *)
Theorem ExecuteParallel_returned_error (ts : list T) (sched : list Turn)
    (io : TxnInputOutput Key Val) (e : option error) (s : State) :
  ExecuteParallel ts sched = Returned s ->
  returned (ExecuteParallel ts sched) = Some (io, e) ->
  e = firstFatal (trace s) /\
  (is_Some e <-> Exists (fun r => isFatal r = true) (received (trace s))) /\
  (forall e', e = Some e' -> isExecAbort e' = None).
Proof.
  intros Hret Hval.
  pose proof (run_errInvariant (start ts) sched (start_errInvariant ts)) as Hinv.
  fold (ExecuteParallel ts sched) in Hinv. rewrite Hret in Hinv, Hval.
  simpl in Hinv, Hval. injection Hval as _ <-. rewrite Hinv.
  split; [done|]. unfold firstFatal.
  destruct (find isFatal (received (trace s))) as [r|] eqn:Hfind; simpl.
  - apply find_some in Hfind as [Hin Hfatal].
    unfold isFatal in Hfatal.
    destruct (err r) as [e'|] eqn:He'; [|done].
    destruct (isExecAbort e') eqn:Habort; [done|].
    split.
    + split; [|by eexists]. intros _. apply Exists_exists. exists r.
      split; [by apply list_elem_of_In|]. unfold isFatal. by rewrite He', Habort.
    + intros e'' [= <-]. done.
  - split; [|done]. split; [by intros [? ?]|].
    intros Hex. apply Exists_exists in Hex as (r & Hin & Hfatal).
    apply list_elem_of_In in Hin.
    by pose proof (find_none _ _ Hfind r Hin) as Hnone; congruence.
Qed.

(** ** Further properties of the executor *)

(** *** What each primitive writes *)

(** The lemmas of this part reduce [preserves P m], for a primitive [m] of
    the executor, to the writes [m] performs, with what is known of the
    written value. *)

Lemma preserves_emit (P : State -> Prop) (e : Ev) :
  (forall s, P s -> P (with_trace (trace s ++ [e]) s)) -> preserves P (emit e).
Proof. intros He. by apply preserves_modify. Qed.

Lemma preserves_takeNextPending (P : State -> Prop) (mu : Mgr) :
  (forall s, P s -> P (with_trace (trace s ++ [EvStatus mu TakeNextPending]) s)) ->
  (forall s, P s ->
     P (with_manager mu (snd (Status.takeNextPending (manager mu s))) s)) ->
  preserves P (takeNextPending mu).
Proof.
  intros He Hw s a s' HP Hrun. unfold takeNextPending in Hrun.
  apply bind_inv in Hrun as (u & s1 & H1 & Hrun). injection H1 as _ <-.
  apply bind_inv in Hrun as (m & s2 & H2 & Hrun). injection H2 as <- <-.
  apply bind_inv in Hrun as (u' & s3 & H3 & Hrun). injection H3 as _ <-.
  injection Hrun as _ <-. apply Hw. by apply He.
Qed.

Lemma preserves_addDependencies (P : State -> Prop) (mu : Mgr) (b d : Z) :
  (forall s, P s -> P (with_trace (trace s ++ [EvStatus mu (AddDependencies b d)]) s)) ->
  (forall s, P s ->
     P (with_manager mu (snd (Status.addDependencies b d (manager mu s))) s)) ->
  preserves P (addDependencies mu b d).
Proof.
  intros He Hw s a s' HP Hrun. unfold addDependencies in Hrun.
  apply bind_inv in Hrun as (u & s1 & H1 & Hrun). injection H1 as _ <-.
  apply bind_inv in Hrun as (m & s2 & H2 & Hrun). injection H2 as <- <-.
  apply bind_inv in Hrun as (u' & s3 & H3 & Hrun). injection H3 as _ <-.
  injection Hrun as _ <-. apply Hw. by apply He.
Qed.

Lemma preserves_txioRecordRead (P : State -> Prop) (ti : Z) (x : TxnInput Key) :
  (forall s, P s -> P (with_trace (trace s ++ [EvRecordRead ti x]) s)) ->
  (forall s io', recordRead (lastTxIO s) ti x = Some io' -> P s -> P (with_lastTxIO io' s)) ->
  preserves P (txioRecordRead ti x).
Proof.
  intros He Hw s a s' HP Hrun. unfold txioRecordRead in Hrun.
  apply bind_inv in Hrun as (io & s1 & H1 & Hrun). injection H1 as <- <-.
  apply bind_inv in Hrun as (io' & s2 & H2 & Hrun).
  destruct (recordRead (lastTxIO s) ti x) as [io1|] eqn:Hrec; [|done].
  injection H2 as <- <-.
  apply bind_inv in Hrun as (u & s3 & H3 & Hrun). injection H3 as _ <-.
  injection Hrun as _ <-. apply Hw; [done|]. by apply He.
Qed.

Lemma preserves_txioRecordWrite (P : State -> Prop) (ti : Z) (x : TxnOutput Key Val) :
  (forall s, P s -> P (with_trace (trace s ++ [EvRecordWrite ti x]) s)) ->
  (forall s io', recordWrite (lastTxIO s) ti x = Some io' -> P s -> P (with_lastTxIO io' s)) ->
  preserves P (txioRecordWrite ti x).
Proof.
  intros He Hw s a s' HP Hrun. unfold txioRecordWrite in Hrun.
  apply bind_inv in Hrun as (io & s1 & H1 & Hrun). injection H1 as <- <-.
  apply bind_inv in Hrun as (io' & s2 & H2 & Hrun).
  destruct (recordWrite (lastTxIO s) ti x) as [io1|] eqn:Hrec; [|done].
  injection H2 as <- <-.
  apply bind_inv in Hrun as (u & s3 & H3 & Hrun). injection H3 as _ <-.
  injection Hrun as _ <-. apply Hw; [done|]. by apply He.
Qed.

Lemma preserves_txioRecordAllWrite (P : State -> Prop) (ti : Z) (x : TxnOutput Key Val) :
  (forall s, P s -> P (with_trace (trace s ++ [EvRecordAllWrite ti x]) s)) ->
  (forall s io', recordAllWrite (lastTxIO s) ti x = Some io' -> P s ->
     P (with_lastTxIO io' s)) ->
  preserves P (txioRecordAllWrite ti x).
Proof.
  intros He Hw s a s' HP Hrun. unfold txioRecordAllWrite in Hrun.
  apply bind_inv in Hrun as (io & s1 & H1 & Hrun). injection H1 as <- <-.
  apply bind_inv in Hrun as (io' & s2 & H2 & Hrun).
  destruct (recordAllWrite (lastTxIO s) ti x) as [io1|] eqn:Hrec; [|done].
  injection H2 as <- <-.
  apply bind_inv in Hrun as (u & s3 & H3 & Hrun). injection H3 as _ <-.
  injection Hrun as _ <-. apply Hw; [done|]. by apply He.
Qed.

Lemma preserves_bumpIncarnation (P : State -> Prop) (ti : Z) :
  (forall s l', incrAt (txIncarnations s) ti = Some l' -> P s ->
     P (with_txIncarnations l' s)) ->
  preserves P (bumpIncarnation ti).
Proof.
  intros Hw s a s' HP Hrun. unfold bumpIncarnation in Hrun.
  apply bind_inv in Hrun as (l & s1 & H1 & Hrun). injection H1 as <- <-.
  apply bind_inv in Hrun as (l' & s2 & H2 & Hrun).
  destruct (incrAt (txIncarnations s) ti) as [l1|] eqn:Hinc; [|done].
  injection H2 as <- <-. injection Hrun as _ <-. by apply Hw.
Qed.

Lemma preserves_bumpDiagExecSuccess (P : State -> Prop) (ti : Z) :
  (forall s l, incrAt (diagExecSuccess (diag s)) ti = Some l -> P s ->
     P (with_diag (mkDiag (cntExec (diag s)) (cntSuccess (diag s)) (cntAbort (diag s))
                     (cntTotalValidations (diag s)) (cntValidationFail (diag s))
                     l (diagExecAbort (diag s))) s)) ->
  preserves P (bumpDiagExecSuccess ti).
Proof.
  intros Hw s a s' HP Hrun. unfold bumpDiagExecSuccess in Hrun.
  apply bind_inv in Hrun as (d & s1 & H1 & Hrun). injection H1 as <- <-.
  apply bind_inv in Hrun as (l' & s2 & H2 & Hrun).
  destruct (incrAt (diagExecSuccess (diag s)) ti) as [l1|] eqn:Hinc; [|done].
  injection H2 as <- <-. injection Hrun as _ <-. by apply Hw.
Qed.

Lemma preserves_bumpDiagExecAbort (P : State -> Prop) (ti : Z) :
  (forall s l, incrAt (diagExecAbort (diag s)) ti = Some l -> P s ->
     P (with_diag (mkDiag (cntExec (diag s)) (cntSuccess (diag s)) (cntAbort (diag s))
                     (cntTotalValidations (diag s)) (cntValidationFail (diag s))
                     (diagExecSuccess (diag s)) l) s)) ->
  preserves P (bumpDiagExecAbort ti).
Proof.
  intros Hw s a s' HP Hrun. unfold bumpDiagExecAbort in Hrun.
  apply bind_inv in Hrun as (d & s1 & H1 & Hrun). injection H1 as <- <-.
  apply bind_inv in Hrun as (l' & s2 & H2 & Hrun).
  destruct (incrAt (diagExecAbort (diag s)) ti) as [l1|] eqn:Hinc; [|done].
  injection H2 as <- <-. injection Hrun as _ <-. by apply Hw.
Qed.

(** The job made by [makeView tx inc] is a job of index [tx] at
    incarnation [inc]. *)
Lemma preserves_makeView_bind {B} (P : State -> Prop) (tx inc : Z) (k : View -> M B) :
  (forall sender, preserves P (k (mkView (mkVersion tx inc) tx sender))) ->
  preserves P (bind (makeView tx inc) k).
Proof.
  intros Hk s b s' HP Hrun.
  apply bind_inv in Hrun as (job & s1 & H1 & Hrun). unfold makeView in H1.
  apply bind_inv in H1 as (ts & s2 & H2 & H1). injection H2 as <- <-.
  apply bind_inv in H1 as (t & s3 & H3 & H1).
  destruct (index (tasks s) tx) as [t0|] eqn:Hidx; [|done].
  injection H3 as <- <-. injection H1 as <- <-.
  by eapply Hk.
Qed.

(** [ExecVersionView.Execute] replaces one task of the batch by its state
    after the call. *)
Lemma preserves_ExecVersionView_Execute (P : State -> Prop) (ev : View) :
  (forall s, P s ->
     P (with_trace (trace s ++ [EvExecute (ev_et ev) (Incarnation (ev_ver ev))]) s)) ->
  (forall s t l',
     index (tasks s) (ev_et ev) = Some t ->
     store (tasks s) (ev_et ev) (fst (Execute t (mvh s) (Incarnation (ev_ver ev)))) = Some l' ->
     P s -> P (with_tasks l' s)) ->
  preserves P (ExecVersionView_Execute ev).
Proof.
  intros He Hw s a s' HP Hrun. unfold ExecVersionView_Execute in Hrun.
  apply bind_inv in Hrun as (ts & s1 & H1 & Hrun). injection H1 as <- <-.
  apply bind_inv in Hrun as (t & s2 & H2 & Hrun).
  destruct (index (tasks s) (ev_et ev)) as [t0|] eqn:Hidx; [|done].
  injection H2 as <- <-.
  apply bind_inv in Hrun as (m & s3 & H3 & Hrun). injection H3 as <- <-.
  apply bind_inv in Hrun as (u & s4 & H4 & Hrun). injection H4 as _ <-.
  cbn [tasks mvh with_trace] in Hrun.
  destruct (Execute t0 (mvh s) (Incarnation (ev_ver ev))) as [t' e] eqn:Hex.
  apply bind_inv in Hrun as (l' & s5 & H5 & Hrun).
  destruct (store (tasks s) (ev_et ev) t') as [l1|] eqn:Hst; [|done].
  injection H5 as <- <-.
  apply bind_inv in Hrun as (u' & s6 & H6 & Hrun). injection H6 as _ <-.
  assert (Hs' : P (with_tasks l1
                     (with_trace (trace s ++ [EvExecute (ev_et ev) (Incarnation (ev_ver ev))]) s))).
  { apply (Hw _ t0); cbn [tasks mvh with_trace];
      [done|by rewrite Hex|by apply He]. }
  destruct e; injection Hrun as _ <-; exact Hs'.
Qed.

(** A job is sent right after [makeView] made it. *)
Lemma preserves_sendView (P : State -> Prop) (tx inc : Z) (c : Chan) :
  (forall s t,
     index (tasks s) tx = Some t -> P s ->
     P (with_taskChan c (taskChan c s ++ [mkView (mkVersion tx inc) tx (Sender t)])
          (with_trace
             (trace s ++ [EvSendTask c (mkView (mkVersion tx inc) tx (Sender t))]) s))) ->
  preserves P (bind (makeView tx inc) (fun job => sendTask c job)).
Proof.
  intros Hw s b s' HP Hrun.
  apply bind_inv in Hrun as (job & s1 & H1 & Hrun). unfold makeView in H1.
  apply bind_inv in H1 as (ts & s2 & H2 & H1). injection H2 as <- <-.
  apply bind_inv in H1 as (t & s3 & H3 & H1).
  destruct (index (tasks s) tx) as [t0|] eqn:Hidx; [|done].
  injection H3 as <- <-. injection H1 as <- <-.
  unfold sendTask in Hrun.
  apply bind_inv in Hrun as (u & s1 & H1 & Hrun). injection H1 as _ <-.
  injection Hrun as _ <-.
  specialize (Hw s t0 Hidx HP). by destruct c.
Qed.

(** A set of indices read from the state is pushed at once. *)
Lemma preserves_gets_pushPendingSet (P : State -> Prop) (f : State -> list Z) (mu : Mgr) :
  (forall s, P s -> P (with_trace (trace s ++ [EvStatus mu (PushPendingSet (f s))]) s)) ->
  (forall s, P s -> P (with_manager mu (Status.pushPendingSet (f s) (manager mu s)) s)) ->
  (forall s tr, f (with_trace tr s) = f s) ->
  preserves P (bind (gets f) (fun range => pushPendingSet mu range)).
Proof.
  intros He Hw Hf s b s' HP Hrun.
  apply bind_inv in Hrun as (range & s1 & H1 & Hrun). injection H1 as <- <-.
  unfold pushPendingSet, statusCall in Hrun.
  apply bind_inv in Hrun as (u & s1 & H1 & Hrun). injection H1 as _ <-.
  injection Hrun as _ <-.
  specialize (Hw _ (He s HP)). by rewrite Hf in Hw.
Qed.

Lemma preserves_gets_pushPendingSet_bind {B} (P : State -> Prop) (f : State -> list Z)
    (mu : Mgr) (k : M B) :
  (forall s, P s -> P (with_trace (trace s ++ [EvStatus mu (PushPendingSet (f s))]) s)) ->
  (forall s, P s -> P (with_manager mu (Status.pushPendingSet (f s) (manager mu s)) s)) ->
  (forall s tr, f (with_trace tr s) = f s) ->
  preserves P k ->
  preserves P (bind (gets f) (fun range => bind (pushPendingSet mu range) (fun _ => k))).
Proof.
  intros He Hw Hf Hk s b s' HP Hrun.
  apply bind_inv in Hrun as (range & s1 & H1 & Hrun). injection H1 as <- <-.
  apply bind_inv in Hrun as (u0 & s0 & H0' & Hrun).
  unfold pushPendingSet, statusCall in H0'.
  apply bind_inv in H0' as (u & s1 & H1 & H2). injection H1 as _ <-.
  injection H2 as _ <-.
  eapply Hk; [|exact Hrun].
  specialize (Hw _ (He s HP)). by rewrite Hf in Hw.
Qed.

(** *** The loops *)

Lemma preserves_dropEstimates (P : State -> Prop) (ti dep : Z) :
  (forall e, preserves P (removeDependency ExecTasks e)) ->
  (forall l, preserves P (setEstimates ti l)) ->
  forall l, preserves P (dropEstimates l ti dep).
Proof.
  intros Hr Hs l. induction l as [|l IH]; simpl; [apply preserves_ret|].
  apply preserves_bind; [apply preserves_gets|intros deps].
  apply preserves_bind; [apply preserves_lift|intros e].
  case_decide; [|apply preserves_ret].
  apply preserves_bind; [apply Hr|intros _].
  apply preserves_bind; [apply Hs|intros _]. exact IH.
Qed.

Lemma preserves_drainValidations (P : State -> Prop) (maxComplete : Z) :
  preserves P (takeNextPending ValidateTasks) ->
  forall n acc, preserves P (drainValidations n maxComplete acc).
Proof.
  intros Ht n. induction n as [|n IH]; intros acc; simpl; [apply preserves_ret|].
  apply preserves_bind; [apply preserves_gets|intros mp].
  case_decide; [|apply preserves_ret].
  apply preserves_bind; [apply Ht|intros tx]. apply IH.
Qed.

Lemma preserves_drainPending (P : State -> Prop) :
  preserves P (dispatchNext ChSpeculativeTasks) ->
  forall n, preserves P (drainPending n).
Proof.
  intros Hd n. induction n as [|n IH]; simpl; [apply preserves_ret|].
  apply preserves_bind; [apply preserves_gets|intros mp].
  case_decide; [|apply preserves_ret].
  apply preserves_bind; [apply Hd|intros _]. exact IH.
Qed.

Lemma preserves_senderLoop (P : State -> Prop) :
  (forall tx i, preserves P (addDependencies ExecTasks tx i)) ->
  (forall i, preserves P (clearPending ExecTasks i)) ->
  forall ts i prev, preserves P (senderLoop i ts prev).
Proof.
  intros Ha Hc ts. induction ts as [|t ts IH]; intros i prev; simpl;
    [apply preserves_ret|].
  apply preserves_bind; [|intros _; apply IH].
  destruct (prev !! Sender t) as [tx|]; [|apply preserves_ret].
  apply preserves_bind; [apply Ha|intros _; apply Hc].
Qed.

Lemma preserves_bootstrap (P : State -> Prop) :
  preserves P (takeNextPending ExecTasks) ->
  (forall tx, preserves P (do onDiag incCntExec then
                           let* job := makeView tx 0 in
                           sendTask ChSpeculativeTasks job)) ->
  forall n, preserves P (bootstrap n).
Proof.
  intros Ht Hs n. induction n as [|n IH]; simpl; [apply preserves_ret|].
  apply preserves_bind; [apply Ht|intros tx].
  apply preserves_bind; [|intros _; exact IH].
  case_decide; [apply Hs|apply preserves_ret].
Qed.

(** The structure of a computation, by its syntax: what is left are the
    writes, as goals [forall s, P s -> P (f s)]. *)
Ltac head_of t :=
  lazymatch t with
  | ?f _ => head_of f
  | _ => t
  end.

Ltac keeps_with leaf :=
  repeat first
    [ leaf
    | lazymatch goal with
    | |- preserves _ (bind (makeView _ _) (fun job => sendTask _ job)) =>
        apply preserves_sendView
    | |- preserves _ (bind (gets _) (fun range => pushPendingSet _ range)) =>
        apply preserves_gets_pushPendingSet; [| |reflexivity]
    | |- preserves _ (bind (gets _)
                        (fun range => bind (pushPendingSet _ range) (fun _ => ?k))) =>
        apply preserves_gets_pushPendingSet_bind; [| |reflexivity|]
    | |- preserves _ (bind (makeView _ _) _) => apply preserves_makeView_bind; intros ?
    | |- preserves _ (bind _ _) => apply preserves_bind; [|intros ?]
    | |- preserves _ (ret _) => apply preserves_ret
    | |- preserves _ (gets _) => apply preserves_gets
    | |- preserves _ (lift _) => apply preserves_lift
    | |- preserves _ (@panic _) => apply preserves_panic
    | |- preserves _ (forM_ _ _) => apply preserves_forM_; intros ?
    | |- preserves _ (modify _) => apply preserves_modify
    | |- preserves _ (emit _) => apply preserves_emit
    | |- preserves _ (takeNextPending _) => apply preserves_takeNextPending
    | |- preserves _ (addDependencies _ _ _) => apply preserves_addDependencies
    | |- preserves _ (txioRecordRead _ _) => apply preserves_txioRecordRead
    | |- preserves _ (txioRecordWrite _ _) => apply preserves_txioRecordWrite
    | |- preserves _ (txioRecordAllWrite _ _) => apply preserves_txioRecordAllWrite
    | |- preserves _ (bumpIncarnation _) => apply preserves_bumpIncarnation
    | |- preserves _ (bumpDiagExecSuccess _) => apply preserves_bumpDiagExecSuccess
    | |- preserves _ (bumpDiagExecAbort _) => apply preserves_bumpDiagExecAbort
    | |- preserves _ (ExecVersionView_Execute _) => apply preserves_ExecVersionView_Execute
    | |- preserves _ (dropEstimates _ _ _) =>
        apply preserves_dropEstimates; [intros ?|intros ?]
    | |- preserves _ (drainValidations _ _ _) => apply preserves_drainValidations
    | |- preserves _ (drainPending _) => apply preserves_drainPending
    | |- preserves _ (senderLoop _ _ _) =>
        apply preserves_senderLoop; [intros ? ?|intros ?]
    | |- preserves _ (bootstrap _) => apply preserves_bootstrap; [|intros ?]
    | |- preserves _ (if ?b then _ else _) => destruct b
    | |- preserves _ (match ?x with _ => _ end) => destruct x
    | |- preserves _ ?m => let h := head_of m in unfold h
    end ].

Ltac keeps := keeps_with fail.

(** *** The lengths of the per-index slices *)

(** The slices indexed by a transaction index have the length of the
    batch. *)
Definition shaped (s : State) : Prop :=
  length (inputs (lastTxIO s)) = length (tasks s) /\
  length (outputs (lastTxIO s)) = length (tasks s) /\
  length (allOutputs (lastTxIO s)) = length (tasks s) /\
  length (txIncarnations s) = length (tasks s) /\
  length (diagExecSuccess (diag s)) = length (tasks s) /\
  length (diagExecAbort (diag s)) = length (tasks s).

Lemma incrAt_length (l l' : list Z) (i : Z) : incrAt l i = Some l' -> length l' = length l.
Proof.
  unfold incrAt. destruct (index l i) as [x|]; [|done]. simpl. apply store_length.
Qed.

Lemma recordRead_lengths (io io' : TxnInputOutput Key Val) ti x :
  recordRead io ti x = Some io' ->
  length (inputs io') = length (inputs io) /\ outputs io' = outputs io /\
  allOutputs io' = allOutputs io.
Proof.
  unfold recordRead. destruct (store (inputs io) ti x) as [l|] eqn:Hst; [|done].
  simpl. intros [= <-]. simpl. split; [by eapply store_length|done].
Qed.

Lemma recordWrite_lengths (io io' : TxnInputOutput Key Val) ti x :
  recordWrite io ti x = Some io' ->
  inputs io' = inputs io /\ length (outputs io') = length (outputs io) /\
  allOutputs io' = allOutputs io.
Proof.
  unfold recordWrite. destruct (store (outputs io) ti x) as [l|] eqn:Hst; [|done].
  simpl. intros [= <-]. simpl. split; [done|]. split; [by eapply store_length|done].
Qed.

Lemma recordAllWrite_lengths (io io' : TxnInputOutput Key Val) ti x :
  recordAllWrite io ti x = Some io' ->
  inputs io' = inputs io /\ outputs io' = outputs io /\
  length (allOutputs io') = length (allOutputs io).
Proof.
  unfold recordAllWrite. destruct (store (allOutputs io) ti x) as [l|] eqn:Hst; [|done].
  simpl. intros [= <-]. simpl. split; [done|]. split; [done|by eapply store_length].
Qed.

(** *** The shape of a turn *)

Lemma coordinatorTurn_cases (s : State) (ctl : LoopCtl) (s' : State) :
  coordinatorTurn s = Ok ctl s' ->
  (chResults s = [] /\ chSpeculativeResults s = [] /\ ctl = Continue /\ s' = s) \/
  (exists c res rest,
     (c = ChResults /\ chResults s = res :: rest \/
      c = ChSpeculativeResults /\ chResults s = [] /\
      chSpeculativeResults s = res :: rest) /\
     iteration res
       (with_trace (trace s ++ [EvRecvResult c res]) (with_resultChan c rest s))
     = Ok ctl s').
Proof.
  intros Hturn. unfold coordinatorTurn in Hturn.
  apply bind_inv in Hturn as (s0 & s1 & H0' & Hturn). injection H0' as <- <-.
  destruct (chResults s) as [|res rest] eqn:Hc.
  - destruct (chSpeculativeResults s) as [|res rest] eqn:Hsc.
    + left. by injection Hturn as <- <-.
    + right. exists ChSpeculativeResults, res, rest. split; [by right|].
      apply bind_inv in Hturn as (u1 & s1 & H1 & Hturn). injection H1 as _ <-.
      apply bind_inv in Hturn as (u2 & s2 & H2 & Hturn). injection H2 as _ <-.
      exact Hturn.
  - right. exists ChResults, res, rest. split; [by left|].
    apply bind_inv in Hturn as (u1 & s1 & H1 & Hturn). injection H1 as _ <-.
    apply bind_inv in Hturn as (u2 & s2 & H2 & Hturn). injection H2 as _ <-.
    exact Hturn.
Qed.

Lemma iteration_cases (res : Result) (s : State) (ctl : LoopCtl) (s' : State) :
  iteration res s = Ok ctl s' ->
  (err res = None /\
   exists s1, handleSuccess res s = Ok tt s1 /\ afterResult s1 = Ok ctl s') \/
  (exists e dep, err res = Some e /\ isExecAbort e = Some dep /\
   exists s1, handleAbort res dep s = Ok tt s1 /\ afterResult s1 = Ok ctl s') \/
  (exists e, err res = Some e /\ isExecAbort e = None /\
   ctl = Break /\ s' = with_returnErr (Some e) s).
Proof.
  intros Hrun. unfold iteration in Hrun.
  destruct (err res) as [e|] eqn:He.
  - destruct (isExecAbort e) as [dep|] eqn:Hab.
    + right. left. exists e, dep. split; [done|]. split; [done|].
      apply bind_inv in Hrun as ([] & s1 & H1 & H2). by exists s1.
    + right. right. exists e. split; [done|]. split; [done|].
      by injection Hrun as <- <-.
  - left. split; [done|].
    apply bind_inv in Hrun as ([] & s1 & H1 & H2). by exists s1.
Qed.

(** The test at the end of the loop body. *)
Definition allDone (s : State) : Prop :=
  Status.countComplete (validateTasks s) = Z.of_nat (length (tasks s)) /\
  Status.countComplete (execTasks s) = Z.of_nat (length (tasks s)).

Lemma checkDone_cases (s : State) (ctl : LoopCtl) (s' : State) :
  checkDone s = Ok ctl s' ->
  (allDone s /\ ctl = Break /\
   s' = with_trace
          (trace s ++ [EvLogSummary (cntExec (diag s)) (cntSuccess (diag s))
                         (cntAbort (diag s)) (cntTotalValidations (diag s))
                         (cntValidationFail (diag s))]) s) \/
  (~ allDone s /\ ctl = Continue /\ s' = s).
Proof.
  intros Hrun. unfold checkDone in Hrun.
  apply bind_inv in Hrun as (s0 & s1 & H0' & Hrun). injection H0' as <- <-.
  case_decide as Hd.
  - left. split; [exact Hd|]. unfold logSummary in Hrun.
    apply bind_inv in Hrun as (u & s1 & H1 & Hrun).
    apply bind_inv in H1 as (d & s2 & H2 & H1). injection H2 as <- <-.
    injection H1 as _ <-. by injection Hrun as <- <-.
  - right. split; [exact Hd|]. by injection Hrun as <- <-.
Qed.

Lemma afterResult_cases (s : State) (ctl : LoopCtl) (s' : State) :
  afterResult s = Ok ctl s' ->
  exists s1 s2,
    doValidations s = Ok tt s1 /\ dispatch s1 = Ok tt s2 /\ checkDone s2 = Ok ctl s'.
Proof.
  intros Hrun. unfold afterResult in Hrun.
  apply bind_inv in Hrun as ([] & s1 & H1 & Hrun).
  apply bind_inv in Hrun as ([] & s2 & H2 & Hrun). by exists s1, s2.
Qed.

Lemma workerTurn_cases (p : nat) (w : Worker) (s : State) (w' : Worker) (s' : State) :
  workerTurn p w s = Ok w' s' ->
  match w with
  | Idle =>
      (taskChan (workerTaskChan p) s = [] /\ w' = Idle /\ s' = s) \/
      (exists task rest res,
         taskChan (workerTaskChan p) s = task :: rest /\
         ExecVersionView_Execute task
           (with_trace (trace s ++ [EvRecvTask (workerTaskChan p) task])
              (with_taskChan (workerTaskChan p) rest s)) = Ok res s' /\
         w' = Executed res)
  | Executed res =>
      w' = Sending res /\ doWork_flush res s = Ok tt s'
  | Sending res =>
      w' = Idle /\ sendResult (workerResultChan p) res s = Ok tt s'
  end.
Proof.
  intros Hrun. destruct w as [|res|res]; simpl in Hrun.
  - apply bind_inv in Hrun as (q & s1 & H1 & Hrun). injection H1 as <- <-.
    destruct (taskChan (workerTaskChan p) s) as [|task rest] eqn:Hq.
    + left. by injection Hrun as <- <-.
    + right.
      apply bind_inv in Hrun as (u1 & s1 & H1 & Hrun). injection H1 as _ <-.
      apply bind_inv in Hrun as (u2 & s2 & H2 & Hrun). injection H2 as _ <-.
      apply bind_inv in Hrun as (res & s3 & H3 & Hrun). injection Hrun as <- <-.
      exists task, rest, res. split; [done|]. split; [|done].
      rewrite <- H3. by destruct (workerTaskChan p).
  - apply bind_inv in Hrun as ([] & s1 & H1 & Hrun). by injection Hrun as <- <-.
  - apply bind_inv in Hrun as ([] & s1 & H1 & Hrun). by injection Hrun as <- <-.
Qed.

Lemma run_invariant (I : System -> Prop) :
  (forall sys t, I sys -> I (step sys t)) ->
  forall sched sys, I sys -> I (run sys sched).
Proof.
  intros Hstep sched. induction sched as [|t sched IH]; intros sys Hsys; [done|].
  simpl. apply IH. by apply Hstep.
Qed.

(** A write on what a property does not read. *)
Ltac frame_write :=
  intros;
  repeat match goal with
         | H : store _ _ _ = Some _ |- _ => apply store_length in H
         | mu : Mgr |- _ => destruct mu
         | c : Chan |- _ => destruct c
         end;
  unfold workerTaskChan, workerResultChan in *;
  repeat case_decide; simpl in *; intuition congruence.

(** *** Who writes what *)

Lemma ExecVersionView_Execute_inv (ev : View) (s : State) (res : Result) (s' : State) :
  ExecVersionView_Execute ev s = Ok res s' ->
  exists t,
    index (tasks s) (ev_et ev) = Some t /\
    let t' := fst (Execute t (mvh s) (Incarnation (ev_ver ev))) in
    let e := snd (Execute t (mvh s) (Incarnation (ev_ver ev))) in
    ver res = ev_ver ev /\ err res = e /\
    (e <> None -> txIn res = [] /\ txOut res = [] /\ txAllOut res = []) /\
    (e = None ->
       txIn res = MVReadList t' /\ txOut res = MVWriteList t' /\
       txAllOut res = MVFullWriteList t') /\
    s' = with_tasks (<[Z.to_nat (ev_et ev) := t']> (tasks s))
           (with_trace (trace s ++ [EvExecute (ev_et ev) (Incarnation (ev_ver ev))]) s).
Proof.
  intros Hrun. unfold ExecVersionView_Execute in Hrun.
  apply bind_inv in Hrun as (ts & s1 & H1 & Hrun). injection H1 as <- <-.
  apply bind_inv in Hrun as (t & s2 & H2 & Hrun).
  destruct (index (tasks s) (ev_et ev)) as [t0|] eqn:Hidx; [|done].
  injection H2 as <- <-. exists t0. split; [done|].
  apply bind_inv in Hrun as (m & s3 & H3 & Hrun). injection H3 as <- <-.
  apply bind_inv in Hrun as (u & s4 & H4 & Hrun). injection H4 as _ <-.
  destruct (Execute t0 (mvh s) (Incarnation (ev_ver ev))) as [t' e] eqn:Hex.
  apply bind_inv in Hrun as (l' & s5 & H5 & Hrun).
  rewrite (store_Some (tasks s)) in H5 by by eapply index_range.
  injection H5 as <- <-.
  apply bind_inv in Hrun as (u' & s6 & H6 & Hrun). injection H6 as _ <-.
  simpl. destruct e as [e|]; injection Hrun as <- <-; simpl;
    (split; [done|]); (split; [done|]); (split; [done|]); done.
Qed.


(** X10. A worker never touches the bookkeeping of the coordinator: the two
    status managers, the input/output table, the incarnations, the
    estimates, the counters and the error of [ExecuteParallel] are the
    same after each of its turns, and so is the size of the batch. It
    only takes from its task channel and only adds to a result channel. *)
Theorem workerTurn_frame (p : nat) (w : Worker) (s : State) (w' : Worker) (s' : State) :
  workerTurn p w s = Ok w' s' ->
  execTasks s' = execTasks s /\ validateTasks s' = validateTasks s /\
  lastTxIO s' = lastTxIO s /\ txIncarnations s' = txIncarnations s /\
  estimateDeps s' = estimateDeps s /\ diag s' = diag s /\
  returnErr s' = returnErr s /\ length (tasks s') = length (tasks s) /\
  chTasks s' `suffix_of` chTasks s /\
  chSpeculativeTasks s' `suffix_of` chSpeculativeTasks s /\
  chResults s `prefix_of` chResults s' /\
  chSpeculativeResults s `prefix_of` chSpeculativeResults s'.
Proof.
  intros Hrun.
  assert (Hbook : execTasks s' = execTasks s /\ validateTasks s' = validateTasks s /\
                  lastTxIO s' = lastTxIO s /\ txIncarnations s' = txIncarnations s /\
                  estimateDeps s' = estimateDeps s /\ diag s' = diag s /\
                  returnErr s' = returnErr s /\ length (tasks s') = length (tasks s)).
  { assert (Hp : preserves
                   (fun x => execTasks x = execTasks s /\ validateTasks x = validateTasks s /\
                             lastTxIO x = lastTxIO s /\ txIncarnations x = txIncarnations s /\
                             estimateDeps x = estimateDeps s /\ diag x = diag s /\
                             returnErr x = returnErr s /\ length (tasks x) = length (tasks s))
                   (workerTurn p w)) by (keeps; frame_write).
    eapply Hp; [|exact Hrun]. done. }
  destruct Hbook as (Hb1 & Hb2 & Hb3 & Hb4 & Hb5 & Hb6 & Hb7 & Hb8).
  repeat (split; [done|]).
  apply workerTurn_cases in Hrun. destruct w as [|res|res].
  - destruct Hrun as [(Hq & -> & ->)|(task & rest & res & Hq & Hex & ->)]; [done|].
    apply ExecVersionView_Execute_inv in Hex as (t & _ & Hres). simpl in Hres.
    destruct Hres as (_ & _ & _ & _ & ->).
    unfold workerTaskChan in *. case_decide; simpl in *; rewrite Hq;
      repeat split; try done; by apply suffix_cons_r.
  - destruct Hrun as [-> Hrun]. unfold doWork_flush in Hrun.
    destruct (err res); [by injection Hrun as <-|].
    unfold mvhFlushMVWriteSet in Hrun.
    apply bind_inv in Hrun as (u & s1 & H1 & Hrun). injection H1 as _ <-.
    by injection Hrun as <-.
  - destruct Hrun as [-> Hrun]. unfold sendResult in Hrun.
    apply bind_inv in Hrun as (u & s1 & H1 & Hrun). injection H1 as _ <-.
    injection Hrun as <-. unfold workerResultChan. case_decide; simpl;
      repeat split; try done; by apply prefix_app_r.
Qed.

(** X11. The coordinator never runs a task and never produces a result: after
    each of its turns the tasks are the same, the task channels have only
    grown at their ends, and the result channels have only lost their
    heads. *)
Theorem coordinatorTurn_frame (s : State) (ctl : LoopCtl) (s' : State) :
  coordinatorTurn s = Ok ctl s' ->
  tasks s' = tasks s /\
  chTasks s `prefix_of` chTasks s' /\
  chSpeculativeTasks s `prefix_of` chSpeculativeTasks s' /\
  chResults s' `suffix_of` chResults s /\
  chSpeculativeResults s' `suffix_of` chSpeculativeResults s.
Proof.
  intros Hrun.
  apply coordinatorTurn_cases in Hrun
    as [(_ & _ & _ & ->)|(c & res & rest & Hc & Hrun)]; [done|].
  set (s0 := with_trace (trace s ++ [EvRecvResult c res]) (with_resultChan c rest s)) in *.
  assert (Hp : preserves
                 (fun x => tasks x = tasks s0 /\
                           chTasks s0 `prefix_of` chTasks x /\
                           chSpeculativeTasks s0 `prefix_of` chSpeculativeTasks x /\
                           chResults x = chResults s0 /\
                           chSpeculativeResults x = chSpeculativeResults s0)
                 (iteration res)).
  { keeps; intros;
      repeat match goal with
             | mu : Mgr |- _ => destruct mu
             | c : Chan |- _ => destruct c
             end;
      simpl in *; intuition (first [congruence | by apply prefix_app_r]). }
  destruct (Hp s0 ctl s') as (Ht & Hq1 & Hq2 & Hr1 & Hr2); [done|exact Hrun|].
  rewrite Ht, Hr1, Hr2. subst s0.
  destruct Hc as [[-> Hc]|(-> & Hc1 & Hc2)]; simpl in *.
  - rewrite Hc. repeat split; try done. by apply suffix_cons_r.
  - rewrite Hc2. repeat split; try done. by apply suffix_cons_r.
Qed.

(** *** A nil error means that every transaction succeeded *)

Lemma complete_takeNextPending (m : Status.StatusManager) :
  Status.complete (snd (Status.takeNextPending m)) = Status.complete m.
Proof. unfold Status.takeNextPending. by destruct (Status.pending m). Qed.

Lemma complete_addDependencies (b d : Z) (m : Status.StatusManager) :
  Status.complete (snd (Status.addDependencies b d m)) = Status.complete m.
Proof. unfold Status.addDependencies. by destruct (Status.checkComplete b m). Qed.

Lemma complete_removeDependency (i : Z) (m : Status.StatusManager) :
  Status.complete (Status.removeDependency i m) = Status.complete m.
Proof. by destruct (removeDependency_spec i m) as (_ & -> & _). Qed.

(** Index [i] was reported: the coordinator has received a result of [i]
    without error. *)
Definition reported (tr : list Ev) (i : Z) : Prop :=
  exists r, r ∈ received tr /\ err r = None /\ TxnIndex (ver r) = i.

Lemma reported_app (tr tr' : list Ev) (i : Z) : reported tr i -> reported (tr ++ tr') i.
Proof.
  intros (r & Hr & He & Hi). exists r. rewrite received_app, elem_of_app. auto.
Qed.

(** The complete indices of the execution manager are indices of the
    batch that were reported. *)
Definition goodComplete (n : nat) (tr : list Ev) (l : list Z) : Prop :=
  Status.ascending l /\ forall i, i ∈ l -> 0 <= i < Z.of_nat n /\ reported tr i.

Lemma goodComplete_app n tr tr' l : goodComplete n tr l -> goodComplete n (tr ++ tr') l.
Proof.
  intros [Ha Hl]. split; [done|]. intros i Hi. destruct (Hl i Hi) as [? ?].
  split; [done|]. by apply reported_app.
Qed.

Lemma goodComplete_insert n tr l i :
  goodComplete n tr l -> 0 <= i < Z.of_nat n -> reported tr i ->
  goodComplete n tr (Status.insertInList l i).
Proof.
  intros [Ha Hl] Hi Hr. split; [by apply Status.insertInList_ascending|].
  intros j [->|Hj]%Status.insertInList_elem; [done|]. by apply Hl.
Qed.

Lemma goodComplete_remove n tr l i :
  goodComplete n tr l -> goodComplete n tr (Status.removeFromList l i).
Proof.
  intros [Ha Hl]. split; [by apply Status.removeFromList_ascending|].
  intros j [_ Hj]%Status.removeFromList_elem. by apply Hl.
Qed.

Lemma goodComplete_nil n tr : goodComplete n tr [].
Proof. split; [constructor|]. intros i Hi. by apply elem_of_nil in Hi. Qed.

Definition completeReported (s : State) : Prop :=
  length (inputs (lastTxIO s)) = length (tasks s) /\
  goodComplete (length (tasks s)) (trace s) (Status.complete (execTasks s)).

(** The same, while the coordinator handles a successful result of
    [ti]. *)
Definition completeReportedAt (ti : Z) (s : State) : Prop :=
  completeReported s /\ validIndex s ti /\ reported (trace s) ti.

Ltac completeReported_write :=
  intros;
  repeat match goal with
         | H : recordRead _ _ _ = Some _ |- _ =>
             destruct (recordRead_lengths _ _ _ _ H) as (? & ? & ?); clear H
         | H : recordWrite _ _ _ = Some _ |- _ =>
             destruct (recordWrite_lengths _ _ _ _ H) as (? & ? & ?); clear H
         | H : recordAllWrite _ _ _ = Some _ |- _ =>
             destruct (recordAllWrite_lengths _ _ _ _ H) as (? & ? & ?); clear H
         | H : store _ _ _ = Some _ |- _ => apply store_length in H
         | mu : Mgr |- _ => destruct mu
         | c : Chan |- _ => destruct c
         end;
  unfold completeReportedAt, completeReported, validIndex,
    workerTaskChan, workerResultChan in *;
  repeat case_decide;
  cbn [manager with_manager taskChan with_taskChan resultChan with_resultChan
       with_tasks with_mvh with_chTasks with_chSpeculativeTasks with_chResults
       with_chSpeculativeResults with_execTasks with_validateTasks with_lastTxIO
       with_txIncarnations with_estimateDeps with_diag with_returnErr with_trace
       tasks mvh chTasks chSpeculativeTasks chResults chSpeculativeResults
       execTasks validateTasks lastTxIO txIncarnations estimateDeps diag
       returnErr trace] in *;
  rewrite ?complete_takeNextPending, ?complete_addDependencies,
    ?complete_removeDependency;
  cbn [Status.complete Status.pushPending Status.markComplete Status.clearInProgress
       Status.clearComplete Status.clearPending Status.makeStatusManager];
  repeat match goal with
         | H : length ?l = _ |- context [length ?l] => rewrite H
         end;
  intuition (eauto using goodComplete_app, goodComplete_insert, goodComplete_remove,
               goodComplete_nil, reported_app; try congruence).

Lemma txioRecordRead_range (ti : Z) (x : TxnInput Key) (s : State) (u : unit) (s' : State) :
  txioRecordRead ti x s = Ok u s' -> 0 <= ti < Z.of_nat (length (inputs (lastTxIO s))).
Proof.
  intros Hrun. unfold txioRecordRead in Hrun.
  apply bind_inv in Hrun as (io & s1 & H1 & Hrun). injection H1 as <- <-.
  apply bind_inv in Hrun as (io' & s2 & H2 & Hrun).
  unfold recordRead, store in H2. by case_decide.
Qed.

Lemma completeReported_handleSuccess (res : Result) (s : State) (u : unit) (s' : State) :
  completeReported s -> reported (trace s) (TxnIndex (ver res)) ->
  handleSuccess res s = Ok u s' -> completeReported s'.
Proof.
  intros Hs Hrep Hrun.
  assert (Hp : preserves (completeReportedAt (TxnIndex (ver res))) (handleSuccess res))
    by (keeps; completeReported_write).
  apply (Hp s u s'); [|exact Hrun]. split; [done|]. split; [|done].
  unfold handleSuccess in Hrun. apply bind_inv in Hrun as (u1 & s1 & H1 & _).
  apply txioRecordRead_range in H1. unfold validIndex. destruct Hs as [<- _]. done.
Qed.

Lemma completeReported_handleAbort res dep : preserves completeReported (handleAbort res dep).
Proof. keeps; completeReported_write. Qed.

Lemma completeReported_doValidations : preserves completeReported doValidations.
Proof. keeps; completeReported_write. Qed.

Lemma completeReported_dispatch : preserves completeReported dispatch.
Proof. keeps; completeReported_write. Qed.

Lemma completeReported_workerTurn p w : preserves completeReported (workerTurn p w).
Proof. keeps; completeReported_write. Qed.


(** *** The set-up *)

(** The calls [addDependencies(tx, i); clearPending(i)] of the loop over
    the senders, as pairs [(tx, i)]; [ss] are the senders of the tasks
    from index [i] on. *)
Fixpoint senderCalls (i : Z) (ss : list Address) (prevSenderTx : gmap Address Z)
  : list (Z * Z) :=
  match ss with
  | [] => []
  | a :: rest =>
      match prevSenderTx !! a with
      | Some tx => [(tx, i)]
      | None => []
      end ++ senderCalls (i + 1) rest (<[a := i]> prevSenderTx)
  end.

Definition chain (m : Status.StatusManager) (e : Z * Z) : Status.StatusManager :=
  Status.clearPending (snd e) (snd (Status.addDependencies (fst e) (snd e) m)).

Definition chainCalls (e : Z * Z) : list Ev :=
  [EvStatus ExecTasks (AddDependencies (fst e) (snd e));
   EvStatus ExecTasks (ClearPending (snd e))].

Lemma senderLoop_spec (ts : list T) (i : Z) (prev : gmap Address Z) (s : State) :
  senderLoop i ts prev s =
  Ok tt (with_trace (trace s ++ (senderCalls i (Sender <$> ts) prev ≫= chainCalls))
           (with_execTasks (foldl chain (execTasks s) (senderCalls i (Sender <$> ts) prev))
              s)).
Proof.
  revert i prev s. induction ts as [|t ts IH]; intros i prev s.
  - destruct s. simpl. mstep. by rewrite app_nil_r.
  - simpl senderLoop. simpl fmap. simpl senderCalls.
    destruct (prev !! Sender t) as [tx|] eqn:Hprev.
    + erewrite bind_Ok; [|reflexivity]. rewrite IH.
      destruct s. mstep. simpl. rewrite <- !app_assoc. reflexivity.
    + erewrite bind_Ok; [|reflexivity]. rewrite IH.
      destruct s. mstep. reflexivity.
Qed.

(** The job of the bootstrap for index [x]. *)
Definition firstView (ts : list T) (x : Z) : option View :=
  t ← index ts x; Some (mkView (mkVersion x 0) x (Sender t)).

Lemma bootstrap_spec (k : nat) (s : State) (jobs : list View) :
  Forall (fun x => x <> -1) (take k (Status.pending (execTasks s))) ->
  mapM (firstView (tasks s)) (take k (Status.pending (execTasks s))) = Some jobs ->
  bootstrap k s =
  Ok tt (with_chSpeculativeTasks (chSpeculativeTasks s ++ jobs)
           (with_trace (trace s ++ (jobs ≫= dispatchCalls ChSpeculativeTasks) ++
                          replicate (k - length jobs) (EvStatus ExecTasks TakeNextPending))
              (with_diag (Nat.iter (length jobs) incCntExec (diag s))
                 (with_execTasks (takeMany k (execTasks s)) s)))).
Proof.
  revert s jobs. induction k as [|k IH]; intros s jobs Hne Hjobs.
  - simpl in Hjobs. injection Hjobs as <-. destruct s. simpl. mstep.
    rewrite !app_nil_r. reflexivity.
  - simpl bootstrap.
    destruct (Status.pending (execTasks s)) as [|x rest] eqn:Hp.
    + simpl in Hjobs. injection Hjobs as <-.
      unfold takeNextPending.
      destruct s as [ts m c1 c2 c3 c4 et vt io incs est d re tr].
      cbn [execTasks] in Hp. mstep. unfold Status.takeNextPending. rewrite Hp.
      cbn [fst snd]. rewrite decide_False by lia.
      rewrite (IH _ []).
      * mstep. rewrite takeMany_S. unfold Status.takeNextPending. rewrite Hp.
        cbn [snd]. simpl length. rewrite !Nat.sub_0_r. simpl.
        rewrite !app_nil_r, <- app_assoc. reflexivity.
      * mstep. rewrite Hp. by rewrite take_nil.
      * mstep. rewrite Hp. by rewrite take_nil.
    + simpl in Hne. apply Forall_cons in Hne as [Hx Hne].
      simpl in Hjobs.
      destruct (firstView (tasks s) x) as [job|] eqn:Hjob; [|done].
      simpl in Hjobs.
      destruct (mapM (firstView (tasks s)) (take k rest)) as [jobs'|] eqn:Hrest; [|done].
      simpl in Hjobs. injection Hjobs as <-.
      unfold takeNextPending, makeView.
      destruct s as [ts m c1 c2 c3 c4 et vt io incs est d re tr].
      cbn [execTasks tasks] in *. unfold firstView in Hjob.
      destruct (index ts x) as [t|] eqn:Ht; [|done]. simpl in Hjob.
      injection Hjob as <-.
      mstep. unfold Status.takeNextPending. rewrite Hp.
      cbn [fst snd]. rewrite decide_True by done. rewrite Ht. simpl lift. cbv iota beta.
      rewrite (IH _ jobs').
      * mstep. rewrite takeMany_S. unfold Status.takeNextPending. rewrite Hp.
        cbn [snd]. simpl length. rewrite Nat.iter_succ_r.
        simpl. rewrite <- !app_assoc. reflexivity.
      * mstep. done.
      * mstep. done.
Qed.

Lemma filter_all {A} (P : A -> Prop) `{!forall x, Decision (P x)} (l : list A) :
  (forall x, x ∈ l -> P x) -> filter P l = l.
Proof.
  induction l as [|x l IH]; intros Hall; [done|].
  rewrite filter_cons_True by (apply Hall; by left).
  rewrite IH; [done|]. intros y Hy. apply Hall. by right.
Qed.

(** The effect of the calls of the sender loop on a manager that has no
    complete index. *)
Lemma chain_spec (m : Status.StatusManager) (e : Z * Z) :
  Status.complete m = [] ->
  Status.complete (chain m e) = [] /\
  Status.inProgress (chain m e) = Status.inProgress m /\
  Status.pending (chain m e) = filter (fun x => x <> snd e) (Status.pending m) /\
  (forall x, x ∈ Status.dependency (chain m e) <-> x ∈ Status.dependency m \/ x = e).
Proof.
  intros Hc. unfold chain, Status.addDependencies, Status.checkComplete.
  rewrite Hc. rewrite bool_decide_eq_false_2 by apply not_elem_of_nil.
  simpl. split; [done|]. split; [done|]. split; [done|].
  intros x. destruct e as [b d]. simpl. case_bool_decide as Hin.
  - split; [by left|]. intros [?| ->]; done.
  - rewrite elem_of_app, list_elem_of_singleton. done.
Qed.

Lemma chains_spec (calls : list (Z * Z)) (m : Status.StatusManager) :
  Status.complete m = [] ->
  Status.complete (foldl chain m calls) = [] /\
  Status.inProgress (foldl chain m calls) = Status.inProgress m /\
  Status.pending (foldl chain m calls)
    = filter (fun x => x ∉ (snd <$> calls)) (Status.pending m) /\
  (forall x, x ∈ Status.dependency (foldl chain m calls)
             <-> x ∈ Status.dependency m \/ x ∈ calls).
Proof.
  revert m. induction calls as [|e calls IH]; intros m Hc.
  - simpl. split; [done|]. split; [done|]. split.
    + symmetry. apply filter_all. intros x _. apply not_elem_of_nil.
    + intros x. split; [by left|]. intros [?|Hx]; [done|]. by apply elem_of_nil in Hx.
  - simpl. destruct (chain_spec m e Hc) as (Hc1 & Hi1 & Hp1 & Hd1).
    destruct (IH (chain m e) Hc1) as (Hc2 & Hi2 & Hp2 & Hd2).
    split; [done|]. split; [congruence|]. split.
    + rewrite Hp2, Hp1, list_filter_filter. apply list_filter_iff.
      intros x. rewrite not_elem_of_cons. tauto.
    + intros x. rewrite Hd2, Hd1, elem_of_cons. tauto.
Qed.

(** [prev] maps each sender of [done] to the index of its last task in
    [done]. *)
Definition lastSeen (done : list Address) (prev : gmap Address Z) : Prop :=
  forall a j,
    prev !! a = Some j <->
    exists jn : nat, j = Z.of_nat jn /\ done !! jn = Some a /\
                     forall k, (jn < k)%nat -> done !! k <> Some a.

(** Index [j] is the closest index before [i] with the sender of [i]. *)
Definition closest (ss : list Address) (j i : nat) : Prop :=
  (j < i)%nat /\
  exists a, ss !! i = Some a /\ ss !! j = Some a /\
            forall k, (j < k < i)%nat -> ss !! k <> Some a.

Lemma lastSeen_nil : lastSeen [] ∅.
Proof.
  intros a j. rewrite lookup_empty. split; [done|]. by intros (jn & _ & Hl & _).
Qed.

Lemma lastSeen_snoc (done : list Address) (prev : gmap Address Z) (a : Address) :
  lastSeen done prev ->
  lastSeen (done ++ [a]) (<[a := Z.of_nat (length done)]> prev).
Proof.
  intros Hprev a' j. destruct (decide (a' = a)) as [->|Hne].
  - rewrite lookup_insert_eq. split.
    + intros [= <-]. exists (length done). split; [done|]. split.
      * by rewrite lookup_app_r, Nat.sub_diag by lia.
      * intros k Hk. rewrite lookup_ge_None_2; [done|]. rewrite length_app. simpl. lia.
    + intros (jn & -> & Hl & Hlast).
      destruct (decide (jn = length done)) as [->|Hjn]; [done|]. exfalso.
      apply lookup_lt_Some in Hl as Hlt. rewrite length_app in Hlt. simpl in Hlt.
      apply (Hlast (length done)); [lia|].
      by rewrite lookup_app_r, Nat.sub_diag by lia.
  - rewrite lookup_insert_ne by done. rewrite (Hprev a' j). split.
    + intros (jn & -> & Hl & Hlast). exists jn. split; [done|]. split.
      * by apply lookup_app_l_Some.
      * intros k Hk Hk'. apply lookup_app_Some in Hk' as [Hk'|[_ Hk']].
        -- by apply (Hlast k).
        -- apply list_lookup_singleton_Some in Hk' as [_ ?]. congruence.
    + intros (jn & -> & Hl & Hlast). exists jn. split; [done|].
      apply lookup_app_Some in Hl as [Hl|[_ Hl]].
      * split; [done|]. intros k Hk Hk'. apply (Hlast k); [done|].
        by apply lookup_app_l_Some.
      * apply list_lookup_singleton_Some in Hl as [_ ?]. congruence.
Qed.

Lemma senderCalls_spec (rest done : list Address) (prev : gmap Address Z) (b d : Z) :
  lastSeen done prev ->
  (b, d) ∈ senderCalls (Z.of_nat (length done)) rest prev <->
  exists j i : nat,
    b = Z.of_nat j /\ d = Z.of_nat i /\ (length done <= i)%nat /\
    closest (done ++ rest) j i.
Proof.
  revert done prev. induction rest as [|a rest IH]; intros done prev Hprev.
  - simpl. split; [by intros ?%elem_of_nil|].
    intros (j & i & _ & _ & Hi & _ & a & Hl & _).
    apply lookup_lt_Some in Hl. rewrite length_app in Hl. simpl in Hl. lia.
  - simpl senderCalls. rewrite elem_of_app.
    replace (Z.of_nat (length done) + 1) with (Z.of_nat (length (done ++ [a])))
      by (rewrite length_app; simpl; lia).
    rewrite (IH (done ++ [a]) _ (lastSeen_snoc _ _ _ Hprev)).
    rewrite <- app_assoc. simpl app.
    assert (Hhere : (done ++ a :: rest) !! length done = Some a).
    { by rewrite lookup_app_r, Nat.sub_diag by lia. }
    split.
    + intros [Hin|(j & i & -> & -> & Hi & Hcl)].
      * destruct (prev !! a) as [tx|] eqn:Hp; [|by apply elem_of_nil in Hin].
        apply list_elem_of_singleton in Hin. injection Hin as -> ->.
        apply (Hprev a tx) in Hp as (jn & -> & Hl & Hlast).
        exists jn, (length done). split; [done|]. split; [done|]. split; [lia|].
        apply lookup_lt_Some in Hl as Hlt. split; [done|].
        exists a. split; [done|]. split; [by apply lookup_app_l_Some|].
        intros k Hk Hk'. apply (Hlast k); [lia|].
        by rewrite lookup_app_l in Hk' by lia.
      * exists j, i. rewrite length_app in Hi. simpl in Hi.
        split; [done|]. split; [done|]. split; [lia|done].
    + intros (j & i & -> & -> & Hi & Hcl).
      destruct (decide (i = length done)) as [->|Hne].
      * left. destruct Hcl as (Hji & a' & Hl & Hj & Hlast).
        rewrite Hhere in Hl. injection Hl as <-.
        assert (Hp : prev !! a = Some (Z.of_nat j)).
        { apply Hprev. exists j. split; [done|]. split.
          - by rewrite lookup_app_l in Hj by lia.
          - intros k Hk Hk'. apply lookup_lt_Some in Hk' as Hlt.
            apply (Hlast k); [lia|]. by apply lookup_app_l_Some. }
        rewrite Hp. by apply list_elem_of_singleton.
      * right. exists j, i. split; [done|]. split; [done|]. split; [|done].
        rewrite length_app. simpl. lia.
Qed.

(** The pairs (closest earlier index of the same sender, index) of a
    batch, and the indices that have no such pair. *)
Definition chained (ts : list T) : list (Z * Z) :=
  senderCalls 0 (Sender <$> ts) ∅.

Definition firsts (ts : list T) : list Z :=
  filter (fun x => x ∉ (snd <$> chained ts)) (Z.of_nat <$> seq 0 (length ts)).

Lemma chained_spec (ts : list T) (b d : Z) :
  (b, d) ∈ chained ts <->
  exists j i : nat, b = Z.of_nat j /\ d = Z.of_nat i /\ closest (Sender <$> ts) j i.
Proof.
  unfold chained.
  rewrite (senderCalls_spec (Sender <$> ts) [] ∅ b d lastSeen_nil). simpl.
  split.
  - intros (j & i & ? & ? & _ & ?). by exists j, i.
  - intros (j & i & ? & ? & ?). exists j, i.
    split; [done|]. split; [done|]. split; [lia|done].
Qed.

Lemma firsts_spec (ts : list T) (x : Z) :
  x ∈ firsts ts <->
  exists i : nat, x = Z.of_nat i /\ (i < length ts)%nat /\
    forall j, (j < i)%nat -> (Sender <$> ts) !! j <> (Sender <$> ts) !! i.
Proof.
  unfold firsts. rewrite list_elem_of_filter. split.
  - intros [Hnot Hx]. apply list_elem_of_fmap in Hx as (i & -> & Hi).
    apply elem_of_seq in Hi. exists i.
    split; [done|]. split; [lia|]. intros j Hj Heq. apply Hnot.
    assert (Hlt : (i < length (Sender <$> ts))%nat) by (rewrite length_fmap; lia).
    apply lookup_lt_is_Some_2 in Hlt as [a Ha].
    (* the closest earlier index with sender [a] *)
    assert (Hex : exists j0, (j0 < i)%nat /\ (Sender <$> ts) !! j0 = Some a /\
                    forall k, (j0 < k < i)%nat -> (Sender <$> ts) !! k <> Some a).
    { clear Hnot. rewrite Ha in Heq. clear Ha Hi.
      induction i as [|i IH]; [lia|].
      destruct (decide ((Sender <$> ts) !! i = Some a)) as [Hi|Hi].
      - exists i. split; [lia|]. split; [done|]. intros k Hk. lia.
      - destruct (decide (j = i)) as [->|Hji]; [done|].
        destruct IH as (j0 & Hj0 & Hl & Hlast); [lia|].
        exists j0. split; [lia|]. split; [done|]. intros k Hk.
        destruct (decide (k = i)) as [->|]; [done|]. apply Hlast. lia. }
    destruct Hex as (j0 & Hj0 & Hl & Hlast).
    apply list_elem_of_fmap. exists (Z.of_nat j0, Z.of_nat i). split; [done|].
    apply chained_spec. exists j0, i. split; [done|]. split; [done|].
    split; [done|]. by exists a.
  - intros (i & -> & Hi & Hfirst). split.
    + intros Hin. apply list_elem_of_fmap in Hin as ([b d] & Hd & Hin).
      simpl in Hd. subst d.
      apply chained_spec in Hin as (j & i' & -> & Hi' & Hji & a & Ha & Hj & _).
      apply Nat2Z.inj in Hi'. subst i'. apply (Hfirst j Hji). congruence.
    + apply list_elem_of_fmap. exists i. split; [done|]. apply elem_of_seq. lia.
Qed.

Lemma indices_ascending (k n : nat) : Status.ascending (Z.of_nat <$> seq k n).
Proof.
  unfold Status.ascending. revert k. induction n as [|n IH]; intros k; simpl.
  - constructor.
  - constructor; [apply IH|]. apply Forall_forall. intros x Hx.
    apply list_elem_of_fmap in Hx as (y & -> & Hy). apply elem_of_seq in Hy. lia.
Qed.

Lemma ascending_filter (P : Z -> Prop) `{!forall x, Decision (P x)} (l : list Z) :
  Status.ascending l -> Status.ascending (filter P l).
Proof.
  unfold Status.ascending. induction 1 as [|y l Hs IH Hall]; [constructor|].
  rewrite filter_cons. case_decide; [|done]. constructor; [done|].
  apply Forall_forall. intros x [_ Hx]%list_elem_of_filter.
  by eapply Forall_forall in Hall.
Qed.

Lemma firsts_ascending (ts : list T) : Status.ascending (firsts ts).
Proof. apply ascending_filter, indices_ascending. Qed.

Lemma firsts_range (ts : list T) (x : Z) :
  x ∈ firsts ts -> 0 <= x < Z.of_nat (length ts).
Proof. intros (i & -> & Hi & _)%firsts_spec. lia. Qed.

(** Taking from an ascending queue into a list of smaller indices. *)
Lemma insertInList_snoc (l : list Z) (x : Z) :
  Forall (fun y => y < x) l -> Status.insertInList l x = l ++ [x].
Proof.
  induction 1 as [|y l Hy Hall IH]; simpl; [done|].
  rewrite decide_False by lia. rewrite decide_False by lia. by rewrite IH.
Qed.

Lemma takeMany_inProgress (k : nat) (m : Status.StatusManager) :
  Status.ascending (Status.pending m) ->
  (forall y x, y ∈ Status.inProgress m -> x ∈ Status.pending m -> y < x) ->
  Status.inProgress (takeMany k m) = Status.inProgress m ++ take k (Status.pending m).
Proof.
  revert m. induction k as [|k IH]; intros m Hasc Hlt.
  - by rewrite take_0, app_nil_r.
  - rewrite takeMany_S. unfold Status.takeNextPending.
    destruct (Status.pending m) as [|x rest] eqn:Hp.
    + simpl. rewrite IH; rewrite ?Hp; [by rewrite take_nil|done|done].
    + rewrite IH; simpl.
      * rewrite insertInList_snoc, <- app_assoc; [done|].
        apply Forall_forall. intros y Hy. apply Hlt; [done|by left].
      * by eapply ascending_tail.
      * intros y z Hy Hz. apply Status.insertInList_elem in Hy as [->|Hy].
        -- apply StronglySorted_inv in Hasc as [_ Hall].
           by eapply Forall_forall in Hall.
        -- apply Hlt; [done|by right].
Qed.

Lemma takeMany_others (k : nat) (m : Status.StatusManager) :
  Status.complete (takeMany k m) = Status.complete m /\
  Status.dependency (takeMany k m) = Status.dependency m.
Proof.
  revert m. induction k as [|k IH]; intros m; [done|].
  rewrite takeMany_S. destruct (IH (snd (Status.takeNextPending m))) as [-> ->].
  unfold Status.takeNextPending. by destruct (Status.pending m).
Qed.


Lemma others_iter (k : nat) (d : Diag) :
  cntSuccess (Nat.iter k incCntExec d) = cntSuccess d /\
  cntAbort (Nat.iter k incCntExec d) = cntAbort d /\
  cntTotalValidations (Nat.iter k incCntExec d) = cntTotalValidations d /\
  cntValidationFail (Nat.iter k incCntExec d) = cntValidationFail d /\
  diagExecSuccess (Nat.iter k incCntExec d) = diagExecSuccess d /\
  diagExecAbort (Nat.iter k incCntExec d) = diagExecAbort d.
Proof. induction k as [|k IH]; simpl; [done|]. exact IH. Qed.

(** Normal form of a state written with the setters. *)
Ltac snorm :=
  cbv beta iota zeta delta
    [with_tasks with_mvh with_chTasks with_chSpeculativeTasks with_chResults
     with_chSpeculativeResults with_execTasks with_validateTasks with_lastTxIO
     with_txIncarnations with_estimateDeps with_diag with_returnErr with_trace
     tasks mvh chTasks chSpeculativeTasks chResults chSpeculativeResults
     execTasks validateTasks lastTxIO txIncarnations estimateDeps diag
     returnErr trace].

Lemma forM_emit {A} (f : A -> Ev) (l : list A) (s : State) :
  forM_ l (fun x => emit (f x)) s = Ok tt (with_trace (trace s ++ (f <$> l)) s).
Proof.
  revert s. induction l as [|x l IH]; intros s.
  - destruct s. simpl. mstep. by rewrite app_nil_r.
  - simpl forM_. erewrite bind_Ok; [|reflexivity]. rewrite IH.
    destruct s. mstep. simpl. by rewrite <- app_assoc.
Qed.

(** What the set-up has traced: the four channels, the map, the workers,
    the calls of the sender loop and those of the bootstrap. *)
Definition setupTrace (n : nat) (calls : list (Z * Z)) (jobs : list View) : list Ev :=
  [EvMakeChan ChTasks n; EvMakeChan ChSpeculativeTasks n;
   EvMakeChan ChResults n; EvMakeChan ChSpeculativeResults n; EvMakeMVHashMap] ++
  (EvGo <$> seq 0 (numSpeculativeProcs + numGoProcs)) ++
  (calls ≫= chainCalls) ++
  (jobs ≫= dispatchCalls ChSpeculativeTasks) ++
  replicate (numSpeculativeProcs - length jobs) (EvStatus ExecTasks TakeNextPending).

(** The state in which [ExecuteParallel] enters its loop. *)
Definition afterSetup (ts : list T) (jobs : list View) : State :=
  let n := length ts in
  mkState ts MakeMVHashMap [] jobs [] []
    (takeMany numSpeculativeProcs
       (foldl chain (Status.makeStatusManager n) (chained ts)))
    (Status.makeStatusManager 0)
    (MakeTxnInputOutput n) (replicate n 0) (makeEstimateDeps n)
    (mkDiag (cntExec (Nat.iter (length jobs) incCntExec (mkDiag 0 0 0 0 0 [] [])))
       0 0 0 0 (replicate n 0) (replicate n 0))
    None (setupTrace n (chained ts) jobs).

Lemma setup_spec (ts : list T) :
  exists jobs,
    mapM (firstView ts) (take numSpeculativeProcs (firsts ts)) = Some jobs /\
    setup (initState ts) = Ok tt (afterSetup ts jobs).
Proof.
  assert (Hjobs : is_Some (mapM (firstView ts) (take numSpeculativeProcs (firsts ts)))).
  { apply mapM_is_Some. apply Forall_forall. intros x Hx.
    apply elem_of_take in Hx as (i & Hx & _). apply list_elem_of_lookup_2 in Hx.
    apply firsts_range in Hx. unfold compose, firstView.
    destruct (index_Some ts x Hx) as [t ->]. by eexists. }
  destruct Hjobs as [jobs Hjobs]. exists jobs. split; [done|].
  set (m1 := foldl chain (Status.makeStatusManager (length ts)) (chained ts)).
  assert (Hm1 : Status.pending m1 = firsts ts).
  { destruct (chains_spec (chained ts) (Status.makeStatusManager (length ts)) eq_refl)
      as (_ & _ & Hp & _). unfold m1. by rewrite Hp. }
  unfold setup, initState.
  do 7 (erewrite bind_Ok; [|reflexivity]; snorm).
  erewrite bind_Ok; [|apply forM_emit]. snorm.
  do 3 (erewrite bind_Ok; [|reflexivity]; snorm).
  erewrite bind_Ok; [|apply senderLoop_spec]. snorm.
  erewrite bind_Ok; [|apply (bootstrap_spec _ _ jobs)].
  - snorm. do 3 (erewrite bind_Ok; [|reflexivity]; snorm).
    mstep.
    destruct (others_iter (length jobs) (mkDiag 0 0 0 0 0 [] []))
      as (-> & -> & -> & -> & _ & _).
    unfold afterSetup, setupTrace. fold (chained ts).
    cbn [cntSuccess cntAbort cntTotalValidations cntValidationFail].
    rewrite <- !app_assoc. reflexivity.
  - snorm. fold (chained ts). fold m1. rewrite Hm1.
    apply Forall_forall. intros x Hx.
    apply elem_of_take in Hx as (i & Hx & _). apply list_elem_of_lookup_2 in Hx.
    apply firsts_range in Hx. lia.
  - snorm. fold (chained ts). fold m1. by rewrite Hm1.
Qed.


Lemma start_spec (ts : list T) :
  ts <> [] ->
  exists jobs,
    mapM (firstView ts) (take numSpeculativeProcs (firsts ts)) = Some jobs /\
    start ts = Running (afterSetup ts jobs)
                 (replicate (numSpeculativeProcs + numGoProcs) Idle).
Proof.
  intros Hne. destruct (setup_spec ts) as (jobs & Hjobs & Hsetup).
  exists jobs. split; [done|]. unfold start.
  rewrite decide_False by by destruct ts. by rewrite Hsetup.
Qed.

Lemma start_Running (ts : list T) (s : State) (ws : list Worker) :
  start ts = Running s ws ->
  exists jobs,
    mapM (firstView ts) (take numSpeculativeProcs (firsts ts)) = Some jobs /\
    s = afterSetup ts jobs /\
    ws = replicate (numSpeculativeProcs + numGoProcs) Idle.
Proof.
  intros Hstart. destruct ts as [|t ts]; [done|].
  destruct (start_spec (t :: ts)) as (jobs & Hjobs & Heq); [done|].
  rewrite Heq in Hstart. injection Hstart as <- <-. by exists jobs.
Qed.

(** A job of the bootstrap: incarnation 0 of an index of the batch, with
    the task and the sender of that index. *)
Definition bootstrapJob (ts : list T) (job : View) : Prop :=
  Incarnation (ev_ver job) = 0 /\ ev_et job = TxnIndex (ev_ver job) /\
  exists t, index ts (ev_et job) = Some t /\ ev_sender job = Sender t.

Lemma mapM_firstView (ts : list T) (l : list Z) (jobs : list View) :
  mapM (firstView ts) l = Some jobs ->
  (fun job => TxnIndex (ev_ver job)) <$> jobs = l /\ Forall (bootstrapJob ts) jobs.
Proof.
  intros Hjobs%mapM_Some. induction Hjobs as [|x job l jobs Hx _ [IH1 IH2]]; [done|].
  unfold firstView in Hx. destruct (index ts x) as [t|] eqn:Ht; [|done].
  simpl in Hx. injection Hx as <-. rewrite fmap_cons, IH1. split; [done|].
  constructor; [|done]. split; [done|]. split; [done|]. by exists t.
Qed.




(** X13. The jobs of the bootstrap. When [ExecuteParallel] enters its loop,
    [chSpeculativeTasks] holds, in ascending order of index, one job at
    incarnation 0 for each of the first 16 indices that no earlier task
    of the batch shares its sender with, and for no other index: a task
    whose sender has an earlier task is not dispatched by the set-up. *)
Theorem start_bootstrap_jobs (ts : list T) (s : State) (ws : list Worker) :
  start ts = Running s ws ->
  (fun job => TxnIndex (ev_ver job)) <$> chSpeculativeTasks s
    = take numSpeculativeProcs (firsts ts) /\
  Forall (bootstrapJob ts) (chSpeculativeTasks s) /\
  Status.ascending (firsts ts) /\
  forall x,
    x ∈ firsts ts <->
    exists i : nat, x = Z.of_nat i /\ (i < length ts)%nat /\
      forall j, (j < i)%nat -> (Sender <$> ts) !! j <> (Sender <$> ts) !! i.
Proof.
  intros (jobs & Hjobs & -> & _)%start_Running.
  apply mapM_firstView in Hjobs as [Hidx Hall].
  split; [exact Hidx|]. split; [exact Hall|].
  split; [apply firsts_ascending|apply firsts_spec].
Qed.

(** X14. The per-sender chains. When [ExecuteParallel] enters its loop, the
    execution manager holds the edge [(j, i)] exactly when [j] is the
    closest index before [i] whose task has the sender of task [i]; the
    indices dispatched by the bootstrap are in progress, the other
    indices that no earlier task shares its sender with are pending, and
    no index is complete. *)
Theorem start_per_sender_chain (ts : list T) (s : State) (ws : list Worker) :
  start ts = Running s ws ->
  Status.pending (execTasks s) = drop numSpeculativeProcs (firsts ts) /\
  Status.inProgress (execTasks s) = take numSpeculativeProcs (firsts ts) /\
  Status.complete (execTasks s) = [] /\
  forall b d,
    (b, d) ∈ Status.dependency (execTasks s) <->
    exists j i : nat, b = Z.of_nat j /\ d = Z.of_nat i /\ closest (Sender <$> ts) j i.
Proof.
  intros (jobs & Hjobs & -> & _)%start_Running.
  unfold afterSetup. cbn [execTasks].
  set (m1 := foldl chain (Status.makeStatusManager (length ts)) (chained ts)).
  destruct (chains_spec (chained ts) (Status.makeStatusManager (length ts)) eq_refl)
    as (Hc & Hi & Hp & Hd). fold m1 in Hc, Hi, Hp, Hd.
  assert (Hm1 : Status.pending m1 = firsts ts) by by rewrite Hp.
  destruct (takeMany_others numSpeculativeProcs m1) as [Hc' Hd'].
  split; [by rewrite takeMany_pending, Hm1|].
  split.
  { rewrite takeMany_inProgress, Hi, Hm1; [done| |].
    - rewrite Hm1. apply firsts_ascending.
    - intros y x Hy. rewrite Hi in Hy. by apply elem_of_nil in Hy. }
  split; [by rewrite Hc'|].
  intros b d. rewrite Hd', Hd. rewrite <- chained_spec. simpl. split; [|by right].
  intros [Hin|Hin]; [by apply elem_of_nil in Hin|done].
Qed.

(** *** The run keeps the reported indices *)

Lemma completeReported_afterSetup (ts : list T) (jobs : list View) :
  completeReported (afterSetup ts jobs).
Proof.
  unfold completeReported, afterSetup.
  cbn [lastTxIO tasks trace execTasks]. split.
  - simpl. by rewrite length_replicate.
  - destruct (takeMany_others numSpeculativeProcs
                (foldl chain (Status.makeStatusManager (length ts)) (chained ts)))
      as [-> _].
    destruct (chains_spec (chained ts) (Status.makeStatusManager (length ts)) eq_refl)
      as (-> & _). apply goodComplete_nil.
Qed.

Lemma iteration_completeReported (res : Result) (s : State) (ctl : LoopCtl) (s' : State) :
  completeReported s ->
  (err res = None -> reported (trace s) (TxnIndex (ver res))) ->
  iteration res s = Ok ctl s' ->
  completeReported s' /\ (ctl = Break -> returnErr s' = None -> allDone s').
Proof.
  intros Hs Hrep Hrun.
  assert (Hafter : forall s1, completeReported s1 -> afterResult s1 = Ok ctl s' ->
            completeReported s' /\ (ctl = Break -> returnErr s' = None -> allDone s')).
  { intros s1 Hs1 (s2 & s3 & Hv & Hd & Hc)%afterResult_cases.
    apply (completeReported_doValidations _ _ _ Hs1) in Hv.
    apply (completeReported_dispatch _ _ _ Hv) in Hd.
    apply checkDone_cases in Hc as [(Hdone & -> & ->)|(_ & -> & ->)]; [|done].
    split; [|by intros _ _].
    destruct Hd as [Hl Hg]. split; [exact Hl|]. by apply goodComplete_app. }
  apply iteration_cases in Hrun
    as [(He & s1 & H1 & H2)|[(e & dep & He & Hab & s1 & H1 & H2)|(e & He & Hab & -> & ->)]].
  - apply (Hafter s1); [|done]. eapply completeReported_handleSuccess; eauto.
  - apply (Hafter s1); [|done]. eapply completeReported_handleAbort; eauto.
  - split; [exact Hs|]. by intros _.
Qed.

(** The invariant of the run for a batch [ts]. *)
Definition reportedInvariant (ts : list T) (sys : System) : Prop :=
  match sys with
  | Running s _ => length (tasks s) = length ts /\ completeReported s
  | Returned s =>
      length (tasks s) = length ts /\ completeReported s /\
      (returnErr s = None -> allDone s)
  | Crashed => True
  end.

Lemma batch_coordinatorTurn (n : nat) :
  preserves (fun s => length (tasks s) = n) coordinatorTurn.
Proof. keeps; frame_write. Qed.

Lemma batch_workerTurn (n : nat) p w :
  preserves (fun s => length (tasks s) = n) (workerTurn p w).
Proof. keeps; frame_write. Qed.

Lemma closeAll_inv (s : State) (u : unit) (s' : State) :
  closeAll s = Ok u s' ->
  s' = with_trace (trace s ++ [EvClose ChTasks; EvClose ChSpeculativeTasks;
                               EvClose ChResults; EvClose ChSpeculativeResults]) s.
Proof.
  intros Hrun. unfold closeAll in Hrun.
  apply bind_inv in Hrun as (u1 & s1 & H1 & Hrun). injection H1 as _ <-.
  apply bind_inv in Hrun as (u2 & s2 & H2 & Hrun). injection H2 as _ <-.
  apply bind_inv in Hrun as (u3 & s3 & H3 & Hrun). injection H3 as _ <-.
  injection Hrun as _ <-. destruct s. simpl. by rewrite <- !app_assoc.
Qed.

Lemma step_reportedInvariant (ts : list T) (sys : System) (t : Turn) :
  reportedInvariant ts sys -> reportedInvariant ts (step sys t).
Proof.
  destruct sys as [s ws| |]; [|done|done].
  intros [Hlen Hs]. destruct t as [|p]; unfold step.
  - destruct (coordinatorTurn s) as [ctl s'|] eqn:Hturn; [|by destruct s].
    pose proof (batch_coordinatorTurn (length ts) s ctl s' Hlen Hturn) as Hlen'.
    assert (Hs' : completeReported s' /\
                  (ctl = Break -> returnErr s' = None -> allDone s')).
    { apply coordinatorTurn_cases in Hturn
        as [(_ & _ & -> & ->)|(c & res & rest & Hc & Hrun)]; [done|].
      eapply iteration_completeReported; [| |exact Hrun].
      - destruct Hs as [Hl Hg]. split.
        + by destruct c.
        + destruct c; by apply goodComplete_app.
      - intros He. exists res. split; [|done].
        destruct c; simpl; rewrite received_app; simpl;
          apply elem_of_app; right; by left. }
    destruct Hs' as [Hs' Hdone]. destruct ctl; [done|].
    destruct (closeAll s') as [u s''|] eqn:Hclose; [|done].
    apply closeAll_inv in Hclose as ->. simpl.
    split; [done|]. split.
    + destruct Hs' as [Hl Hg]. split; [done|]. by apply goodComplete_app.
    + intros He. by apply Hdone.
  - destruct (ws !! p) as [w|]; [|done].
    destruct (workerTurn p w s) as [w' s'|] eqn:Hturn; [|done]. simpl. split.
    + by eapply batch_workerTurn.
    + by eapply completeReported_workerTurn.
Qed.

Lemma start_reportedInvariant (ts : list T) : reportedInvariant ts (start ts).
Proof.
  destruct ts as [|t ts].
  - unfold start. simpl. split; [done|]. split; [|by intros _].
    split; [done|]. apply goodComplete_nil.
  - destruct (start_spec (t :: ts)) as (jobs & _ & ->); [done|].
    split; [done|]. apply completeReported_afterSetup.
Qed.

(** Once every index of the batch is complete, every index is among the
    complete indices. *)
Lemma goodComplete_full (n : nat) (tr : list Ev) (l : list Z) (i : Z) :
  goodComplete n tr l -> length l = n -> 0 <= i < Z.of_nat n -> i ∈ l.
Proof.
  intros [Ha Hl] Hlen Hi.
  rewrite (ascending_from l 0 n Ha); [| |done].
  - apply list_elem_of_fmap. exists (Z.to_nat i). split; [lia|].
    apply elem_of_seq. lia.
  - apply Forall_forall. intros x Hx. destruct (Hl x Hx). lia.
Qed.

Lemma returned_nil_reported (ts : list T) (sched : list Turn)
    (s : State) (i : Z) :
  ExecuteParallel ts sched = Returned s ->
  returnErr s = None ->
  0 <= i < Z.of_nat (length ts) ->
  exists r, r ∈ received (trace s) /\ err r = None /\ TxnIndex (ver r) = i.
Proof.
  intros Hret Herr Hi.
  pose proof (run_invariant (reportedInvariant ts) (step_reportedInvariant ts)
                sched (start ts) (start_reportedInvariant ts)) as Hinv.
  fold (ExecuteParallel ts sched) in Hinv. rewrite Hret in Hinv.
  destruct Hinv as (Hlen & [_ Hg] & Hdone).
  destruct (Hdone Herr) as [_ Hcount]. unfold Status.countComplete in Hcount.
  apply Nat2Z.inj in Hcount.
  assert (Hin : i ∈ Status.complete (execTasks s)).
  { eapply goodComplete_full; [exact Hg|done|]. rewrite Hlen. done. }
  destruct Hg as [_ Hall]. by destruct (Hall i Hin) as [_ Hr].
Qed.

(** X15. [ExecuteParallel] never reports success for a batch of which it has
    not seen every transaction succeed: when it returns a nil error, the
    coordinator has received, for every index of the batch, a result of
    that index without error. *)
Theorem ExecuteParallel_nil_error_all_reported (ts : list T) (sched : list Turn)
    (s : State) (i : Z) :
  ExecuteParallel ts sched = Returned s ->
  returnErr s = None ->
  0 <= i < Z.of_nat (length ts) ->
  exists r, r ∈ received (trace s) /\ err r = None /\ TxnIndex (ver r) = i.
Proof. apply returned_nil_reported. Qed.

(** *** A task that never succeeds *)

Section NeverSucceeds.

(** [Q] holds of tasks on which every call of [Execute] returns an error
    and leaves a task of which [Q] holds again. *)
Variable Q : T -> Prop.
Hypothesis Q_fails : forall t m inc,
  Q t -> Q (fst (Execute t m inc)) /\ snd (Execute t m inc) <> None.

Variable i : Z.

(** A result that is not a success of [i]. *)
Definition failing (r : Result) : Prop := TxnIndex (ver r) = i -> err r <> None.

(** A job whose task is the task of its index. *)
Definition wellAddressed (job : View) : Prop := ev_et job = TxnIndex (ev_ver job).

Definition neverSucceeded (s : State) : Prop :=
  (exists t, index (tasks s) i = Some t /\ Q t) /\
  Forall wellAddressed (chTasks s) /\
  Forall wellAddressed (chSpeculativeTasks s) /\
  Forall failing (chResults s) /\
  Forall failing (chSpeculativeResults s) /\
  Forall failing (received (trace s)).

Definition workerFailing (w : Worker) : Prop :=
  match w with
  | Idle => True
  | Executed res => failing res
  | Sending res => failing res
  end.

Definition failingInvariant (sys : System) : Prop :=
  match sys with
  | Running s ws => neverSucceeded s /\ Forall workerFailing ws
  | Returned s => Forall failing (received (trace s))
  | Crashed => True
  end.

Lemma received_snoc_quiet (tr : list Ev) (e : Ev) :
  isReceipt e = false -> received (tr ++ [e]) = received tr.
Proof. apply received_quiet. Qed.

Ltac neverSucceeded_write :=
  intros;
  repeat match goal with
         | mu : Mgr |- _ => destruct mu
         | c : Chan |- _ => destruct c
         | H : neverSucceeded _ |- _ =>
             destruct H as (? & ? & ? & ? & ? & ?)
         end;
  unfold neverSucceeded in *;
  cbn [manager with_manager taskChan with_taskChan resultChan with_resultChan
       with_tasks with_mvh with_chTasks with_chSpeculativeTasks with_chResults
       with_chSpeculativeResults with_execTasks with_validateTasks with_lastTxIO
       with_txIncarnations with_estimateDeps with_diag with_returnErr with_trace
       tasks mvh chTasks chSpeculativeTasks chResults chSpeculativeResults
       execTasks validateTasks lastTxIO txIncarnations estimateDeps diag
       returnErr trace] in *;
  rewrite ?received_snoc_quiet by reflexivity;
  repeat split; try assumption;
  try (apply Forall_app; split; [assumption|]; by constructor).

Lemma neverSucceeded_iteration res : preserves neverSucceeded (iteration res).
Proof. keeps; neverSucceeded_write. Qed.

Lemma received_setup (n : nat) (calls : list (Z * Z)) (jobs : list View) :
  received (setupTrace n calls jobs) = [].
Proof.
  unfold setupTrace. rewrite !received_app.
  assert (Hquiet : forall tr, Forall (fun e => isReceipt e = false) tr -> received tr = []).
  { induction 1 as [|e tr He _ IH]; [done|].
    replace (e :: tr) with ([e] ++ tr) by done.
    rewrite received_app, IH, app_nil_r. by destruct e. }
  rewrite (Hquiet (EvGo <$> _)), (Hquiet (calls ≫= _)), (Hquiet (jobs ≫= _)),
    (Hquiet (replicate _ _)); [done| | | |].
  - apply Forall_forall. by intros e [-> _]%elem_of_replicate.
  - apply Forall_forall. intros e (job & He & _)%list_elem_of_bind.
    unfold dispatchCalls in He. apply elem_of_cons in He as [->|He]; [done|].
    by apply list_elem_of_singleton in He as ->.
  - apply Forall_forall. intros e (c & He & _)%list_elem_of_bind.
    unfold chainCalls in He. apply elem_of_cons in He as [->|He]; [done|].
    by apply list_elem_of_singleton in He as ->.
  - apply Forall_forall. by intros e (k & -> & _)%list_elem_of_fmap.
Qed.

Lemma start_failingInvariant (ts : list T) (t : T) :
  index ts i = Some t -> Q t -> failingInvariant (start ts).
Proof.
  intros Hi Ht.
  assert (Hne : ts <> []) by (intros ->; by unfold index in Hi; case_decide).
  destruct (start_spec ts Hne) as (jobs & Hjobs & ->).
  apply mapM_firstView in Hjobs as [_ Hjobs].
  split; [|by apply Forall_replicate].
  unfold neverSucceeded, afterSetup.
  cbn [tasks chTasks chSpeculativeTasks chResults chSpeculativeResults trace].
  split; [by exists t|]. split; [done|]. split.
  { eapply Forall_impl; [exact Hjobs|]. by intros job (_ & ? & _). }
  split; [done|]. split; [done|]. by rewrite received_setup.
Qed.

Lemma step_failingInvariant (sys : System) (t : Turn) :
  failingInvariant sys -> failingInvariant (step sys t).
Proof.
  destruct sys as [s ws| |]; [|done|done].
  intros [Hs Hws]. destruct t as [|p]; unfold step.
  - destruct (coordinatorTurn s) as [ctl s'|] eqn:Hturn; [|by destruct s].
    assert (Hs' : neverSucceeded s').
    { apply coordinatorTurn_cases in Hturn
        as [(_ & _ & -> & ->)|(c & res & rest & Hc & Hrun)]; [done|].
      eapply neverSucceeded_iteration; [|exact Hrun].
      destruct Hs as (Ht & Hq1 & Hq2 & Hr1 & Hr2 & Hrec).
      destruct Hc as [[-> Hc]|(-> & Hc1 & Hc2)].
      - rewrite Hc in Hr1. apply Forall_cons in Hr1 as [Hres Hr1].
        unfold neverSucceeded. simpl. rewrite received_app. simpl.
        repeat split; try done. apply Forall_app. split; [done|by constructor].
      - rewrite Hc2 in Hr2. apply Forall_cons in Hr2 as [Hres Hr2].
        unfold neverSucceeded. simpl. rewrite received_app. simpl.
        repeat split; try done. apply Forall_app. split; [done|by constructor]. }
    destruct ctl; [done|].
    destruct (closeAll s') as [u s''|] eqn:Hclose; [|done].
    apply closeAll_inv in Hclose as ->. simpl.
    destruct Hs' as (_ & _ & _ & _ & _ & Hrec).
    rewrite received_app. simpl. by rewrite app_nil_r.
  - destruct (ws !! p) as [w|] eqn:Hw; [|done].
    destruct (workerTurn p w s) as [w' s'|] eqn:Hturn; [|done].
    assert (Hwf : workerFailing w).
    { eapply Forall_forall in Hws; [exact Hws|]. by eapply list_elem_of_lookup_2. }
    assert (Hboth : neverSucceeded s' /\ workerFailing w').
    { apply workerTurn_cases in Hturn.
      destruct Hs as (Ht & Hq1 & Hq2 & Hr1 & Hr2 & Hrec).
      destruct w as [|res|res].
      - destruct Hturn as [(Hq & -> & ->)|(task & rest & res & Hq & Hex & ->)];
          [done|].
        assert (Htask : wellAddressed task /\
                        Forall wellAddressed
                          (chTasks (with_taskChan (workerTaskChan p) rest s)) /\
                        Forall wellAddressed
                          (chSpeculativeTasks (with_taskChan (workerTaskChan p) rest s))).
        { unfold workerTaskChan in *. case_decide; simpl in *.
          - rewrite Hq in Hq2. by apply Forall_cons in Hq2 as [? ?].
          - rewrite Hq in Hq1. by apply Forall_cons in Hq1 as [? ?]. }
        destruct Htask as (Htask & Hq1' & Hq2').
        apply ExecVersionView_Execute_inv in Hex as (t0 & Hidx & Hres).
        cbn zeta in Hres. destruct Hres as (Hver & Herr & _ & _ & ->).
        assert (Htasks : tasks (with_taskChan (workerTaskChan p) rest s) = tasks s)
          by by destruct (workerTaskChan p).
        assert (Hmvh : mvh (with_taskChan (workerTaskChan p) rest s) = mvh s)
          by by destruct (workerTaskChan p).
        assert (Hcr : chResults (with_taskChan (workerTaskChan p) rest s) = chResults s)
          by by destruct (workerTaskChan p).
        assert (Hcsr : chSpeculativeResults (with_taskChan (workerTaskChan p) rest s)
                       = chSpeculativeResults s)
          by by destruct (workerTaskChan p).
        cbn [tasks mvh with_trace] in Hidx, Herr. rewrite Htasks in Hidx.
        rewrite Hmvh in Herr.
        destruct Ht as (ti & Hti & HQ).
        split.
        + unfold neverSucceeded.
          cbn [tasks mvh chTasks chSpeculativeTasks chResults chSpeculativeResults
               trace with_tasks with_trace].
          rewrite Htasks, Hmvh, Hcr, Hcsr, !received_snoc_quiet by done.
          split; [|done].
          destruct (decide (ev_et task = i)) as [Heq|Hne].
          * rewrite Heq in *. rewrite Hti in Hidx. injection Hidx as <-.
            eexists. split; [apply index_insert_eq; by eapply index_range|].
            by apply Q_fails.
          * exists ti. split; [|done].
            erewrite index_store_ne; [exact Hti| |exact Hne].
            apply store_Some. by eapply index_range.
        + simpl. intros Hi. rewrite Hver in Hi. rewrite Herr.
          rewrite <- Hi, <- Htask in Hti. rewrite Hti in Hidx. injection Hidx as <-.
          by apply Q_fails.
      - destruct Hturn as [-> Hrun]. split; [|done].
        unfold doWork_flush in Hrun. destruct (err res).
        + by injection Hrun as <-.
        + unfold mvhFlushMVWriteSet in Hrun.
          apply bind_inv in Hrun as (u & s1 & H1 & Hrun). injection H1 as _ <-.
          injection Hrun as <-. unfold neverSucceeded. simpl.
          rewrite received_snoc_quiet by done. done.
      - destruct Hturn as [-> Hrun]. split; [|done].
        unfold sendResult in Hrun.
        apply bind_inv in Hrun as (u & s1 & H1 & Hrun). injection H1 as _ <-.
        injection Hrun as <-. unfold neverSucceeded, workerResultChan.
        case_decide; simpl; rewrite received_snoc_quiet by done;
          repeat split; try done; apply Forall_app; split; try done;
          by constructor. }
    destruct Hboth as [Hs' Hw']. split; [done|].
    apply Forall_insert; done.
Qed.

End NeverSucceeds.

(** X16. A batch with a task on which [Execute] fails at every call is never
    reported as executed: whatever the schedule, [ExecuteParallel] does
    not return a nil error for it (it returns the error of a task, or
    does not return). *)
Theorem ExecuteParallel_needs_every_task (Q : T -> Prop) (ts : list T)
    (sched : list Turn) (s : State) (i : Z) (t : T) :
  (forall t m inc, Q t -> Q (fst (Execute t m inc)) /\ snd (Execute t m inc) <> None) ->
  index ts i = Some t -> Q t ->
  ExecuteParallel ts sched = Returned s ->
  returnErr s <> None.
Proof.
  intros HQ Hi Ht Hret Herr.
  pose proof (run_invariant (failingInvariant Q i) (step_failingInvariant Q HQ i)
                sched (start ts) (start_failingInvariant Q i ts t Hi Ht)) as Hinv.
  fold (ExecuteParallel ts sched) in Hinv. rewrite Hret in Hinv. simpl in Hinv.
  destruct (returned_nil_reported ts sched s i Hret Herr) as (r & Hr & He & Hidx).
  { by eapply index_range. }
  eapply Forall_forall in Hinv; [|exact Hr]. by apply Hinv.
Qed.

(** *** Indices stay within the batch *)

Definition inBatch (n : nat) (x : Z) : Prop := 0 <= x < Z.of_nat n.

Definition jobInBatch (n : nat) (job : View) : Prop :=
  ev_et job = TxnIndex (ev_ver job) /\ inBatch n (ev_et job).

Definition resultInBatch (n : nat) (r : Result) : Prop := inBatch n (TxnIndex (ver r)).

(** Every index the executor holds is an index of the batch of size
    [n]: those queued or complete in the execution manager, the
    dependents of its edges, those queued for validation, those of the
    jobs and of the results in the channels; and the per-index slices
    have length [n]. *)
Definition ranged (n : nat) (s : State) : Prop :=
  length (tasks s) = n /\ shaped s /\
  Forall (inBatch n) (Status.pending (execTasks s)) /\
  Forall (inBatch n) (Status.complete (execTasks s)) /\
  Forall (fun e => inBatch n (snd e)) (Status.dependency (execTasks s)) /\
  Forall (inBatch n) (Status.pending (validateTasks s)) /\
  Forall (jobInBatch n) (chTasks s) /\
  Forall (jobInBatch n) (chSpeculativeTasks s) /\
  Forall (resultInBatch n) (chResults s) /\
  Forall (resultInBatch n) (chSpeculativeResults s).

Lemma Forall_insertInList (P : Z -> Prop) (l : list Z) (v : Z) :
  P v -> Forall P l -> Forall P (Status.insertInList l v).
Proof.
  intros Hv Hl. apply Forall_forall.
  intros x [->|Hx]%Status.insertInList_elem; [done|].
  by eapply Forall_forall in Hl.
Qed.

Lemma Forall_filter_keeps {A} (P : A -> Prop) (Q : A -> Prop) `{!forall x, Decision (Q x)}
    (l : list A) :
  Forall P l -> Forall P (filter Q l).
Proof.
  intros Hl. apply Forall_forall. intros x [_ Hx]%list_elem_of_filter.
  by eapply Forall_forall in Hl.
Qed.

Lemma Forall_removeFromList (P : Z -> Prop) (l : list Z) (v : Z) :
  Forall P l -> Forall P (Status.removeFromList l v).
Proof. apply Forall_filter_keeps. Qed.

Lemma Forall_pushPendingSet (P : Z -> Prop) (ixs : list Z) (m : Status.StatusManager) :
  Forall P ixs -> Forall P (Status.pending m) ->
  Forall P (Status.pending (Status.pushPendingSet ixs m)).
Proof.
  intros Hi Hm. apply Forall_forall. intros x [Hx|Hx]%Status.pushPendingSet_pending.
  - by eapply Forall_forall in Hi.
  - by eapply Forall_forall in Hm.
Qed.

Lemma Forall_getRevalidationRange (P : Z -> Prop) (from : Z) (m : Status.StatusManager) :
  Forall P (Status.complete m) -> Forall P (Status.getRevalidationRange from m).
Proof. apply Forall_filter_keeps. Qed.

Lemma Forall_pending_takeNextPending (P : Z -> Prop) (m : Status.StatusManager) :
  Forall P (Status.pending m) -> Forall P (Status.pending (snd (Status.takeNextPending m))).
Proof.
  unfold Status.takeNextPending. destruct (Status.pending m) eqn:Hp; simpl.
  - by rewrite Hp.
  - by intros [_ ?]%Forall_cons.
Qed.

Lemma dependency_takeNextPending (m : Status.StatusManager) :
  Status.dependency (snd (Status.takeNextPending m)) = Status.dependency m.
Proof. unfold Status.takeNextPending. by destruct (Status.pending m). Qed.

Lemma pending_addDependencies (b d : Z) (m : Status.StatusManager) :
  Status.pending (snd (Status.addDependencies b d m)) = Status.pending m.
Proof. unfold Status.addDependencies. by destruct (Status.checkComplete b m). Qed.

Lemma Forall_dependency_addDependencies (P : Z * Z -> Prop) (b d : Z)
    (m : Status.StatusManager) :
  P (b, d) -> Forall P (Status.dependency m) ->
  Forall P (Status.dependency (snd (Status.addDependencies b d m))).
Proof.
  intros Hbd Hm. unfold Status.addDependencies.
  destruct (Status.checkComplete b m); [done|]. simpl.
  case_bool_decide; [done|]. apply Forall_app. split; [done|by constructor].
Qed.

Lemma Forall_pending_removeDependency (n : nat) (i : Z) (m : Status.StatusManager) :
  Forall (inBatch n) (Status.pending m) ->
  Forall (fun e => inBatch n (snd e)) (Status.dependency m) ->
  Forall (inBatch n) (Status.pending (Status.removeDependency i m)).
Proof.
  intros Hp Hd. destruct (removeDependency_spec i m) as (_ & _ & _ & _ & Hx).
  apply Forall_forall. intros x [Hin|[Hin _]]%Hx.
  - by eapply Forall_forall in Hp.
  - eapply Forall_forall in Hd; [|exact Hin]. done.
Qed.

Lemma Forall_dependency_removeDependency (P : Z * Z -> Prop) (i : Z)
    (m : Status.StatusManager) :
  Forall P (Status.dependency m) ->
  Forall P (Status.dependency (Status.removeDependency i m)).
Proof.
  intros Hd. destruct (removeDependency_spec i m) as (_ & _ & -> & _).
  by apply Forall_filter_keeps.
Qed.

Create HintDb ranged.

#[local] Hint Resolve Forall_insertInList Forall_removeFromList Forall_pushPendingSet
  Forall_getRevalidationRange Forall_pending_takeNextPending
  Forall_dependency_addDependencies Forall_pending_removeDependency
  Forall_dependency_removeDependency Forall_nil_2 : ranged.

(** One write, on [ranged]. *)
Ltac ranged_write :=
  intros;
  repeat match goal with
         | H : recordRead _ _ _ = Some _ |- _ =>
             destruct (recordRead_lengths _ _ _ _ H) as (? & ? & ?); clear H
         | H : recordWrite _ _ _ = Some _ |- _ =>
             destruct (recordWrite_lengths _ _ _ _ H) as (? & ? & ?); clear H
         | H : recordAllWrite _ _ _ = Some _ |- _ =>
             destruct (recordAllWrite_lengths _ _ _ _ H) as (? & ? & ?); clear H
         | H : incrAt _ _ = Some _ |- _ => apply incrAt_length in H
         | H : store _ _ _ = Some _ |- _ => apply store_length in H
         | H : index _ _ = Some _ |- _ => apply index_range in H
         | mu : Mgr |- _ => destruct mu
         | c : Chan |- _ => destruct c
         | H : ranged _ _ |- _ =>
             destruct H as (? & ? & ? & ? & ? & ? & ? & ? & ? & ?)
         end;
  unfold ranged, workerTaskChan, workerResultChan in *;
  repeat case_decide;
  cbn [manager with_manager taskChan with_taskChan resultChan with_resultChan
       with_tasks with_mvh with_chTasks with_chSpeculativeTasks with_chResults
       with_chSpeculativeResults with_execTasks with_validateTasks with_lastTxIO
       with_txIncarnations with_estimateDeps with_diag with_returnErr with_trace
       tasks mvh chTasks chSpeculativeTasks chResults chSpeculativeResults
       execTasks validateTasks lastTxIO txIncarnations estimateDeps diag
       returnErr trace] in *;
  rewrite ?complete_takeNextPending, ?complete_addDependencies,
    ?complete_removeDependency, ?dependency_takeNextPending, ?pending_addDependencies;
  cbn [Status.pending Status.complete Status.dependency Status.pushPending
       Status.markComplete Status.clearInProgress Status.clearComplete
       Status.clearPending Status.makeStatusManager];
  repeat apply conj;
  first
    [ assumption
    | congruence
    | solve [unfold shaped in *; simpl in *; intuition congruence]
    | solve [apply Forall_app; split; [assumption|];
             constructor; [|constructor];
             unfold jobInBatch, resultInBatch, inBatch in *; simpl;
             first [lia | split; [reflexivity|lia]]]
    | solve [eauto 4 with ranged] ].

Lemma ranged_handleSuccess (n : nat) (res : Result) :
  inBatch n (TxnIndex (ver res)) -> preserves (ranged n) (handleSuccess res).
Proof. intros Hti. keeps; ranged_write. Qed.

Lemma ranged_handleAbort (n : nat) (res : Result) (dep : Z) :
  inBatch n (TxnIndex (ver res)) -> preserves (ranged n) (handleAbort res dep).
Proof. intros Hti. keeps; ranged_write. Qed.

Lemma ranged_validateTx (n : nat) (tx : Z) :
  inBatch n tx -> preserves (ranged n) (validateTx tx).
Proof. intros Htx. keeps; ranged_write. Qed.

Lemma ranged_drainValidations (n : nat) k mc acc :
  preserves (ranged n) (drainValidations k mc acc).
Proof. keeps; ranged_write. Qed.

Lemma ranged_dispatchNext (n : nat) c : preserves (ranged n) (dispatchNext c).
Proof. keeps; ranged_write. Qed.

Lemma ranged_dispatch (n : nat) : preserves (ranged n) dispatch.
Proof. keeps; ranged_write. Qed.

Lemma ranged_checkDone (n : nat) : preserves (ranged n) checkDone.
Proof. keeps; ranged_write. Qed.

(** *** The executor never panics *)

(** [m] does not panic from a state of which [P] holds. *)
Definition safe {A} (P : State -> Prop) (m : M A) : Prop :=
  forall s, P s -> m s <> Panic.

Lemma safe_ret {A} (P : State -> Prop) (a : A) : safe P (ret a).
Proof. by intros s _. Qed.

Lemma safe_gets {A} (P : State -> Prop) (f : State -> A) : safe P (gets f).
Proof. by intros s _. Qed.

Lemma safe_modify (P : State -> Prop) (f : State -> State) : safe P (modify f).
Proof. by intros s _. Qed.

Lemma safe_emit (P : State -> Prop) (e : Ev) : safe P (emit e).
Proof. by intros s _. Qed.

Lemma safe_bind {A B} (P : State -> Prop) (m : M A) (k : A -> M B) :
  safe P m -> preserves P m -> (forall a, safe P (k a)) -> safe P (bind m k).
Proof.
  intros Hm Hp Hk s HP. unfold bind.
  destruct (m s) as [a s1|] eqn:Hrun; [|exfalso; by apply (Hm s HP)].
  apply Hk. by eapply Hp.
Qed.

Lemma safe_forM_ {A} (P : State -> Prop) (l : list A) (f : A -> M unit) :
  (forall x, x ∈ l -> safe P (f x)) ->
  (forall x, x ∈ l -> preserves P (f x)) ->
  safe P (forM_ l f).
Proof.
  induction l as [|x l IH]; intros Hs Hp; simpl; [apply safe_ret|].
  apply safe_bind; [apply Hs; by left|apply Hp; by left|intros _].
  apply IH; intros y Hy; [apply Hs|apply Hp]; by right.
Qed.

Lemma safe_takeNextPending (P : State -> Prop) (mu : Mgr) : safe P (takeNextPending mu).
Proof. by intros s _. Qed.

Lemma safe_addDependencies (P : State -> Prop) (mu : Mgr) (b d : Z) :
  safe P (addDependencies mu b d).
Proof. by intros s _. Qed.

Lemma safe_txioRecordRead (P : State -> Prop) (ti : Z) (x : TxnInput Key) :
  (forall s, P s -> 0 <= ti < Z.of_nat (length (inputs (lastTxIO s)))) ->
  safe P (txioRecordRead ti x).
Proof.
  intros Hti s HP. unfold txioRecordRead, recordRead.
  erewrite bind_Ok; [|reflexivity]. rewrite store_Some by by apply Hti. done.
Qed.

Lemma safe_txioRecordWrite (P : State -> Prop) (ti : Z) (x : TxnOutput Key Val) :
  (forall s, P s -> 0 <= ti < Z.of_nat (length (outputs (lastTxIO s)))) ->
  safe P (txioRecordWrite ti x).
Proof.
  intros Hti s HP. unfold txioRecordWrite, recordWrite.
  erewrite bind_Ok; [|reflexivity]. rewrite store_Some by by apply Hti. done.
Qed.

Lemma safe_txioRecordAllWrite (P : State -> Prop) (ti : Z) (x : TxnOutput Key Val) :
  (forall s, P s -> 0 <= ti < Z.of_nat (length (allOutputs (lastTxIO s)))) ->
  safe P (txioRecordAllWrite ti x).
Proof.
  intros Hti s HP. unfold txioRecordAllWrite, recordAllWrite.
  erewrite bind_Ok; [|reflexivity]. rewrite store_Some by by apply Hti. done.
Qed.

Lemma safe_txioAllWriteSet (P : State -> Prop) (ti : Z) :
  (forall s, P s -> 0 <= ti < Z.of_nat (length (allOutputs (lastTxIO s)))) ->
  safe P (txioAllWriteSet ti).
Proof.
  intros Hti s HP. unfold txioAllWriteSet, AllWriteSet.
  erewrite bind_Ok; [|reflexivity].
  destruct (index_Some _ _ (Hti s HP)) as [x ->]. done.
Qed.

Lemma safe_bumpIncarnation (P : State -> Prop) (ti : Z) :
  (forall s, P s -> 0 <= ti < Z.of_nat (length (txIncarnations s))) ->
  safe P (bumpIncarnation ti).
Proof.
  intros Hti s HP. unfold bumpIncarnation.
  erewrite bind_Ok; [|reflexivity].
  destruct (incrAt_Some _ _ (Hti s HP)) as (x & _ & ->). done.
Qed.

Lemma safe_bumpDiagExecSuccess (P : State -> Prop) (ti : Z) :
  (forall s, P s -> 0 <= ti < Z.of_nat (length (diagExecSuccess (diag s)))) ->
  safe P (bumpDiagExecSuccess ti).
Proof.
  intros Hti s HP. unfold bumpDiagExecSuccess.
  erewrite bind_Ok; [|reflexivity].
  destruct (incrAt_Some _ _ (Hti s HP)) as (x & _ & ->). done.
Qed.

Lemma safe_bumpDiagExecAbort (P : State -> Prop) (ti : Z) :
  (forall s, P s -> 0 <= ti < Z.of_nat (length (diagExecAbort (diag s)))) ->
  safe P (bumpDiagExecAbort ti).
Proof.
  intros Hti s HP. unfold bumpDiagExecAbort.
  erewrite bind_Ok; [|reflexivity].
  destruct (incrAt_Some _ _ (Hti s HP)) as (x & _ & ->). done.
Qed.

Lemma safe_validateVersion (P : State -> Prop) (tx : Z) :
  (forall s, P s -> 0 <= tx < Z.of_nat (length (inputs (lastTxIO s)))) ->
  safe P (validateVersion tx).
Proof.
  intros Htx s HP. unfold validateVersion.
  erewrite bind_Ok; [|reflexivity].
  destruct (ValidateVersion_Some tx s (Htx s HP)) as [valid ->]. done.
Qed.

(** The loop over the estimates never reads past their end. *)
Lemma dropEstimates_total (l : nat) (ti dep : Z) (s : State) :
  (l <= length (estimatesOf s ti))%nat -> dropEstimates l ti dep s <> Panic.
Proof.
  revert s. induction l as [|l IH]; intros s Hl; [done|].
  simpl dropEstimates. erewrite bind_Ok; [|reflexivity]. cbn beta.
  destruct (lookup_lt_is_Some_2 (estimatesOf s ti) l) as [e He]; [lia|].
  rewrite He. erewrite bind_Ok; [|reflexivity]. cbn beta.
  case_decide; [|done].
  erewrite bind_Ok; [|reflexivity].
  erewrite bind_Ok; [|reflexivity].
  apply IH. destruct s. unfold estimatesOf in *. simpl in *.
  rewrite lookup_insert_eq. simpl. rewrite length_take. lia.
Qed.

Lemma safe_dropAll {B} (P : State -> Prop) (ti dep : Z) (k : M B) :
  (forall l, preserves P (dropEstimates l ti dep)) ->
  safe P k ->
  safe P (let* deps := gets (fun s => estimatesOf s ti) in
          do dropEstimates (length deps) ti dep then k).
Proof.
  intros Hp Hk s HP. erewrite bind_Ok; [|reflexivity]. cbn beta.
  unfold bind.
  destruct (dropEstimates (length (estimatesOf s ti)) ti dep s) as [u s1|] eqn:Hrun.
  - apply Hk. by eapply Hp.
  - exfalso. by apply dropEstimates_total in Hrun.
Qed.

Lemma safe_gets_pushPendingSet_bind {B} (P : State -> Prop) (f : State -> list Z)
    (mu : Mgr) (k : M B) :
  preserves P (bind (gets f) (fun range => pushPendingSet mu range)) ->
  safe P k ->
  safe P (bind (gets f) (fun range => bind (pushPendingSet mu range) (fun _ => k))).
Proof.
  intros Hp Hk s HP. erewrite bind_Ok; [|reflexivity]. cbn beta.
  erewrite bind_Ok; [|reflexivity]. apply Hk.
  eapply (Hp s tt); [exact HP|]. reflexivity.
Qed.

(** The structure of a computation, by its syntax; [ksolve] proves that
    a piece keeps the property, [lsolve] that an index is in range. *)
Ltac safes ksolve lsolve :=
  repeat
    lazymatch goal with
    | |- safe _ (bind (gets (fun s => estimatesOf s _))
                   (fun deps => bind (dropEstimates (length deps) _ _) (fun _ => _))) =>
        apply safe_dropAll; [intros ?; ksolve|]
    | |- safe _ (bind (gets _)
                   (fun range => bind (pushPendingSet _ range) (fun _ => _))) =>
        apply safe_gets_pushPendingSet_bind; [ksolve|]
    | |- safe _ (bind _ _) => apply safe_bind; [|ksolve|intros ?]
    | |- safe _ (ret _) => apply safe_ret
    | |- safe _ (gets _) => apply safe_gets
    | |- safe _ (modify _) => apply safe_modify
    | |- safe _ (emit _) => apply safe_emit
    | |- safe _ (forM_ _ _) => apply safe_forM_; [intros ? ?|intros ? ?; ksolve]
    | |- safe _ (takeNextPending _) => apply safe_takeNextPending
    | |- safe _ (addDependencies _ _ _) => apply safe_addDependencies
    | |- safe _ (txioRecordRead _ _) => apply safe_txioRecordRead; lsolve
    | |- safe _ (txioRecordWrite _ _) => apply safe_txioRecordWrite; lsolve
    | |- safe _ (txioRecordAllWrite _ _) => apply safe_txioRecordAllWrite; lsolve
    | |- safe _ (txioAllWriteSet _) => apply safe_txioAllWriteSet; lsolve
    | |- safe _ (bumpIncarnation _) => apply safe_bumpIncarnation; lsolve
    | |- safe _ (bumpDiagExecSuccess _) => apply safe_bumpDiagExecSuccess; lsolve
    | |- safe _ (bumpDiagExecAbort _) => apply safe_bumpDiagExecAbort; lsolve
    | |- safe _ (validateVersion _) => apply safe_validateVersion; lsolve
    | |- safe _ (if ?b then _ else _) => destruct b
    | |- safe _ (match ?x with _ => _ end) => destruct x
    | |- safe _ ?m => let h := head_of m in unfold h
    end.

Ltac ranged_keeps := solve [keeps; ranged_write].

Ltac ranged_index :=
  let s := fresh "s" in
  let H := fresh "H" in
  intros s H; destruct H as (? & Hsh & _);
  destruct Hsh as (? & ? & ? & ? & ? & ?);
  unfold inBatch in *; lia.

Lemma safe_handleSuccess (n : nat) (res : Result) :
  inBatch n (TxnIndex (ver res)) -> safe (ranged n) (handleSuccess res).
Proof. intros Hti. safes ranged_keeps ranged_index. Qed.

Lemma safe_handleAbort (n : nat) (res : Result) (dep : Z) :
  inBatch n (TxnIndex (ver res)) -> safe (ranged n) (handleAbort res dep).
Proof. intros Hti. safes ranged_keeps ranged_index. Qed.

Lemma safe_validateTx (n : nat) (tx : Z) :
  inBatch n tx -> safe (ranged n) (validateTx tx).
Proof. intros Htx. safes ranged_keeps ranged_index. Qed.

Lemma takeReady_subset (maxComplete : Z) (queue : list Z) (x : Z) :
  x ∈ takeReady maxComplete queue -> x ∈ queue.
Proof.
  induction queue as [|y queue IH]; simpl; [by intros ?%elem_of_nil|].
  case_decide; [|by intros ?%elem_of_nil].
  intros [->|Hx]%elem_of_cons; [by left|]. right. by apply IH.
Qed.

Lemma preserves_forM_in {A} (P : State -> Prop) (l : list A) (f : A -> M unit) :
  (forall x, x ∈ l -> preserves P (f x)) -> preserves P (forM_ l f).
Proof.
  induction l as [|x l IH]; intros Hf; simpl.
  - apply preserves_ret.
  - apply preserves_bind; [apply Hf; by left|intros _].
    apply IH. intros y Hy. apply Hf. by right.
Qed.

(** The validations: the indices taken from the validation queue are
    indices of the batch. *)
Lemma doValidations_ranged (n : nat) (s : State) :
  ranged n s -> exists s', doValidations s = Ok tt s' /\ ranged n s'.
Proof.
  intros Hs. unfold doValidations.
  erewrite bind_Ok; [|reflexivity]. cbn beta.
  erewrite bind_Ok; [|reflexivity]. cbn beta.
  pose proof (drainValidations_spec (length (Status.pending (validateTasks s)))
                (Status.maxAllComplete (execTasks s)) [] s (le_n _)) as Hdrain.
  cbn zeta in Hdrain.
  pose proof (ranged_drainValidations n _ _ _ s _ _ Hs Hdrain) as Hs1.
  erewrite bind_Ok; [|exact Hdrain]. simpl app.
  assert (Hin : forall x,
            x ∈ takeReady (Status.maxAllComplete (execTasks s))
                  (Status.pending (validateTasks s)) -> inBatch n x).
  { intros x Hx%takeReady_subset.
    destruct Hs as (_ & _ & _ & _ & _ & Hv & _). by eapply Forall_forall in Hv. }
  match goal with
  | |- exists s', forM_ ?l ?f ?s1 = _ /\ _ =>
      destruct (forM_ l f s1) as [[] s'|] eqn:Hrun
  end.
  - exists s'. split; [done|]. revert Hrun.
    apply (preserves_forM_in (ranged n)); [|exact Hs1].
    intros x Hx. apply ranged_validateTx. by apply Hin.
  - exfalso. revert Hrun. apply (safe_forM_ (ranged n)); [| |exact Hs1].
    + intros x Hx. apply safe_validateTx. by apply Hin.
    + intros x Hx. apply ranged_validateTx. by apply Hin.
Qed.

Lemma safe_dispatchNext (n : nat) (c : Chan) :
  c = ChTasks \/ c = ChSpeculativeTasks -> safe (ranged n) (dispatchNext c).
Proof.
  intros Hc s Hs.
  destruct (Status.pending (execTasks s)) as [|x rest] eqn:Hp.
  - unfold dispatchNext, takeNextPending.
    destruct s as [ts m c1 c2 c3 c4 et vt io incs est d re tr].
    cbn [execTasks] in Hp. mstep. unfold Status.takeNextPending. rewrite Hp.
    cbn [fst snd]. by rewrite decide_False by lia.
  - destruct Hs as (Hlen & Hsh & Hpend & _). rewrite Hp in Hpend.
    apply Forall_cons in Hpend as [Hx _]. unfold inBatch in Hx.
    destruct Hsh as (_ & _ & _ & Hincs & _).
    destruct (viewOf_Some (tasks s) (txIncarnations s) x) as (job & Hjob & _);
      [lia|done|].
    rewrite (dispatchNext_spec c s x rest job); [done|done|done|lia|done].
Qed.

Lemma safe_drainPending (n : nat) (k : nat) : safe (ranged n) (drainPending k).
Proof.
  induction k as [|k IH]; simpl; [apply safe_ret|].
  apply safe_bind; [apply safe_gets|apply preserves_gets|intros mp].
  case_decide; [|apply safe_ret].
  apply safe_bind; [apply safe_dispatchNext; by right|apply ranged_dispatchNext|].
  intros _. exact IH.
Qed.

Lemma safe_dispatch (n : nat) : safe (ranged n) dispatch.
Proof.
  unfold dispatch.
  apply safe_bind; [apply safe_gets|apply preserves_gets|intros mv].
  apply safe_bind; [apply safe_gets|apply preserves_gets|intros mp].
  apply safe_bind.
  - case_decide; [apply safe_dispatchNext; by left|apply safe_ret].
  - case_decide; [apply ranged_dispatchNext|apply preserves_ret].
  - intros _. apply safe_bind; [apply safe_gets|apply preserves_gets|intros k].
    apply safe_drainPending.
Qed.

Lemma safe_checkDone (P : State -> Prop) : safe P checkDone.
Proof.
  intros s _. unfold checkDone, logSummary.
  erewrite bind_Ok; [|reflexivity]. cbn beta. by case_decide.
Qed.

(** From a state with every index in the batch, a computation that is
    safe and keeps that property returns such a state. *)
Lemma safe_run {A} (P : State -> Prop) (m : M A) (s : State) :
  safe P m -> preserves P m -> P s -> exists a s', m s = Ok a s' /\ P s'.
Proof.
  intros Hsafe Hkeeps HP. destruct (m s) as [a s'|] eqn:Hrun.
  - exists a, s'. split; [done|]. by eapply Hkeeps.
  - exfalso. by apply (Hsafe s HP).
Qed.

Lemma afterResult_ranged (n : nat) (s : State) :
  ranged n s -> exists ctl s', afterResult s = Ok ctl s' /\ ranged n s'.
Proof.
  intros Hs. unfold afterResult.
  destruct (doValidations_ranged n s Hs) as (s1 & Hv & Hs1).
  erewrite bind_Ok; [|exact Hv].
  destruct (safe_run (ranged n) dispatch s1 (safe_dispatch n) (ranged_dispatch n) Hs1)
    as ([] & s2 & Hd & Hs2).
  erewrite bind_Ok; [|exact Hd].
  apply (safe_run (ranged n) checkDone s2 (safe_checkDone _) (ranged_checkDone n) Hs2).
Qed.

Lemma iteration_ranged (n : nat) (res : Result) (s : State) :
  ranged n s -> inBatch n (TxnIndex (ver res)) ->
  exists ctl s', iteration res s = Ok ctl s' /\ ranged n s'.
Proof.
  intros Hs Hti. unfold iteration. destruct (err res) as [e|].
  - destruct (isExecAbort e) as [dep|].
    + destruct (safe_run (ranged n) (handleAbort res dep) s
                  (safe_handleAbort n res dep Hti) (ranged_handleAbort n res dep Hti) Hs)
        as ([] & s1 & H1 & Hs1).
      erewrite bind_Ok; [|exact H1]. by apply afterResult_ranged.
    + eexists _, _. split; [reflexivity|].
      destruct Hs as (? & ? & ? & ? & ? & ? & ? & ? & ? & ?).
      unfold ranged. simpl. done.
  - destruct (safe_run (ranged n) (handleSuccess res) s
                (safe_handleSuccess n res Hti) (ranged_handleSuccess n res Hti) Hs)
      as ([] & s1 & H1 & Hs1).
    erewrite bind_Ok; [|exact H1]. by apply afterResult_ranged.
Qed.

Lemma coordinatorTurn_ranged (n : nat) (s : State) :
  ranged n s -> exists ctl s', coordinatorTurn s = Ok ctl s' /\ ranged n s'.
Proof.
  intros Hs. unfold coordinatorTurn. erewrite bind_Ok; [|reflexivity]. cbn beta.
  pose proof Hs as (Hlen & Hsh & Hp & Hc & Hd & Hv & Hq1 & Hq2 & Hr1 & Hr2).
  destruct (chResults s) as [|res rest] eqn:Hres.
  - destruct (chSpeculativeResults s) as [|res rest] eqn:Hsres.
    + by eexists _, _.
    + apply Forall_cons in Hr2 as [Hres0 Hr2].
      erewrite bind_Ok; [|reflexivity]. erewrite bind_Ok; [|reflexivity].
      apply iteration_ranged; [|exact Hres0].
      unfold ranged. simpl. rewrite Hres. done.
  - apply Forall_cons in Hr1 as [Hres0 Hr1].
    erewrite bind_Ok; [|reflexivity]. erewrite bind_Ok; [|reflexivity].
    apply iteration_ranged; [|exact Hres0].
    unfold ranged. simpl. done.
Qed.

(** A worker holds a result of an index of the batch, or none. *)
Definition workerInBatch (n : nat) (w : Worker) : Prop :=
  match w with
  | Idle => True
  | Executed res => resultInBatch n res
  | Sending res => resultInBatch n res
  end.

Lemma ExecVersionView_Execute_total (ev : View) (s : State) :
  0 <= ev_et ev < Z.of_nat (length (tasks s)) ->
  exists res s', ExecVersionView_Execute ev s = Ok res s'.
Proof.
  intros Hev. unfold ExecVersionView_Execute.
  erewrite bind_Ok; [|reflexivity]. cbn beta.
  destruct (index_Some _ _ Hev) as [t Ht]. rewrite Ht.
  erewrite bind_Ok; [|reflexivity]. cbn beta.
  erewrite bind_Ok; [|reflexivity]. cbn beta.
  erewrite bind_Ok; [|reflexivity]. cbn beta.
  destruct (Execute t (mvh s) (Incarnation (ev_ver ev))) as [t' e].
  rewrite store_Some by (destruct s; exact Hev).
  erewrite bind_Ok; [|reflexivity]. cbn beta.
  erewrite bind_Ok; [|reflexivity]. cbn beta.
  destruct e; by eexists _, _.
Qed.

Lemma workerTurn_ranged (n : nat) (p : nat) (w : Worker) (s : State) :
  ranged n s -> workerInBatch n w ->
  exists w' s', workerTurn p w s = Ok w' s' /\ ranged n s' /\ workerInBatch n w'.
Proof.
  intros Hs Hw.
  assert (Hsafe : workerTurn p w s <> Panic).
  { destruct w as [|res|res]; simpl.
    - erewrite bind_Ok; [|reflexivity]. cbn beta.
      destruct (taskChan (workerTaskChan p) s) as [|task rest] eqn:Hq; [done|].
      erewrite bind_Ok; [|reflexivity]. erewrite bind_Ok; [|reflexivity].
      assert (Htask : jobInBatch n task).
      { destruct Hs as (_ & _ & _ & _ & _ & _ & Hq1 & Hq2 & _).
        unfold workerTaskChan in Hq. case_decide; simpl in Hq.
        - rewrite Hq in Hq2. by apply Forall_cons in Hq2 as [? _].
        - rewrite Hq in Hq1. by apply Forall_cons in Hq1 as [? _]. }
      match goal with
      | |- bind (ExecVersionView_Execute task) _ ?s0 <> _ =>
          destruct (ExecVersionView_Execute_total task s0) as (res & s1 & Hex)
      end.
      { destruct Hs as (Hlen & _). destruct Htask as [_ Het]. unfold inBatch in Het.
        destruct (workerTaskChan p); simpl; lia. }
      erewrite bind_Ok; [|exact Hex]. done.
    - unfold doWork_flush. destruct (err res); [done|].
      erewrite bind_Ok; [|reflexivity]. done.
    - erewrite bind_Ok; [|reflexivity]. done. }
  destruct (workerTurn p w s) as [w' s'|] eqn:Hrun; [|done].
  exists w', s'. split; [done|].
  pose proof Hs as (Hlen & Hsh & Hp & Hc & Hd & Hv & Hq1 & Hq2 & Hr1 & Hr2).
  apply workerTurn_cases in Hrun. destruct w as [|res|res].
  - destruct Hrun as [(Hq & -> & ->)|(task & rest & res & Hq & Hex & ->)]; [done|].
    assert (Htask : jobInBatch n task /\
                    Forall (jobInBatch n)
                      (chTasks (with_taskChan (workerTaskChan p) rest s)) /\
                    Forall (jobInBatch n)
                      (chSpeculativeTasks (with_taskChan (workerTaskChan p) rest s))).
    { unfold workerTaskChan in *. case_decide; simpl in *.
      - rewrite Hq in Hq2. by apply Forall_cons in Hq2 as [? ?].
      - rewrite Hq in Hq1. by apply Forall_cons in Hq1 as [? ?]. }
    destruct Htask as ([Hadd Het] & Hq1' & Hq2').
    apply ExecVersionView_Execute_inv in Hex as (t0 & Hidx & Hres).
    cbn zeta in Hres. destruct Hres as (Hver & _ & _ & _ & ->).
    split.
    + unfold ranged, shaped in *.
      cbn [tasks mvh chTasks chSpeculativeTasks chResults chSpeculativeResults
           execTasks validateTasks lastTxIO txIncarnations diag trace
           with_tasks with_trace].
      rewrite length_insert.
      destruct (workerTaskChan p); simpl in *; intuition.
    + simpl. unfold resultInBatch. rewrite Hver, <- Hadd. exact Het.
  - destruct Hrun as [-> Hrun]. split; [|exact Hw].
    unfold doWork_flush in Hrun. destruct (err res).
    + by injection Hrun as <-.
    + unfold mvhFlushMVWriteSet in Hrun.
      apply bind_inv in Hrun as (u & s1 & H1 & Hrun). injection H1 as _ <-.
      injection Hrun as <-. unfold ranged. simpl. done.
  - destruct Hrun as [-> Hrun]. split; [|done].
    unfold sendResult in Hrun.
    apply bind_inv in Hrun as (u & s1 & H1 & Hrun). injection H1 as _ <-.
    injection Hrun as <-. simpl in Hw. clear Hsafe. ranged_write.
Qed.

Lemma ranged_afterSetup (ts : list T) (jobs : list View) :
  mapM (firstView ts) (take numSpeculativeProcs (firsts ts)) = Some jobs ->
  ranged (length ts) (afterSetup ts jobs).
Proof.
  intros Hjobs. apply mapM_firstView in Hjobs as [_ Hjobs].
  set (m1 := foldl chain (Status.makeStatusManager (length ts)) (chained ts)).
  destruct (chains_spec (chained ts) (Status.makeStatusManager (length ts)) eq_refl)
    as (Hc & Hi & Hp & Hd). fold m1 in Hc, Hi, Hp, Hd.
  assert (Hm1 : Status.pending m1 = firsts ts) by by rewrite Hp.
  destruct (takeMany_others numSpeculativeProcs m1) as [Hc' Hd'].
  unfold ranged, afterSetup, shaped.
  cbn [tasks chTasks chSpeculativeTasks chResults chSpeculativeResults execTasks
       validateTasks lastTxIO txIncarnations diag diagExecSuccess diagExecAbort].
  fold m1. simpl inputs. simpl outputs. simpl allOutputs.
  rewrite !length_replicate, takeMany_pending, Hm1, Hc', Hd', Hc.
  repeat apply conj; try done.
  - apply Forall_forall. intros x Hx. apply (firsts_range ts).
    by eapply subseteq_drop.
  - apply Forall_forall. intros [b d] Hin. apply Hd in Hin as [Hin|Hin].
    { by apply elem_of_nil in Hin. }
    apply chained_spec in Hin as (j & i & _ & -> & _ & a & Ha & _).
    apply lookup_lt_Some in Ha. rewrite length_fmap in Ha.
    simpl. unfold inBatch. lia.
  - eapply Forall_impl; [exact Hjobs|]. intros job (_ & Hadd & t & Ht & _).
    split; [done|]. by eapply index_range.
Qed.

(** The invariant of the run, for a batch [ts]. *)
Definition rangedInvariant (ts : list T) (sys : System) : Prop :=
  match sys with
  | Running s ws => ranged (length ts) s /\ Forall (workerInBatch (length ts)) ws
  | Returned s => length (tasks s) = length ts /\ shaped s
  | Crashed => False
  end.

Lemma start_rangedInvariant (ts : list T) : rangedInvariant ts (start ts).
Proof.
  destruct ts as [|t ts].
  - unfold start. simpl. by repeat split.
  - destruct (start_spec (t :: ts)) as (jobs & Hjobs & ->); [done|].
    split; [by apply ranged_afterSetup|]. by apply Forall_replicate.
Qed.

Lemma step_rangedInvariant (ts : list T) (sys : System) (t : Turn) :
  rangedInvariant ts sys -> rangedInvariant ts (step sys t).
Proof.
  destruct sys as [s ws| |]; [|done|done].
  intros [Hs Hws]. destruct t as [|p]; unfold step.
  - destruct (coordinatorTurn_ranged _ s Hs) as (ctl & s' & -> & Hs').
    destruct ctl; [done|].
    destruct (closeAll s') as [u s''|] eqn:Hclose; [|by destruct s'].
    apply closeAll_inv in Hclose as ->.
    destruct Hs' as (Hlen & Hsh & _). done.
  - destruct (ws !! p) as [w|] eqn:Hw; [|done].
    assert (Hwb : workerInBatch (length ts) w).
    { eapply Forall_forall in Hws; [exact Hws|]. by eapply list_elem_of_lookup_2. }
    destruct (workerTurn_ranged _ p w s Hs Hwb) as (w' & s' & -> & Hs' & Hw').
    split; [done|]. by apply Forall_insert.
Qed.

Lemma run_rangedInvariant (ts : list T) (sched : list Turn) :
  rangedInvariant ts (ExecuteParallel ts sched).
Proof.
  apply (run_invariant (rangedInvariant ts) (step_rangedInvariant ts)).
  apply start_rangedInvariant.
Qed.

(** X17. [ExecuteParallel] never panics: whatever the tasks do and whatever
    the schedule, no slice is indexed out of its range (the tasks, the
    table, the incarnations, the counters per index, the estimates). *)
Theorem ExecuteParallel_never_panics (ts : list T) (sched : list Turn) :
  ExecuteParallel ts sched <> Crashed.
Proof.
  intros Hcrash. pose proof (run_rangedInvariant ts sched) as Hinv.
  by rewrite Hcrash in Hinv.
Qed.

(** X18. While [ExecuteParallel] runs, every index it holds is an index of the
    batch: the pending and complete indices of the execution manager,
    the dependents of its edges, the indices queued for validation, the
    indices of the jobs and of the results in the four channels and of
    the results held by the workers; and the per-index slices keep the
    length of the batch. *)
Theorem ExecuteParallel_indices_in_batch (ts : list T) (sched : list Turn)
    (s : State) (ws : list Worker) :
  ExecuteParallel ts sched = Running s ws ->
  ranged (length ts) s /\ Forall (workerInBatch (length ts)) ws.
Proof.
  intros Hrun. pose proof (run_rangedInvariant ts sched) as Hinv.
  by rewrite Hrun in Hinv.
Qed.

(** X19. The table that [ExecuteParallel] returns has one read set, one write
    set and one full write set for each index of the batch, and for no
    other index. *)
Theorem ExecuteParallel_returned_table (ts : list T) (sched : list Turn)
    (io : TxnInputOutput Key Val) (e : option error) (i : Z) :
  returned (ExecuteParallel ts sched) = Some (io, e) ->
  (is_Some (ReadSet io i) <-> 0 <= i < Z.of_nat (length ts)) /\
  (is_Some (WriteSet io i) <-> 0 <= i < Z.of_nat (length ts)) /\
  (is_Some (AllWriteSet io i) <-> 0 <= i < Z.of_nat (length ts)).
Proof.
  intros Hret. pose proof (run_rangedInvariant ts sched) as Hinv.
  destruct (ExecuteParallel ts sched) as [s ws|s|]; [done| |done].
  simpl in Hret. injection Hret as <- _.
  destruct Hinv as (Hlen & Hi & Ho & Ha & _).
  assert (Hidx : forall A (l : list A),
            length l = length ts ->
            is_Some (index l i) <-> 0 <= i < Z.of_nat (length ts)).
  { intros A l Hl. split.
    - intros [x Hx]. apply index_range in Hx. lia.
    - intros Hi'. destruct (index_Some l i) as [x ->]; [lia|]. by eexists. }
  unfold ReadSet, WriteSet, AllWriteSet.
  rewrite !Hidx by congruence. done.
Qed.

(** *** When the channels are closed and the summary is logged *)

(** The events of the loop: all but the closing of a channel and the
    summary. *)
Definition quiet (e : Ev) : bool :=
  match e with
  | EvClose _ => false
  | EvLogSummary _ _ _ _ _ => false
  | _ => true
  end.

Definition quietTrace (tr : list Ev) : Prop := Forall (fun e => quiet e = true) tr.

(** The summary [ExecuteParallel] logs in state [s]. *)
Definition summaryOf (s : State) : Ev :=
  EvLogSummary (cntExec (diag s)) (cntSuccess (diag s)) (cntAbort (diag s))
    (cntTotalValidations (diag s)) (cntValidationFail (diag s)).

Definition closes : list Ev :=
  [EvClose ChTasks; EvClose ChSpeculativeTasks; EvClose ChResults;
   EvClose ChSpeculativeResults].

(** The end of the trace of a call that has left its loop in state [s]:
    the summary when the error is nil, nothing otherwise. *)
Definition exitEvents (s : State) : list Ev :=
  match returnErr s with
  | None => [summaryOf s]
  | Some _ => []
  end.

Definition looping (s : State) : Prop := returnErr s = None /\ quietTrace (trace s).

Ltac looping_write :=
  intros;
  repeat match goal with
         | mu : Mgr |- _ => destruct mu
         | c : Chan |- _ => destruct c
         | H : looping _ |- _ => destruct H as [? ?]
         end;
  unfold looping, quietTrace, workerTaskChan, workerResultChan in *;
  repeat case_decide;
  cbn [manager with_manager taskChan with_taskChan resultChan with_resultChan
       with_tasks with_mvh with_chTasks with_chSpeculativeTasks with_chResults
       with_chSpeculativeResults with_execTasks with_validateTasks with_lastTxIO
       with_txIncarnations with_estimateDeps with_diag with_returnErr with_trace
       tasks mvh chTasks chSpeculativeTasks chResults chSpeculativeResults
       execTasks validateTasks lastTxIO txIncarnations estimateDeps diag
       returnErr trace] in *;
  split; first [assumption | apply Forall_app; split; [assumption|by repeat constructor]].

Lemma looping_handleSuccess res : preserves looping (handleSuccess res).
Proof. keeps; looping_write. Qed.

Lemma looping_handleAbort res dep : preserves looping (handleAbort res dep).
Proof. keeps; looping_write. Qed.

Lemma looping_doValidations : preserves looping doValidations.
Proof. keeps; looping_write. Qed.

Lemma looping_dispatch : preserves looping dispatch.
Proof. keeps; looping_write. Qed.

Lemma looping_workerTurn p w : preserves looping (workerTurn p w).
Proof. keeps; looping_write. Qed.

Lemma iteration_looping (res : Result) (s : State) (ctl : LoopCtl) (s' : State) :
  looping s ->
  iteration res s = Ok ctl s' ->
  match ctl with
  | Continue => looping s'
  | Break => exists tr, quietTrace tr /\ trace s' = tr ++ exitEvents s'
  end.
Proof.
  intros Hs Hrun.
  assert (Hafter : forall s1, looping s1 -> afterResult s1 = Ok ctl s' ->
            match ctl with
            | Continue => looping s'
            | Break => exists tr, quietTrace tr /\ trace s' = tr ++ exitEvents s'
            end).
  { intros s1 Hs1 (s2 & s3 & Hv & Hd & Hc)%afterResult_cases.
    apply (looping_doValidations _ _ _ Hs1) in Hv.
    apply (looping_dispatch _ _ _ Hv) in Hd.
    apply checkDone_cases in Hc as [(_ & -> & ->)|(_ & -> & ->)]; [|done].
    destruct Hd as [Herr Hq]. exists (trace s3). split; [done|].
    unfold exitEvents. simpl. by rewrite Herr. }
  apply iteration_cases in Hrun
    as [(He & s1 & H1 & H2)|[(e & dep & He & Hab & s1 & H1 & H2)|(e & He & Hab & -> & ->)]].
  - apply (Hafter s1); [|done]. by eapply looping_handleSuccess.
  - apply (Hafter s1); [|done]. by eapply looping_handleAbort.
  - destruct Hs as [_ Hq]. exists (trace s). split; [done|].
    unfold exitEvents. simpl. by rewrite app_nil_r.
Qed.

Lemma quietTrace_setup (n : nat) (calls : list (Z * Z)) (jobs : list View) :
  quietTrace (setupTrace n calls jobs).
Proof.
  unfold quietTrace, setupTrace. repeat apply Forall_app_2.
  - by repeat constructor.
  - apply Forall_forall. by intros e (k & -> & _)%list_elem_of_fmap.
  - apply Forall_forall. intros e (c & He & _)%list_elem_of_bind.
    unfold chainCalls in He. apply elem_of_cons in He as [->|He]; [done|].
    by apply list_elem_of_singleton in He as ->.
  - apply Forall_forall. intros e (job & He & _)%list_elem_of_bind.
    unfold dispatchCalls in He. apply elem_of_cons in He as [->|He]; [done|].
    by apply list_elem_of_singleton in He as ->.
  - apply Forall_forall. by intros e [-> _]%elem_of_replicate.
Qed.

Definition closingInvariant (ts : list T) (sys : System) : Prop :=
  match sys with
  | Running s _ => looping s
  | Returned s =>
      (ts = [] /\ trace s = []) \/
      (exists tr, quietTrace tr /\ trace s = tr ++ exitEvents s ++ closes)
  | Crashed => True
  end.

Lemma start_closingInvariant (ts : list T) : closingInvariant ts (start ts).
Proof.
  destruct ts as [|t ts].
  - unfold start. simpl. by left.
  - destruct (start_spec (t :: ts)) as (jobs & _ & ->); [done|].
    split; [done|]. apply quietTrace_setup.
Qed.

Lemma step_closingInvariant (ts : list T) (sys : System) (t : Turn) :
  closingInvariant ts sys -> closingInvariant ts (step sys t).
Proof.
  destruct sys as [s ws| |]; [|done|done].
  intros Hs. destruct t as [|p]; unfold step.
  - destruct (coordinatorTurn s) as [ctl s'|] eqn:Hturn; [|done].
    assert (Hs' : match ctl with
                  | Continue => looping s'
                  | Break => exists tr, quietTrace tr /\ trace s' = tr ++ exitEvents s'
                  end).
    { apply coordinatorTurn_cases in Hturn
        as [(_ & _ & -> & ->)|(c & res & rest & Hc & Hrun)]; [done|].
      eapply iteration_looping; [|exact Hrun].
      destruct Hs as [Herr Hq]. split; [by destruct c|].
      destruct c; simpl; apply Forall_app; split; try done; by repeat constructor. }
    destruct ctl; [done|].
    destruct (closeAll s') as [u s''|] eqn:Hclose; [|done].
    apply closeAll_inv in Hclose as ->. right.
    destruct Hs' as (tr & Hq & Htr). exists tr. split; [done|].
    unfold exitEvents in *. simpl. rewrite Htr, <- app_assoc. done.
  - destruct (ws !! p) as [w|]; [|done].
    destruct (workerTurn p w s) as [w' s'|] eqn:Hturn; [|done].
    simpl. by eapply looping_workerTurn.
Qed.

(** X20. While [ExecuteParallel] runs, no channel has been closed and no
    summary has been logged, and its error is nil. *)
Theorem ExecuteParallel_running_open (ts : list T) (sched : list Turn)
    (s : State) (ws : list Worker) :
  ExecuteParallel ts sched = Running s ws ->
  returnErr s = None /\ Forall (fun e => quiet e = true) (trace s).
Proof.
  intros Hrun.
  pose proof (run_invariant (closingInvariant ts) (step_closingInvariant ts)
                sched (start ts) (start_closingInvariant ts)) as Hinv.
  fold (ExecuteParallel ts sched) in Hinv. by rewrite Hrun in Hinv.
Qed.

(** X21. When [ExecuteParallel] returns from a batch that is not empty, its
    trace ends with the four [close] calls, in the order [chTasks],
    [chSpeculativeTasks], [chResults], [chSpeculativeResults]; right
    before them stands the summary, with the five counters as they are
    at the return, exactly when the error is nil; and nothing before is
    a [close] or a summary: each channel is closed once, and the summary
    is logged once on success and never on failure. *)
Theorem ExecuteParallel_closes_at_return (ts : list T) (sched : list Turn) (s : State) :
  ts <> [] ->
  ExecuteParallel ts sched = Returned s ->
  exists tr,
    Forall (fun e => quiet e = true) tr /\
    trace s = tr ++
      match returnErr s with
      | None => [EvLogSummary (cntExec (diag s)) (cntSuccess (diag s)) (cntAbort (diag s))
                   (cntTotalValidations (diag s)) (cntValidationFail (diag s))]
      | Some _ => []
      end ++
      [EvClose ChTasks; EvClose ChSpeculativeTasks; EvClose ChResults;
       EvClose ChSpeculativeResults].
Proof.
  intros Hne Hret.
  pose proof (run_invariant (closingInvariant ts) (step_closingInvariant ts)
                sched (start ts) (start_closingInvariant ts)) as Hinv.
  fold (ExecuteParallel ts sched) in Hinv. rewrite Hret in Hinv.
  destruct Hinv as [[-> _]|Hinv]; [done|exact Hinv].
Qed.

End Executor.

Arguments Ok {Key EqDecision0 H Val Address T A} a s.
Arguments Panic {Key EqDecision0 H Val Address T A}.

(** ** Concrete batches *)

(** A task with a fixed outcome: [Execute] returns [sc_outcome] whatever
    the map holds, and the task reports [sc_writes] as its write list and
    no read. *)
Record ScriptedTask := mkScripted {
  sc_sender : Z;
  sc_outcome : option error;
  sc_writes : list (WriteDescriptor Z Z)
}.

Global Instance ScriptedTask_ExecTask : ExecTask Z Z Z ScriptedTask := {|
  Execute t _ _ := (t, sc_outcome t);
  MVReadList _ := [];
  MVWriteList t := sc_writes t;
  MVFullWriteList t := sc_writes t;
  Sender t := sc_sender t
|}.

Abbreviation ScriptedState := (State (Key := Z) (Val := Z) (Address := Z) (T := ScriptedTask)).
Abbreviation ScriptedSystem := (System (Key := Z) (Val := Z) (Address := Z) (T := ScriptedTask)).

Definition write (k : Z) (ti inc : Z) (v : Z) : WriteDescriptor Z Z :=
  mkWrite k (mkVersion ti inc) v.

(** A task of sender [i] that succeeds and writes key [i]. *)
Definition succeeds (i : Z) : ScriptedTask :=
  mkScripted i None [write i i 0 1].

(** A task that aborts on every call, without a known dependency. *)
Definition alwaysAborts : ScriptedTask :=
  mkScripted 0 (Some (ErrExecAbortError (-1))) [].

(** A task that fails with an error that is not an abort. *)
Definition fails : ScriptedTask :=
  mkScripted 0 (Some (ErrOther "boom")) [].

Definition stateOf (sys : ScriptedSystem) : ScriptedState :=
  match sys with
  | Running s _ => s
  | Returned s => s
  | Crashed => initState []
  end.

Definition outcome (r : Res (Key := Z) (Val := Z) (Address := Z) (T := ScriptedTask) unit)
  : ScriptedState :=
  match r with
  | Ok _ s => s
  | Panic => initState []
  end.

(** Three tasks of three senders, after the set-up. *)
Definition three : ScriptedState :=
  stateOf (ExecuteParallel [succeeds 0; succeeds 1; succeeds 2] []).

Lemma three_sized : sized three.
Proof. constructor; vm_compute; first [reflexivity|discriminate]. Defined.

(** *** C2 *)

(** C2 as stated fails on a write list that repeats a path: [txo] writes
    key 1 twice and [cmpSet] writes key 1 once, so every path of [txo] is
    a path of [cmpSet], and [hasNewWrite] answers true because [txo] is
    the longer slice. *)
Lemma hasNewWrite_repeated_path :
  hasNewWrite [write 1 0 0 7; write 1 0 0 8] [write 1 0 0 7] = true /\
  (forall k, k ∈ (Path <$> [write 1 0 0 7; write 1 0 0 8]) ->
             k ∈ (Path <$> [write 1 0 0 7])).
Proof.
  split; [reflexivity|]. intros k Hk. simpl in *.
  apply elem_of_cons in Hk as [->|Hk]; [by left|]. exact Hk.
Qed.

Lemma hasNewWrite_iff_not_subset_witness :
  NoDup (Path <$> [write 1 0 0 7; write 2 0 0 8]) /\
  (hasNewWrite [write 1 0 0 7; write 2 0 0 8] [write 1 0 0 7; write 3 0 0 9] = true <->
   ~ (forall k, k ∈ (Path <$> [write 1 0 0 7; write 2 0 0 8]) ->
                k ∈ (Path <$> [write 1 0 0 7; write 3 0 0 9]))).
Proof.
  assert (Hnd : NoDup (Path <$> [write 1 0 0 7; write 2 0 0 8])).
  { simpl. apply NoDup_cons. split.
    - intros Hin. apply list_elem_of_singleton in Hin. discriminate.
    - apply NoDup_singleton. }
  split; [exact Hnd|].
  exact (hasNewWrite_iff_not_subset _ _ Hnd).
Defined.

(** *** C3: task 0 is re-executed (incarnation 1) and now writes key 5
    instead of key 0 *)

Definition rerun0 : ExecResult Z Z :=
  mkExecResult None (mkVersion 0 1) [] [write 5 0 1 1] [write 5 0 1 1].

(** The state in which incarnation 0 of task 0 has been recorded. *)
Definition afterFirst : ScriptedState :=
  outcome (handleSuccess (mkExecResult None (mkVersion 0 0) [] [write 0 0 0 1] [write 0 0 0 1])
             three).

Lemma afterFirst_sized : sized afterFirst.
Proof. constructor; vm_compute; first [reflexivity|discriminate]. Defined.

Lemma handleSuccess_calls_witness :
  sized afterFirst /\
  validIndex afterFirst 0 /\
  exists s',
    handleSuccess rerun0 afterFirst = Ok tt s' /\
    trace s' = trace afterFirst ++
      [EvRecordRead 0 [];
       EvStatus ValidateTasks (PushPendingSet []);
       EvDelete 0 0;
       EvRecordWrite 0 [write 5 0 1 1];
       EvRecordAllWrite 0 [write 5 0 1 1];
       EvStatus ValidateTasks (PushPending 0);
       EvStatus ExecTasks (MarkComplete 0);
       EvStatus ExecTasks (RemoveDependency 0)].
Proof.
  assert (Hv : validIndex afterFirst 0) by (vm_compute; split; [discriminate|reflexivity]).
  split; [exact afterFirst_sized|]. split; [exact Hv|].
  destruct (handleSuccess_calls rerun0 afterFirst afterFirst_sized Hv)
    as (prev & s' & Hprev & Hrun & _ & Htrace & _).
  exists s'. split; [exact Hrun|].
  vm_compute in Hprev. injection Hprev as <-.
  rewrite Htrace. reflexivity.
Defined.

(** *** C4: task 2 aborts on a dependency on task 0 while [estimateDeps[2]]
    holds the estimates 0 and 1 *)

Definition estimated : ScriptedState :=
  with_estimateDeps (<[2 := [0; 1]]> (estimateDeps three)) three.

Definition abort2 (dep : Z) : ExecResult Z Z :=
  mkExecResult (Some (ErrExecAbortError dep)) (mkVersion 2 0) [] [] [].

Lemma estimated_sized : sized estimated.
Proof. constructor; vm_compute; first [reflexivity|discriminate]. Defined.

Lemma handleAbort_known_dependency_witness :
  sized estimated /\
  validIndex estimated 2 /\
  0 >= 0 /\
  exists s',
    handleAbort (abort2 0) 0 estimated = Ok tt s' /\
    estimatesOf s' 2 = [0] /\
    trace s' = trace estimated ++
      [EvStatus ExecTasks (RemoveDependency 1);
       EvStatus ExecTasks (AddDependencies 0 2);
       EvStatus ExecTasks (ClearInProgress 2)] /\
    index (txIncarnations s') 2 = Some 1.
Proof.
  assert (Hv : validIndex estimated 2) by (vm_compute; split; [discriminate|reflexivity]).
  assert (Hd : 0 >= 0) by lia.
  split; [exact estimated_sized|]. split; [exact Hv|]. split; [exact Hd|].
  destruct (handleAbort_known_dependency (abort2 0) 0 estimated estimated_sized Hv Hd)
    as (s' & x & Hrun & Hsplit & _ & _ & Htrace & _ & _ & Hx & Hx').
  exists s'. split; [exact Hrun|].
  vm_compute in Hx. injection Hx as <-.
  split; [|split; [rewrite Htrace; reflexivity|exact Hx']].
  change (estimatesOf estimated (TxnIndex (ver (abort2 0)))) with [0; 1] in Hsplit.
  change (reverse (poppedEstimates 0 (reverse [0; 1]))) with [1] in Hsplit.
  change (TxnIndex (ver (abort2 0))) with 2 in Hsplit.
  destruct (estimatesOf s' 2) as [|a [|b [|c l]]]; try discriminate Hsplit.
  injection Hsplit as <-. reflexivity.
Defined.

(** *** C5: task 2 aborts without a known dependency, with no estimate so
    far *)

Lemma handleAbort_unknown_dependency_witness :
  sized three /\
  validIndex three 2 /\
  -1 < 0 /\
  GoInt.in_range (0 + 1) /\
  exists s',
    handleAbort (abort2 (-1)) (-1) three = Ok tt s' /\
    estimatesOf s' 2 = [1] /\
    index (txIncarnations s') 2 = Some 1.
Proof.
  assert (Hv : validIndex three 2) by (vm_compute; split; [discriminate|reflexivity]).
  assert (Hd : -1 < 0) by lia.
  assert (Hr : GoInt.in_range (0 + 1)) by (vm_compute; split; discriminate).
  split; [exact three_sized|]. split; [exact Hv|]. split; [exact Hd|].
  split; [exact Hr|].
  destruct (handleAbort_unknown_dependency (abort2 (-1)) (-1) three three_sized Hv Hd Hr)
    as (s' & x & Hrun & Hx & Hx' & Hblocked & _).
  exists s'. split; [exact Hrun|].
  vm_compute in Hx. injection Hx as <-.
  split; [|exact Hx'].
  destruct Hblocked as (_ & Hest & _); [vm_compute; discriminate|].
  exact Hest.
Defined.

(** *** C6: the recorded read of task 1 is a storage read of key 0, which
    task 0 has written since *)

Definition staleRead : ScriptedState :=
  with_mvh (MVHashMap_FlushMVWriteSet [write 0 0 0 1] (mvh afterFirst))
    (with_lastTxIO
       (default (lastTxIO afterFirst)
          (recordAllWrite
             (default (lastTxIO afterFirst)
                (recordRead (lastTxIO afterFirst) 1
                   [mkRead 0 ReadKindStorage (mkVersion (-1) 0)]))
             1 [write 1 1 0 1]))
       afterFirst).

Lemma staleRead_sized : sized staleRead.
Proof. constructor; vm_compute; first [reflexivity|discriminate]. Defined.

Lemma doValidations_behaviour_witness :
  sized staleRead /\
  validIndex staleRead 1 /\
  exists s',
    ValidateVersion 1 (lastTxIO staleRead) (mvh staleRead) (execTasks staleRead) = Some false /\
    validateTx 1 staleRead = Ok tt s' /\
    trace s' = trace staleRead ++
      [EvMarkEstimate 1 1;
       EvStatus ValidateTasks (PushPendingSet []);
       EvStatus ValidateTasks (ClearInProgress 1)].
Proof.
  assert (Hv : validIndex staleRead 1) by (vm_compute; split; [discriminate|reflexivity]).
  split; [exact staleRead_sized|]. split; [exact Hv|].
  destruct (doValidations_behaviour staleRead) as (_ & _ & Hall).
  destruct (Hall 1 staleRead staleRead_sized Hv)
    as (valid & s' & Hvalid & Hrun & _ & Hfail).
  exists s'.
  assert (Hf : valid = false).
  { vm_compute in Hvalid. by injection Hvalid as <-. }
  subst valid. split; [exact Hvalid|]. split; [exact Hrun|].
  destruct (Hfail eq_refl) as (ws & x & Hws & _ & _ & _ & Htrace & _).
  vm_compute in Hws. injection Hws as <-.
  rewrite Htrace. reflexivity.
Defined.

(** *** C7: thirty tasks of thirty senders *)

Definition thirty : list ScriptedTask := succeeds <$> (Z.of_nat <$> seq 0 30).

(** Worker 0 has executed task 0, flushed and sent its result. *)
Definition firstResultSent : ScriptedState :=
  stateOf (ExecuteParallel thirty [WorkerTurn 0; WorkerTurn 0; WorkerTurn 0]).

(** The coordinator has received that result, handled it and validated:
    the state in which it starts to dispatch. *)
Definition beforeDispatch : ScriptedState :=
  match chSpeculativeResults firstResultSent with
  | res :: rest =>
      outcome
        (bind (modify (with_chSpeculativeResults rest))
           (fun _ => bind (emit (EvRecvResult ChSpeculativeResults res))
           (fun _ => bind (handleSuccess res) (fun _ => doValidations)))
           firstResultSent)
  | [] => initState []
  end.

Lemma beforeDispatch_sized : sized beforeDispatch.
Proof. constructor; vm_compute; first [reflexivity|discriminate]. Defined.

Lemma beforeDispatch_queue :
  Status.pending (execTasks beforeDispatch) = Z.of_nat <$> seq 16 14.
Proof. vm_compute. reflexivity. Defined.

Lemma beforeDispatch_validated :
  Status.maxAllComplete (validateTasks beforeDispatch) = 0.
Proof. vm_compute. reflexivity. Defined.

(** The coordinator's turn on [firstResultSent] is this dispatch followed
    by the test of termination. *)
Lemma beforeDispatch_reached :
  coordinatorTurn firstResultSent =
  bind dispatch (fun _ => checkDone) beforeDispatch.
Proof. vm_compute. reflexivity. Qed.

(** C7 as stated fails: with a validated prefix that ends at index 0, the
    dispatch sends index 29 to [chSpeculativeTasks]; nothing caps the
    speculative jobs at the look-ahead of 20. *)
Lemma dispatch_speculation_not_capped :
  exists s',
    dispatch beforeDispatch = Ok tt s' /\
    mkView (mkVersion 29 0) 29 29 ∈
      drop (length (chSpeculativeTasks beforeDispatch)) (chSpeculativeTasks s') /\
    ~ speculationCapped beforeDispatch s'.
Proof.
  eexists. split; [vm_compute; reflexivity|].
  assert (Hin : mkView (mkVersion 29 0) 29 29 ∈
      drop (length (chSpeculativeTasks beforeDispatch))
        (chSpeculativeTasks (outcome (dispatch beforeDispatch)))).
  { apply list_elem_of_lookup. exists 12%nat. vm_compute. reflexivity. }
  split; [exact Hin|].
  intros Hcap. specialize (Hcap _ Hin).
  rewrite beforeDispatch_validated in Hcap. simpl in Hcap. lia.
Qed.

Lemma dispatch_policy_witness :
  sized beforeDispatch /\
  Forall (validIndex beforeDispatch) (Status.pending (execTasks beforeDispatch)) /\
  exists s',
    dispatch beforeDispatch = Ok tt s' /\
    (TxnIndex ∘ ev_ver <$> chTasks s') = [16] /\
    (TxnIndex ∘ ev_ver <$> drop 15 (chSpeculativeTasks s')) = Z.of_nat <$> seq 17 13 /\
    Status.pending (execTasks s') = [].
Proof.
  assert (Hq : Forall (validIndex beforeDispatch) (Status.pending (execTasks beforeDispatch))).
  { rewrite beforeDispatch_queue. simpl.
    repeat (constructor; [vm_compute; split; [discriminate|reflexivity]|]).
    constructor. }
  split; [exact beforeDispatch_sized|]. split; [exact Hq|].
  destruct (dispatch_policy beforeDispatch beforeDispatch_sized Hq)
    as (jobsD & jobsS & s' & HjobsD & HjobsS & Hrun & _ & _ & HchT & HchS & _ & _ & Hpend & _).
  exists s'. split; [exact Hrun|].
  vm_compute in HjobsD. injection HjobsD as <-.
  vm_compute in HjobsS. injection HjobsS as <-.
  rewrite HchT, HchS. split; [vm_compute; reflexivity|].
  split; [vm_compute; reflexivity|exact Hpend].
Defined.

(** *** C8: a worker processes the job of task 0 *)

Lemma doWork_body_flushes_then_sends_witness :
  index (tasks three) 0 = Some (succeeds 0) /\
  exists res s',
    doWork_body ChSpeculativeResults (mkView (mkVersion 0 0) 0 0) three = Ok tt s' /\
    err res = None /\
    chSpeculativeResults s' = [res] /\
    trace s' = trace three ++
      [EvExecute 0 0;
       EvFlushMVWriteSet [write 0 0 0 1];
       EvSendResult ChSpeculativeResults res].
Proof.
  assert (Ht : index (tasks three) (ev_et (mkView (mkVersion 0 0) 0 0)) = Some (succeeds 0))
    by (vm_compute; reflexivity).
  split; [exact Ht|].
  destruct (doWork_body_flushes_then_sends ChSpeculativeResults
              (mkView (mkVersion 0 0) 0 0) three (succeeds 0) Ht)
    as (res & s' & Hrun & _ & Herr & Hch & Hok & _).
  exists res, s'. split; [exact Hrun|]. split; [exact Herr|].
  split; [exact Hch|].
  destruct (Hok eq_refl) as (_ & _ & Htrace). exact Htrace.
Defined.

(** *** C9: a batch whose only task fails *)

Definition failedSchedule : list Turn :=
  [WorkerTurn 0; WorkerTurn 0; WorkerTurn 0; Coordinator].

Definition failedState : ScriptedState :=
  stateOf (ExecuteParallel [fails] failedSchedule).

Lemma ExecuteParallel_returned_error_witness :
  ExecuteParallel [fails] failedSchedule = Returned failedState /\
  returned (ExecuteParallel [fails] failedSchedule)
    = Some (lastTxIO failedState, Some (ErrOther "boom")) /\
  Some (ErrOther "boom") = firstFatal (trace failedState).
Proof.
  assert (H1 : ExecuteParallel [fails] failedSchedule = Returned failedState)
    by (vm_compute; reflexivity).
  assert (H2 : returned (ExecuteParallel [fails] failedSchedule)
               = Some (lastTxIO failedState, Some (ErrOther "boom")))
    by (vm_compute; reflexivity).
  split; [exact H1|]. split; [exact H2|].
  exact (proj1 (ExecuteParallel_returned_error [fails] failedSchedule
                  (lastTxIO failedState) (Some (ErrOther "boom")) failedState H1 H2)).
Defined.

(** *** C1: a task that aborts on every call *)

Definition abortResult (r : ExecResult Z Z) : Prop :=
  err r = Some (ErrExecAbortError (-1)).

(** No index is complete for execution, the batch is the one task that
    always aborts, and every result in the channels is an abort. *)
Definition stuckState (s : ScriptedState) : Prop :=
  Status.complete (execTasks s) = [] /\
  tasks s = [alwaysAborts] /\
  Forall abortResult (chResults s) /\
  Forall abortResult (chSpeculativeResults s).

Definition stuckWorker (w : Worker (Key := Z) (Val := Z)) : Prop :=
  match w with
  | Idle => True
  | Executed r => abortResult r
  | Sending r => abortResult r
  end.

Definition neverDone (sys : ScriptedSystem) : Prop :=
  match sys with
  | Running s ws => stuckState s /\ Forall stuckWorker ws
  | Returned _ => False
  | Crashed => True
  end.

Lemma stuck_takeNextPending (m : Status.StatusManager) :
  Status.complete (snd (Status.takeNextPending m)) = Status.complete m.
Proof. unfold Status.takeNextPending. by destruct (Status.pending m). Qed.

Lemma stuck_addDependencies (b d : Z) (m : Status.StatusManager) :
  Status.complete (snd (Status.addDependencies b d m)) = Status.complete m.
Proof. unfold Status.addDependencies. by destruct (Status.checkComplete b m). Qed.

(** The side conditions of the stability lemmas for [stuckState]. *)
Ltac stuck_side :=
  first
    [ by (intros e s He H; exact H)
    | by (intros x s H; exact H)
    | by (intros i s (Hc & H); split; [simpl; rewrite ?Hc; done|exact H])
    | by (intros i s (Hc & H); split;
          [simpl; by rewrite (proj1 (proj2 (removeDependency_spec i _)))|exact H])
    | by (intros s (Hc & H); split; [simpl; by rewrite stuck_takeNextPending|exact H])
    | by (intros b d s (Hc & H); split; [simpl; by rewrite stuck_addDependencies|exact H]) ].

Lemma stuck_handleAbort res dep : preserves stuckState (handleAbort res dep).
Proof. apply stable_handleAbort; stuck_side. Qed.

Lemma stuck_doValidations : preserves stuckState doValidations.
Proof. apply stable_doValidations; stuck_side. Qed.

Lemma stuck_dispatch : preserves stuckState dispatch.
Proof. apply stable_dispatch; stuck_side. Qed.

Lemma stuck_setup : preserves stuckState setup.
Proof. apply stable_setup; stuck_side. Qed.

(** With no index complete, the test that ends the loop fails. *)
Lemma stuck_checkDone (s : ScriptedState) ctl s' :
  stuckState s -> checkDone s = Ok ctl s' -> ctl = Continue /\ s' = s.
Proof.
  intros (Hc & Ht & _) Hrun. unfold checkDone in Hrun.
  apply bind_inv in Hrun as (s0 & s1 & H0 & Hrun). injection H0 as <- <-.
  rewrite decide_False in Hrun.
  - by injection Hrun as <- <-.
  - unfold Status.countComplete. rewrite Hc, Ht. simpl. intros [_ ?]. lia.
Qed.

Lemma stuck_iteration (res : ExecResult Z Z) (s : ScriptedState) ctl s' :
  abortResult res -> stuckState s -> iteration res s = Ok ctl s' ->
  ctl = Continue /\ stuckState s'.
Proof.
  intros Hres Hs Hrun. unfold iteration in Hrun. rewrite Hres in Hrun. simpl in Hrun.
  apply bind_inv in Hrun as (u & s1 & H1 & Hrun).
  pose proof (stuck_handleAbort _ _ _ _ _ Hs H1) as Hs1.
  unfold afterResult in Hrun.
  apply bind_inv in Hrun as (u2 & s2 & H2 & Hrun).
  pose proof (stuck_doValidations _ _ _ Hs1 H2) as Hs2.
  apply bind_inv in Hrun as (u3 & s3 & H3 & Hrun).
  pose proof (stuck_dispatch _ _ _ Hs2 H3) as Hs3.
  destruct (stuck_checkDone _ _ _ Hs3 Hrun) as [-> ->]. done.
Qed.

Lemma stuck_coordinatorTurn (s : ScriptedState) ctl s' :
  stuckState s -> coordinatorTurn s = Ok ctl s' -> ctl = Continue /\ stuckState s'.
Proof.
  intros Hs Hrun. unfold coordinatorTurn in Hrun.
  apply bind_inv in Hrun as (s0 & s1 & H0 & Hrun). injection H0 as <- <-.
  destruct Hs as (Hc & Ht & Hr1 & Hr2).
  destruct (chResults s) as [|res rest] eqn:Hch.
  - destruct (chSpeculativeResults s) as [|res rest] eqn:Hsp.
    + injection Hrun as <- <-. split; [done|]. repeat split; try done.
      * by rewrite Hch.
      * by rewrite Hsp.
    + apply Forall_cons in Hr2 as [Hres Hrest].
      apply bind_inv in Hrun as (u1 & s1 & H1 & Hrun). injection H1 as _ <-.
      apply bind_inv in Hrun as (u2 & s2 & H2 & Hrun). injection H2 as _ <-.
      eapply stuck_iteration; [exact Hres| |exact Hrun].
      repeat split; try done. simpl. by rewrite Hch.
  - apply Forall_cons in Hr1 as [Hres Hrest].
    apply bind_inv in Hrun as (u1 & s1 & H1 & Hrun). injection H1 as _ <-.
    apply bind_inv in Hrun as (u2 & s2 & H2 & Hrun). injection H2 as _ <-.
    eapply stuck_iteration; [exact Hres| |exact Hrun].
    repeat split; try done.
Qed.

Lemma stuck_Execute (ev : ExecVersionView Z) (s : ScriptedState) res s' :
  stuckState s -> ExecVersionView_Execute ev s = Ok res s' ->
  stuckState s' /\ abortResult res.
Proof.
  intros (Hc & Ht & Hr1 & Hr2) Hrun. unfold ExecVersionView_Execute in Hrun.
  apply bind_inv in Hrun as (ts & s1 & H1 & Hrun). injection H1 as <- <-.
  apply bind_inv in Hrun as (t & s1 & H1 & Hrun).
  unfold lift in H1. destruct (index (tasks s) (ev_et ev)) as [t0|] eqn:Hidx; [|done].
  injection H1 as <- <-.
  assert (Het : ev_et ev = 0).
  { apply index_range in Hidx. rewrite Ht in Hidx. simpl in Hidx. lia. }
  assert (Ht0 : t0 = alwaysAborts).
  { rewrite Ht, Het in Hidx. by injection Hidx as <-. }
  subst t0.
  apply bind_inv in Hrun as (m & s1 & H1 & Hrun). injection H1 as <- <-.
  apply bind_inv in Hrun as (u & s1 & H1 & Hrun). injection H1 as _ <-.
  simpl in Hrun. rewrite Ht, Het in Hrun. simpl in Hrun.
  injection Hrun as <- <-. split; [|done].
  repeat split; done.
Qed.

Lemma stuck_workerTurn (p : nat) (w : Worker) (s : ScriptedState) w' s' :
  stuckState s -> stuckWorker w -> workerTurn p w s = Ok w' s' ->
  stuckState s' /\ stuckWorker w'.
Proof.
  intros Hs Hw Hrun. destruct w as [|res|res]; simpl in Hrun.
  - apply bind_inv in Hrun as (q & s1 & H1 & Hrun). injection H1 as <- <-.
    destruct (taskChan (workerTaskChan p) s) as [|task rest].
    + by injection Hrun as <- <-.
    + apply bind_inv in Hrun as (u1 & s1 & H1 & Hrun). injection H1 as _ <-.
      apply bind_inv in Hrun as (u2 & s2 & H2 & Hrun). injection H2 as _ <-.
      apply bind_inv in Hrun as (r & s3 & H3 & Hrun). injection Hrun as <- <-.
      eapply stuck_Execute; [|exact H3].
      destruct Hs as (Hc & Ht & Hr1 & Hr2).
      destruct (workerTaskChan p); repeat split; done.
  - apply bind_inv in Hrun as (u1 & s1 & H1 & Hrun). injection Hrun as <- <-.
    unfold doWork_flush in H1. rewrite Hw in H1. by injection H1 as _ <-.
  - apply bind_inv in Hrun as (u1 & s1 & H1 & Hrun). injection Hrun as <- <-.
    unfold sendResult in H1.
    apply bind_inv in H1 as (u2 & s2 & H2 & H1). injection H2 as _ <-.
    injection H1 as _ <-. split; [|done].
    destruct Hs as (Hc & Ht & Hr1 & Hr2).
    destruct (workerResultChan p); repeat split; try done; simpl;
      apply Forall_app; split; try done; by constructor.
Qed.

Lemma step_neverDone (sys : ScriptedSystem) (t : Turn) :
  neverDone sys -> neverDone (step sys t).
Proof.
  destruct sys as [s ws| |]; [|done|done].
  intros [Hs Hws]. destruct t as [|p]; unfold step.
  - destruct (coordinatorTurn s) as [ctl s'|] eqn:Hturn; [|done].
    destruct (stuck_coordinatorTurn _ _ _ Hs Hturn) as [-> Hs']. done.
  - destruct (ws !! p) as [w|] eqn:Hw; [|done].
    destruct (workerTurn p w s) as [w' s'|] eqn:Hturn; [|done].
    assert (Hsw : stuckWorker w).
    { eapply Forall_forall in Hws; [exact Hws|]. by eapply list_elem_of_lookup_2. }
    destruct (stuck_workerTurn _ _ _ _ _ Hs Hsw Hturn) as [Hs' Hw'].
    split; [done|]. apply Forall_insert; done.
Qed.

Lemma start_neverDone : neverDone (start [alwaysAborts]).
Proof.
  unfold start. rewrite decide_False by done.
  destruct (setup (initState [alwaysAborts])) as [u s|] eqn:Hsetup; [|done].
  split.
  - eapply stuck_setup; [|exact Hsetup]. repeat split; done.
  - apply Forall_replicate. done.
Qed.

Lemma run_neverDone (sys : ScriptedSystem) (sched : list Turn) :
  neverDone sys -> neverDone (run sys sched).
Proof.
  revert sys. induction sched as [|t sched IH]; intros sys Hsys; [done|].
  simpl. apply IH. by apply step_neverDone.
Qed.

(** C1 as stated fails: every [Execute] of the batch [[alwaysAborts]]
    returns, and under no schedule does [ExecuteParallel] return. Each
    abort raises the incarnation of the task, which nothing bounds. *)
Lemma ExecuteParallel_never_returns :
  ~ exists sched : list Turn,
      is_Some (returned (ExecuteParallel [alwaysAborts] sched)).
Proof.
  intros (sched & io & Hret).
  pose proof (run_neverDone _ sched start_neverDone) as Hnever.
  fold (ExecuteParallel [alwaysAborts] sched) in Hnever.
  destruct (ExecuteParallel [alwaysAborts] sched); done.
Qed.

(** ** Instances of the further properties *)

(** The state of a computation that did not panic. *)
Definition okState {A}
    (r : Res (Key := Z) (Val := Z) (Address := Z) (T := ScriptedTask) A) : ScriptedState :=
  match r with
  | Ok _ s => s
  | Panic => initState []
  end.

Lemma hasNewWrite_order_insensitive_witness :
  hasNewWrite [write 1 0 0 7; write 2 0 0 8] [write 3 0 0 9; write 1 0 0 7]
  = hasNewWrite [write 2 0 0 8; write 1 0 0 7] [write 1 0 0 7; write 3 0 0 9].
Proof.
  apply hasNewWrite_order_insensitive; apply Permutation_swap.
Defined.

(** A table for two transactions, and a read set and a write set for the
    second. *)
Definition twoSets : TxnInputOutput Z Z := MakeTxnInputOutput 2.

Definition oneRead : TxnInput Z := [mkRead 5 ReadKindMap (mkVersion 0 0)].

Definition oneWrite : TxnOutput Z Z := [write 5 1 0 9].

Definition afterRead : TxnInputOutput Z Z := mkTxIO [[]; oneRead] [[]; []] [[]; []].

Definition afterWrite : TxnInputOutput Z Z := mkTxIO [[]; []] [[]; oneWrite] [[]; []].

Definition afterAllWrite : TxnInputOutput Z Z := mkTxIO [[]; []] [[]; []] [[]; oneWrite].

Lemma recordRead_ReadSet_witness :
  recordRead twoSets 1 oneRead = Some afterRead /\
  ReadSet afterRead 1 = Some oneRead.
Proof.
  assert (Hrec : recordRead twoSets 1 oneRead = Some afterRead)
    by (vm_compute; reflexivity).
  split; [exact Hrec|].
  exact (proj1 (recordRead_ReadSet twoSets afterRead 1 oneRead Hrec)).
Defined.

Lemma recordWrite_WriteSet_witness :
  recordWrite twoSets 1 oneWrite = Some afterWrite /\
  WriteSet afterWrite 1 = Some oneWrite.
Proof.
  assert (Hrec : recordWrite twoSets 1 oneWrite = Some afterWrite)
    by (vm_compute; reflexivity).
  split; [exact Hrec|].
  exact (proj1 (recordWrite_WriteSet twoSets afterWrite 1 oneWrite Hrec)).
Defined.

Lemma recordAllWrite_AllWriteSet_witness :
  recordAllWrite twoSets 1 oneWrite = Some afterAllWrite /\
  AllWriteSet afterAllWrite 1 = Some oneWrite.
Proof.
  assert (Hrec : recordAllWrite twoSets 1 oneWrite = Some afterAllWrite)
    by (vm_compute; reflexivity).
  split; [exact Hrec|].
  exact (proj1 (recordAllWrite_AllWriteSet twoSets afterAllWrite 1 oneWrite Hrec)).
Defined.


Definition result0 : ExecResult Z Z :=
  mkExecResult None (mkVersion 0 0) [] [write 0 0 0 1] [write 0 0 0 1].



(** The first turn of worker 0 on [three]. *)
Definition taken0 : ScriptedState := okState (workerTurn 0 Idle three).

Lemma workerTurn_frame_witness :
  workerTurn 0 Idle three = Ok (Executed result0) taken0 /\
  execTasks taken0 = execTasks three /\
  chSpeculativeTasks taken0 `suffix_of` chSpeculativeTasks three.
Proof.
  assert (Hrun : workerTurn 0 Idle three = Ok (Executed result0) taken0)
    by (vm_compute; reflexivity).
  split; [exact Hrun|].
  destruct (workerTurn_frame 0 Idle three (Executed result0) taken0 Hrun)
    as (Hexec & _ & _ & _ & _ & _ & _ & _ & _ & Hq & _).
  split; [exact Hexec|exact Hq].
Defined.

(** Three tasks of three senders, after worker 0 has sent the result of
    the first, and after the coordinator has handled it. *)
Definition oneResult : ScriptedState :=
  stateOf (ExecuteParallel [succeeds 0; succeeds 1; succeeds 2]
             [WorkerTurn 0; WorkerTurn 0; WorkerTurn 0]).

Definition handled0 : ScriptedState := okState (coordinatorTurn oneResult).

Lemma coordinatorTurn_frame_witness :
  coordinatorTurn oneResult = Ok Continue handled0 /\
  tasks handled0 = tasks oneResult /\
  chSpeculativeResults handled0 `suffix_of` chSpeculativeResults oneResult.
Proof.
  assert (Hrun : coordinatorTurn oneResult = Ok Continue handled0)
    by (vm_compute; reflexivity).
  split; [exact Hrun|].
  destruct (coordinatorTurn_frame oneResult Continue handled0 Hrun)
    as (Ht & _ & _ & _ & Hr).
  split; [exact Ht|exact Hr].
Defined.

(** Two tasks of sender 0 and one of sender 1. *)
Definition chainedBatch : list ScriptedTask := [succeeds 0; succeeds 0; succeeds 1].

Definition chainedStart : ScriptedState := stateOf (start chainedBatch).


Lemma start_bootstrap_jobs_witness :
  start chainedBatch
    = Running chainedStart (replicate (numSpeculativeProcs + numGoProcs) Idle) /\
  (fun job => TxnIndex (ev_ver job)) <$> chSpeculativeTasks chainedStart
    = take numSpeculativeProcs (firsts chainedBatch).
Proof.
  assert (Hstart : start chainedBatch
                   = Running chainedStart
                       (replicate (numSpeculativeProcs + numGoProcs) Idle))
    by (vm_compute; reflexivity).
  split; [exact Hstart|].
  exact (proj1 (start_bootstrap_jobs chainedBatch chainedStart
                  (replicate (numSpeculativeProcs + numGoProcs) Idle) Hstart)).
Defined.

Lemma start_per_sender_chain_witness :
  start chainedBatch
    = Running chainedStart (replicate (numSpeculativeProcs + numGoProcs) Idle) /\
  Status.pending (execTasks chainedStart)
    = drop numSpeculativeProcs (firsts chainedBatch).
Proof.
  assert (Hstart : start chainedBatch
                   = Running chainedStart
                       (replicate (numSpeculativeProcs + numGoProcs) Idle))
    by (vm_compute; reflexivity).
  split; [exact Hstart|].
  exact (proj1 (start_per_sender_chain chainedBatch chainedStart
                  (replicate (numSpeculativeProcs + numGoProcs) Idle) Hstart)).
Defined.

(** One task that succeeds, executed by worker 0 and handled by the
    coordinator. *)
Definition doneSchedule : list Turn :=
  [WorkerTurn 0; WorkerTurn 0; WorkerTurn 0; Coordinator].

Definition doneState : ScriptedState :=
  stateOf (ExecuteParallel [succeeds 0] doneSchedule).

Lemma ExecuteParallel_nil_error_all_reported_witness :
  ExecuteParallel [succeeds 0] doneSchedule = Returned doneState /\
  returnErr doneState = None /\
  exists r, r ∈ received (trace doneState) /\ err r = None /\ TxnIndex (ver r) = 0.
Proof.
  assert (Hret : ExecuteParallel [succeeds 0] doneSchedule = Returned doneState)
    by (vm_compute; reflexivity).
  assert (Herr : returnErr doneState = None) by (vm_compute; reflexivity).
  assert (Hi : 0 <= 0 < Z.of_nat (length [succeeds 0])) by (simpl; lia).
  split; [exact Hret|]. split; [exact Herr|].
  exact (ExecuteParallel_nil_error_all_reported [succeeds 0] doneSchedule doneState 0
           Hret Herr Hi).
Defined.

Lemma ExecuteParallel_needs_every_task_witness :
  ExecuteParallel [fails] failedSchedule = Returned failedState /\
  returnErr failedState <> None.
Proof.
  assert (Hret : ExecuteParallel [fails] failedSchedule = Returned failedState)
    by (vm_compute; reflexivity).
  assert (HQ : forall (t : ScriptedTask) (m : MVHashMap Z Z) (inc : Z),
            t = fails ->
            fst (Execute t m inc) = fails /\ snd (Execute t m inc) <> None).
  { intros t m inc ->. split; [reflexivity|]. simpl. discriminate. }
  assert (Hi : index [fails] 0 = Some fails) by (vm_compute; reflexivity).
  split; [exact Hret|].
  exact (ExecuteParallel_needs_every_task (fun t => t = fails) [fails] failedSchedule
           failedState 0 fails HQ Hi eq_refl Hret).
Defined.

(** The workers of a system that runs. *)
Definition workersOf (sys : ScriptedSystem) : list (Worker (Key := Z) (Val := Z)) :=
  match sys with
  | Running _ ws => ws
  | _ => []
  end.

Definition oneResultWorkers : list (Worker (Key := Z) (Val := Z)) :=
  workersOf (ExecuteParallel [succeeds 0; succeeds 1; succeeds 2]
               [WorkerTurn 0; WorkerTurn 0; WorkerTurn 0]).

Lemma ExecuteParallel_indices_in_batch_witness :
  ExecuteParallel [succeeds 0; succeeds 1; succeeds 2]
    [WorkerTurn 0; WorkerTurn 0; WorkerTurn 0] = Running oneResult oneResultWorkers /\
  ranged (length [succeeds 0; succeeds 1; succeeds 2]) oneResult.
Proof.
  assert (Hrun : ExecuteParallel [succeeds 0; succeeds 1; succeeds 2]
                   [WorkerTurn 0; WorkerTurn 0; WorkerTurn 0]
                 = Running oneResult oneResultWorkers)
    by (vm_compute; reflexivity).
  split; [exact Hrun|].
  exact (proj1 (ExecuteParallel_indices_in_batch [succeeds 0; succeeds 1; succeeds 2]
                  [WorkerTurn 0; WorkerTurn 0; WorkerTurn 0]
                  oneResult oneResultWorkers Hrun)).
Defined.

Lemma ExecuteParallel_returned_table_witness :
  returned (ExecuteParallel [succeeds 0] doneSchedule) = Some (lastTxIO doneState, None) /\
  (is_Some (ReadSet (lastTxIO doneState) 0) <-> 0 <= 0 < Z.of_nat (length [succeeds 0])).
Proof.
  assert (Hret : returned (ExecuteParallel [succeeds 0] doneSchedule)
                 = Some (lastTxIO doneState, None))
    by (vm_compute; reflexivity).
  split; [exact Hret|].
  exact (proj1 (ExecuteParallel_returned_table [succeeds 0] doneSchedule
                  (lastTxIO doneState) None 0 Hret)).
Defined.

Lemma ExecuteParallel_running_open_witness :
  ExecuteParallel [succeeds 0; succeeds 1; succeeds 2]
    [WorkerTurn 0; WorkerTurn 0; WorkerTurn 0] = Running oneResult oneResultWorkers /\
  returnErr oneResult = None.
Proof.
  assert (Hrun : ExecuteParallel [succeeds 0; succeeds 1; succeeds 2]
                   [WorkerTurn 0; WorkerTurn 0; WorkerTurn 0]
                 = Running oneResult oneResultWorkers)
    by (vm_compute; reflexivity).
  split; [exact Hrun|].
  exact (proj1 (ExecuteParallel_running_open [succeeds 0; succeeds 1; succeeds 2]
                  [WorkerTurn 0; WorkerTurn 0; WorkerTurn 0]
                  oneResult oneResultWorkers Hrun)).
Defined.

Lemma ExecuteParallel_closes_at_return_witness :
  [succeeds 0] <> [] /\
  ExecuteParallel [succeeds 0] doneSchedule = Returned doneState /\
  exists tr,
    Forall (fun e => quiet e = true) tr /\
    trace doneState = tr ++
      match returnErr doneState with
      | None => [EvLogSummary (cntExec (diag doneState)) (cntSuccess (diag doneState))
                   (cntAbort (diag doneState)) (cntTotalValidations (diag doneState))
                   (cntValidationFail (diag doneState))]
      | Some _ => []
      end ++
      [EvClose ChTasks; EvClose ChSpeculativeTasks; EvClose ChResults;
       EvClose ChSpeculativeResults].
Proof.
  assert (Hne : [succeeds 0] <> []) by (intros Hnil; discriminate Hnil).
  assert (Hret : ExecuteParallel [succeeds 0] doneSchedule = Returned doneState)
    by (vm_compute; reflexivity).
  split; [exact Hne|]. split; [exact Hret|].
  exact (ExecuteParallel_closes_at_return [succeeds 0] doneSchedule doneState Hne Hret).
Defined.
